(** * Forward stepwise regression of the multiple-regression plugin

    A shallow embedding of the model-selection core of
    [webviz_subsurface/plugins/_multiple_regression.py]:
    [gen_model], [_gen_interaction_df], [forward_selected] and
    [_model_warnings]; and of the plugin around it: the construction
    ([__init__], [check_runs], [check_response_filters]), the response
    filters and their selectors, the callbacks' inputs, the force-in
    options and the two plots.

    Modelling conventions.
    - [float64] arithmetic is idealised as exact rational arithmetic ([Q]).
      Where numpy would produce [inf] or [nan] (a division by [SST = 0],
      the response being constant) the round ends in the outcome
      [NonFinite], unless a candidate takes the degrees-of-freedom exit,
      and nothing is stated about such runs: what is proved of whole runs
      either assumes a response that is not constant or does not depend on
      the scores.
    - [numpy.linalg.inv] is a parameter, [la_inv]: it returns a matrix or
      raises [LinAlgError], and which matrices it rejects is left open (its
      floating point factorisation accepts some singular ones).  The
      examples run with the exact inverse, which rejects the singular
      matrices.
    - A pandas [DataFrame] is its row count and its ordered list of
      labelled columns of numbers; labels are unique (a lookup finds the
      first).  Where the dtypes matter, in the interaction expansion, the
      frame comes with the labels of its int64 columns: a product of int64
      columns wraps around, every other arithmetic is in float64.  Missing
      values are not part of the model.
    - A Python [set] of names is the list of its elements in iteration
      order.  The order in which CPython iterates over a freshly built set
      depends on the hashes of the names; it is the parameter [set_iter].
      Removing an element leaves the order of the others as it was.
    - Python [list] objects live in a heap indexed by locations, so that
      the aliasing [selected = force_in] is visible.
    - [statsmodels]' [OLS(...).fit()] is a parameter: it yields the
      warnings it issues and either an exception or a fitted model.
    - The [CACHE.memoize] decorators are not part of the model.
    - A Python [dict] with string keys is the list of its entries in
      insertion order; its keys are unique.
    - Dash components and plotly figures are seen through what the plugin
      itself computes for them: the ids, options and values of the
      components, and the numbers, labels and colours handed to plotly.
      What the plugin reads or calls outside the file (the settings of the
      application, the loaders of the frames) is a parameter. *)

From Stdlib Require Import List Bool Arith ZArith QArith Lia String Ascii.
From Stdlib Require Import Permutation Sorted.
Import ListNotations.
Open Scope string_scope.
Open Scope Q_scope.
Open Scope list_scope.

(** ** Names: the interaction separator *)

Module Names.

Definition star : ascii := "*"%char.

(** ["*" in s] *)
Fixpoint contains_star (s : string) : bool :=
  match s with
  | EmptyString => false
  | String c s' => if Ascii.eqb c star then true else contains_star s'
  end.

(** [s.split("*")]: never empty; the empty string splits into [[""]]. *)
Fixpoint split_star (s : string) : list string :=
  match s with
  | EmptyString => [EmptyString]
  | String c s' =>
      if Ascii.eqb c star then EmptyString :: split_star s'
      else match split_star s' with
           | [] => [String c EmptyString]
           | piece :: rest => String c piece :: rest
           end
  end.

(** ["*".join(l)] *)
Fixpoint join_star (l : list string) : string :=
  match l with
  | [] => EmptyString
  | x :: rest =>
      match rest with
      | [] => x
      | _ :: _ => String.append x (String star (join_star rest))
      end
  end.

Definition mem (x : string) (l : list string) : bool :=
  existsb (String.eqb x) l.

End Names.
Import Names.

(** ** Exact linear algebra on lists *)

Module LinAlg.

Definition vector := list Q.
(** A two-dimensional array is the list of its rows; the number of columns
    is passed along where the rows alone do not determine it. *)
Definition matrix := list (list Q).

(** Sums and inner products; the rationals are kept in lowest terms. *)
Definition Qsum (l : list Q) : Q :=
  fold_right (fun x acc => Qred (x + acc)) 0 l.

Fixpoint dot (a b : vector) : Q :=
  match a, b with
  | x :: a', y :: b' => Qred (x * y + dot a' b')
  | _, _ => 0
  end.

Definition ones (n : nat) : vector := repeat 1 n.

(** [M.T] for [M] with [ncols] columns *)
Definition mat_T (ncols : nat) (M : matrix) : matrix :=
  map (fun j => map (fun row => nth j row 0) M) (seq 0 ncols).

(** [A @ B] for [B] with [ncolsB] columns *)
Definition mat_mul (ncolsB : nat) (A B : matrix) : matrix :=
  map (fun row => map (dot row) (mat_T ncolsB B)) A.

(** [A @ v] *)
Definition mat_vec (A : matrix) (v : vector) : vector :=
  map (fun row => dot row v) A.

(** [v @ B] for [B] with [ncolsB] columns *)
Definition vec_mat (ncolsB : nat) (v : vector) (B : matrix) : vector :=
  map (dot v) (mat_T ncolsB B).

Fixpoint remove_nth {A : Type} (i : nat) (l : list A) : list A :=
  match i, l with
  | _, [] => []
  | O, _ :: t => t
  | S i', h :: t => h :: remove_nth i' t
  end.

Definition minor (i j : nat) (M : matrix) : matrix :=
  map (remove_nth j) (remove_nth i M).

Definition sign (i : nat) : Q := if Nat.even i then 1 else -(1).

(** Determinant of a [k] x [k] matrix, expanded along the first row. *)
Fixpoint det (k : nat) (M : matrix) : Q :=
  match k with
  | O => 1
  | S k' =>
      match M with
      | [] => 0
      | row0 :: rest =>
          Qsum (map (fun j => sign j * nth j row0 0
                              * det k' (map (remove_nth j) rest))
                    (seq 0 k))
      end
  end.

(** The exact inverse of a [k] x [k] matrix, the adjugate over the
    determinant; [None] when the determinant is zero. *)
Definition inv (k : nat) (M : matrix) : option matrix :=
  let d := Qred (det k M) in
  if Qeq_bool d 0 then None
  else Some (map (fun i =>
               map (fun j => Qred (sign (i + j) * det (pred k) (minor j i M) / d))
                   (seq 0 k))
             (seq 0 k)).

(** An inversion that fails exactly on the singular matrices; the examples
    run with it. *)
Definition exact_inv (M : matrix) : option matrix := inv (List.length M) M.

End LinAlg.
Import LinAlg.

(** ** Data frames *)

Module Frame.

Record DataFrame := mkDF {
  index_len : nat;                        (* number of rows *)
  columns : list (string * list Q)        (* labelled columns, in order *)
}.

Definition labels (df : DataFrame) : list string := map fst (columns df).

Fixpoint assoc (name : string) (cols : list (string * list Q)) : option (list Q) :=
  match cols with
  | [] => None
  | (k, v) :: rest => if String.eqb name k then Some v else assoc name rest
  end.

(** [df[name]]; [None] is [KeyError]. *)
Definition getitem (df : DataFrame) (name : string) : option (list Q) :=
  assoc name (columns df).

(** [df.filter(items=items)]: the items that are labels, in the order of
    [items]. *)
Fixpoint filter_cols (cols : list (string * list Q)) (items : list string)
  : list (string * list Q) :=
  match items with
  | [] => []
  | r :: rest =>
      match assoc r cols with
      | Some v => (r, v) :: filter_cols cols rest
      | None => filter_cols cols rest
      end
  end.

Definition df_filter (df : DataFrame) (items : list string) : DataFrame :=
  mkDF (index_len df) (filter_cols (columns df) items).

Fixpoint set_col (cols : list (string * list Q)) (name : string) (v : list Q)
  : list (string * list Q) :=
  match cols with
  | [] => [(name, v)]
  | (k, w) :: rest =>
      if String.eqb name k then (k, v) :: rest else (k, w) :: set_col rest name v
  end.

(** [df[name] = v]: overwrite the column, or add it as the last one. *)
Definition setitem (df : DataFrame) (name : string) (v : list Q) : DataFrame :=
  mkDF (index_len df) (set_col (columns df) name v).

(** [df.drop(columns=name)]; [None] is [KeyError]. *)
Definition drop (df : DataFrame) (name : string) : option DataFrame :=
  if mem name (labels df)
  then Some (mkDF (index_len df)
                  (filter (fun c => negb (String.eqb name (fst c))) (columns df)))
  else None.

(** [df.to_numpy(dtype="float64")]: the rows. *)
Definition to_numpy (df : DataFrame) : matrix :=
  map (fun i => map (fun c => nth i (snd c) 0) (columns df))
      (seq 0 (index_len df)).

(** [df.product(axis=1)] for float64 columns: the product along each
    row. *)
Definition row_product (df : DataFrame) : list Q :=
  map (fun row => fold_left Qmult row 1) (to_numpy df).

(** Every column has one value per row and no label occurs twice. *)
Definition well_formed (df : DataFrame) : Prop :=
  NoDup (labels df) /\
  Forall (fun c => List.length (snd c) = index_len df) (columns df).

(** *** Dtypes *)

(** A frame with the dtypes of its columns: [int64_columns] holds the
    labels of the columns of dtype [int64], whose values are integers of
    the int64 range; every other column has dtype [float64].  Where only
    the values matter, as in everything that reads the frame through
    [to_numpy(dtype="float64")], the frame stands for its values. *)
Record TypedFrame := mkTyped {
  values :> DataFrame;
  int64_columns : list string
}.

Definition has_int64 (df : TypedFrame) (c : string) : bool :=
  mem c (int64_columns df).

(** The int64 value an integer result wraps around to. *)
Definition wrap_int64 (z : Z) : Z := ((z + 2 ^ 63) mod 2 ^ 64 - 2 ^ 63)%Z.

(** The integer a value of an int64 column is. *)
Definition int_of (v : Q) : Z := (Qnum v / Zpos (Qden v))%Z.

(** The product along a row of int64 values: every multiplication wraps. *)
Definition int64_row_product (row : list Q) : Q :=
  inject_Z (fold_left (fun acc v => wrap_int64 (acc * int_of v)) row 1%Z).

(** [df.filter(items=items).product(axis=1)]: the result has dtype int64
    when the filtered frame has columns and all of them are int64, and
    dtype float64 otherwise. *)
Definition product_is_int64 (df : TypedFrame) (items : list string) : bool :=
  match labels (df_filter df items) with
  | [] => false
  | kept => forallb (has_int64 df) kept
  end.

Definition typed_product (df : TypedFrame) (items : list string) : list Q :=
  if product_is_int64 df items
  then map int64_row_product (to_numpy (df_filter df items))
  else row_product (df_filter df items).

(** [df[name] = series], for a series with the values [v] and the dtype
    int64 ([is_int64]) or float64: the column takes the dtype of the
    series. *)
Definition typed_setitem (df : TypedFrame) (name : string) (v : list Q)
    (is_int64 : bool) : TypedFrame :=
  mkTyped (setitem df name v)
          (if is_int64
           then if mem name (int64_columns df) then int64_columns df
                else int64_columns df ++ [name]
           else filter (fun c => negb (String.eqb name c)) (int64_columns df)).

End Frame.
Import Frame.

(** ** Python outcomes, warnings and objects *)

Module Py.

(** The exception classes that matter here.  [NonException] stands for the
    classes below [BaseException] that are not below [Exception]
    ([KeyboardInterrupt], [SystemExit]). *)
Inductive exn :=
| KeyError
| IndexError
| RuntimeWarningRaised
| OtherException
| NonException.

(** [isinstance(e, (Exception, RuntimeWarning))] *)
Definition is_Exception (e : exn) : bool :=
  match e with
  | NonException => false
  | _ => true
  end.

Inductive warning_category := RuntimeWarning | UserWarning | OtherWarning.

Definition is_RuntimeWarning (w : warning_category) : bool :=
  match w with
  | RuntimeWarning => true
  | _ => false
  end.

(** Python [list] objects of names: a heap of locations. *)
Definition loc := nat.
Definition heap := loc -> list string.

Definition h_upd (h : heap) (l : loc) (v : list string) : heap :=
  fun l' => if Nat.eqb l' l then v else h l'.

(** [l.append(x)] *)
Definition list_append (h : heap) (l : loc) (x : string) : heap :=
  h_upd h l (h l ++ [x]).

(** [l.pop()]: the last element and the shortened list; [None] is
    [IndexError]. *)
Fixpoint list_pop {A : Type} (l : list A) : option (list A * A) :=
  match l with
  | [] => None
  | x :: rest =>
      match list_pop rest with
      | None => Some ([], x)
      | Some (front, last) => Some (x :: front, last)
      end
  end.

(** [s.remove(x)] on a set: [None] is [KeyError]; the others keep their
    order. *)
Definition set_remove (x : string) (s : list string) : option (list string) :=
  if mem x s then Some (filter (fun e => negb (String.eqb x e)) s) else None.

(** The elements of [set(a).difference(set(b))], before any order is
    imposed on them. *)
Definition set_difference (a b : list string) : list string :=
  filter (fun x => negb (mem x b)) (nodup string_dec a).

(** [DataFrame] objects: a store of frames addressed by position. *)
Definition store := list TypedFrame.
Definition ref := nat.

Definition deref (Sto : store) (r : ref) : TypedFrame :=
  nth r Sto (mkTyped (mkDF 0 []) []).

(** [df.copy()]: a new object with the same content. *)
Definition df_copy (Sto : store) (r : ref) : store * ref :=
  (Sto ++ [deref Sto r], List.length Sto).

Fixpoint store_set (Sto : store) (r : ref) (d : TypedFrame) : store :=
  match Sto, r with
  | [], _ => []
  | _ :: rest, O => d :: rest
  | x :: rest, S r' => x :: store_set rest r' d
  end.

(** [itertools.combinations(l, r)], in its lexicographic order. *)
Fixpoint combinations {A : Type} (l : list A) (r : nat) : list (list A) :=
  match r with
  | O => [[]]
  | S r' =>
      match l with
      | [] => []
      | x :: rest => map (cons x) (combinations rest r') ++ combinations rest r
      end
  end.

End Py.
Import Py.

(** ** The engine *)

Definition sq (x : Q) : Q := x * x.

(** [a < b] on floats *)
Definition Qlt_bool (a b : Q) : bool := negb (Qle_bool b a).

Inductive cand_result :=
| CandSkipped                 (* [continue]: [la.inv] raised *)
| CandHalt                    (* the degrees-of-freedom exit *)
| CandNonFinite               (* division by [SST = 0] *)
| CandScored (R_2_adj : Q).

Inductive scan_result :=
| ScanDone (scores_with_candidates : list (Q * string))
| ScanHalt                    (* a candidate took the degrees-of-freedom exit *)
| ScanNonFinite.              (* no exit, and some score was not finite *)

(** [scores_with_candidates.sort(key=lambda x: x[0])]: a stable sort on the
    score alone. *)
Fixpoint insert_by_score (x : Q * string) (l : list (Q * string))
  : list (Q * string) :=
  match l with
  | [] => [x]
  | y :: l' =>
      if Qle_bool (fst x) (fst y) then x :: y :: l'
      else y :: insert_by_score x l'
  end.

Fixpoint sort_by_score (l : list (Q * string)) : list (Q * string) :=
  match l with
  | [] => []
  | x :: l' => insert_by_score x (sort_by_score l')
  end.

Section Engine.

(** The iteration order of a freshly built set with the given elements. *)
Variable set_iter : list string -> list string.

(** [statsmodels]: the fitted-results type and what [sm.OLS(endog,
    exog).fit()] does. *)
Variable Model : Type.

Record fit_run := mkRun {
  issued : list warning_category;       (* warnings, in the order issued *)
  ending : exn + Model                  (* raised or returned, if no warning aborts *)
}.

Variable OLS_fit : list Q -> DataFrame -> fit_run.

(** [numpy.linalg.inv]: the matrix it returns, or [None] when it raises
    [LinAlgError].  Which matrices it rejects is decided by its floating
    point factorisation, not by the determinant. *)
Variable la_inv : matrix -> option matrix.

Inductive outcome :=
| Returned (model : option Model)       (* [None] is the failure value *)
| Raised (e : exn)
| NonFinite.

(** A fit under [filterwarnings('error', category=RuntimeWarning)] and
    [filterwarnings('ignore', category=UserWarning)]. *)
Definition under_filters (r : fit_run) : exn + Model :=
  if existsb is_RuntimeWarning (issued r) then inl RuntimeWarningRaised
  else ending r.

Definition _model_warnings (design_matrix : DataFrame) : outcome :=
  let attempt :=
    match getitem design_matrix "response" with
    | None => inl KeyError
    | Some endog =>
        match drop design_matrix "response" with
        | None => inl KeyError
        | Some exog => under_filters (OLS_fit endog exog)
        end
    end in
  match attempt with
  | inr model => Returned (Some model)
  | inl e => if is_Exception e then Returned None else Raised e
  end.

(** The columns of the matrix scored for a candidate. *)
Definition current_model_of (selected : list string) (candidate : string)
  : list string :=
  if contains_star candidate
  then selected ++ [candidate]
       ++ set_iter (set_difference (split_star candidate) selected)
  else selected ++ [candidate].

(** The body of the [for candidate in remaining] loop. *)
Definition eval_candidate (data : DataFrame) (y : vector) (n : nat)
    (y_mean SST : Q) (selected : list string) (candidate : string)
  : cand_result :=
  let current_model := current_model_of selected candidate in
  let X0 := df_filter data current_model in
  let p := List.length (columns X0) in
  let X := map (fun row => row ++ [1]) (to_numpy X0) in
  let XT := mat_T (S p) X in
  match la_inv (mat_mul (S p) XT X) with
  | None => CandSkipped
  | Some G =>
      let beta := mat_vec (mat_mul n G XT) y in
      if (Z.of_nat n - Z.of_nat p - 1 <? 1)%Z then CandHalt
      else
        let f_vec := vec_mat n beta XT in
        let SS_RES := Qsum (map (fun f => sq (f - y_mean)) f_vec) in
        if Qeq_bool SST 0 then CandNonFinite
        else CandScored
               (1 - (1 - (SS_RES / SST))
                    * (inject_Z (Z.of_nat n - 1)
                       / inject_Z (Z.of_nat n - Z.of_nat p - 1)))
  end.

Fixpoint score_candidates (data : DataFrame) (y : vector) (n : nat)
    (y_mean SST : Q) (selected : list string) (cands : list string)
    (scores_with_candidates : list (Q * string)) : scan_result :=
  match cands with
  | [] => ScanDone scores_with_candidates
  | candidate :: rest =>
      match eval_candidate data y n y_mean SST selected candidate with
      | CandSkipped =>
          score_candidates data y n y_mean SST selected rest
                           scores_with_candidates
      | CandHalt => ScanHalt
      | CandNonFinite =>
          match score_candidates data y n y_mean SST selected rest
                                 scores_with_candidates with
          | ScanHalt => ScanHalt
          | _ => ScanNonFinite
          end
      | CandScored R_2_adj =>
          score_candidates data y n y_mean SST selected rest
                           (scores_with_candidates ++ [(R_2_adj, candidate)])
      end
  end.

(** The loop state: [selected] is the list object at [force_in], read
    through the heap. *)
Record loop_state := mkState {
  st_heap : heap;
  remaining : list string;
  current_score : Q;
  best_new_score : Q
}.

(** [for base_feature in best_candidate.split("*")] *)
Fixpoint commit_bases (bases : list string) (h : heap) (selected : loc)
    (rem : list string) : heap * list string :=
  match bases with
  | [] => (h, rem)
  | base_feature :: rest =>
      let rem' := match set_remove base_feature rem with
                  | Some r => r
                  | None => rem
                  end in
      let h' := if mem base_feature (h selected) then h
                else list_append h selected base_feature in
      commit_bases rest h' selected rem'
  end.

Definition final_design (data : DataFrame) (selected : list string)
    (y : vector) : DataFrame :=
  setitem (setitem (df_filter data selected) "Intercept" (ones (List.length y)))
          "response" y.

Inductive round_result :=
| RoundNext (st : loop_state)
| RoundReturn (o : outcome) (h : heap).

(** One pass through the body of the [while] loop. *)
Definition round (data : DataFrame) (y : vector) (n : nat) (y_mean SST : Q)
    (selected : loc) (st : loop_state) : round_result :=
  let h := st_heap st in
  match score_candidates data y n y_mean SST (h selected) (remaining st) [] with
  | ScanHalt => RoundReturn (_model_warnings (final_design data (h selected) y)) h
  | ScanNonFinite => RoundReturn NonFinite h
  | ScanDone scores =>
      match list_pop (sort_by_score scores) with
      | None => RoundReturn (Raised IndexError) h
      | Some (_, (best, best_candidate)) =>
          if Qlt_bool (current_score st) best then
            let '(h1, rem1) :=
              if contains_star best_candidate
              then commit_bases (split_star best_candidate) h selected
                                (remaining st)
              else (h, remaining st) in
            match set_remove best_candidate rem1 with
            | None => RoundReturn (Raised KeyError) h1
            | Some rem2 =>
                RoundNext (mkState (list_append h1 selected best_candidate)
                                   rem2 best best)
            end
          else RoundNext (mkState h (remaining st) (current_score st) best)
      end
  end.

(** [remaining and current_score == best_new_score and len(selected) <
    maxvars] *)
Definition loop_condition (selected : loc) (maxvars : Z) (st : loop_state)
  : bool :=
  match remaining st with [] => false | _ :: _ => true end
  && Qeq_bool (current_score st) (best_new_score st)
  && (Z.of_nat (List.length (st_heap st selected)) <? maxvars)%Z.

(** The [while] loop and the final fit; [None] when the fuel runs out. *)
Fixpoint forward_loop (fuel : nat) (data : DataFrame) (y : vector) (n : nat)
    (y_mean SST : Q) (selected : loc) (maxvars : Z) (st : loop_state)
  : option (outcome * heap) :=
  match fuel with
  | O => None
  | S fuel' =>
      if loop_condition selected maxvars st then
        match round data y n y_mean SST selected st with
        | RoundNext st' =>
            forward_loop fuel' data y n y_mean SST selected maxvars st'
        | RoundReturn o h => Some (o, h)
        end
      else
        Some (_model_warnings (final_design data (st_heap st selected) y),
              st_heap st)
  end.

Definition initial_state (h : heap) (data : DataFrame) (response : string)
    (force_in : loc) : loop_state :=
  mkState h
          (set_iter (set_difference (labels data) (h force_in ++ [response])))
          0 0.

Definition forward_selected (fuel : nat) (h : heap) (data : DataFrame)
    (response : string) (force_in : loc) (maxvars : Z)
  : option (outcome * heap) :=
  match getitem data response with
  | None => Some (Raised KeyError, h)
  | Some y =>
      let n := List.length y in
      let y_mean := Qsum y / inject_Z (Z.of_nat n) in
      let SST := Qsum (map (fun v => sq (v - y_mean)) y) in
      let selected := force_in in
      forward_loop fuel data y n y_mean SST selected maxvars
                   (initial_state h data response force_in)
  end.

(** The list object that is the default value of [force_in]: it is created
    once, when the function is defined. *)
Definition forward_selected_default_force_in : loc := 0%nat.

(** ** Interaction expansion *)

(** The first loop of [_gen_interaction_df]; [None] is the [KeyError] of
    [drop]. *)
Fixpoint name_combinations_from (newdf : DataFrame) (response : string)
    (degrees : list nat) (name_combinations : list string)
  : option (list string) :=
  match degrees with
  | [] => Some name_combinations
  | i :: rest =>
      match drop newdf response with
      | None => None
      | Some d =>
          name_combinations_from newdf response rest
            (name_combinations ++ map join_star (combinations (labels d) i))
      end
  end.

(** The second loop: each assignment goes to the object [newdf]. *)
Fixpoint assign_products (Sto : store) (newdf : ref) (names : list string)
  : store :=
  match names with
  | [] => Sto
  | name :: rest =>
      match split_star name with
      | [] => assign_products Sto newdf rest
      | _ :: _ =>
          let cur := deref Sto newdf in
          assign_products
            (store_set Sto newdf
               (typed_setitem cur name
                  (typed_product cur (split_star name))
                  (product_is_int64 cur (split_star name))))
            newdf rest
      end
  end.

Definition _gen_interaction_df (Sto : store) (df : ref) (response : string)
    (degree : nat) : store * (exn + ref) :=
  let '(S1, newdf) := df_copy Sto df in
  match name_combinations_from (deref S1 newdf) response (seq 1 degree) [] with
  | None => (S1, inl KeyError)
  | Some name_combinations =>
      (assign_products S1 newdf name_combinations, inr newdf)
  end.


End Engine.

Arguments mkRun {Model} _ _.
Arguments issued {Model} _.
Arguments ending {Model} _.
Arguments Returned {Model} _.
Arguments Raised {Model} _.
Arguments NonFinite {Model}.
Arguments RoundNext {Model} _.
Arguments RoundReturn {Model} _ _.

(** ** Notions used to state the properties *)

(** The mean and the total sum of squares of the response, as
    [forward_selected] computes them before its loop. *)
Definition mean (y : vector) : Q :=
  Qsum y / inject_Z (Z.of_nat (List.length y)).

Definition SST_of (y : vector) : Q :=
  Qsum (map (fun v => sq (v - mean y)) y).

(** [p], the design matrix with its intercept column, and the matrix of the
    normal equations, for the columns [current_model]. *)
Definition n_predictors (data : DataFrame) (current_model : list string) : nat :=
  List.length (columns (df_filter data current_model)).

Definition design_matrix (data : DataFrame) (current_model : list string)
  : matrix :=
  map (fun row => row ++ [1]) (to_numpy (df_filter data current_model)).

Definition normal_matrix (data : DataFrame) (current_model : list string)
  : matrix :=
  let p := n_predictors data current_model in
  let X := design_matrix data current_model in
  mat_mul (S p) (mat_T (S p) X) X.




(** The base features a commit appends: those not yet selected, each once,
    in the order of the split. *)
Fixpoint fresh_bases (bases selected : list string) : list string :=
  match bases with
  | [] => []
  | b :: rest =>
      if mem b selected then fresh_bases rest selected
      else b :: fresh_bases rest (selected ++ [b])
  end.

(** The second loop of [_gen_interaction_df] as it acts on the content of
    the copied frame. *)
Fixpoint assign_frame (cur : TypedFrame) (names : list string) : TypedFrame :=
  match names with
  | [] => cur
  | name :: rest =>
      assign_frame
        (typed_setitem cur name
           (typed_product cur (split_star name))
           (product_is_int64 cur (split_star name)))
        rest
  end.

(** The names [_gen_interaction_df] assigns, for the labels [base] of the
    columns other than the response. *)
Definition interaction_names (base : list string) (degrees : list nat)
  : list string :=
  flat_map (fun i => map join_star (combinations base i)) degrees.


(** The values of the int64 columns are integers of the int64 range. *)
Definition is_int64 (v : Q) : Prop :=
  exists z : Z, v = inject_Z z /\ (- 2 ^ 63 <= z < 2 ^ 63)%Z.



(** The largest number of base features of an interaction name in a pool. *)
Definition max_bases (pool : list string) : nat :=
  fold_right Nat.max 0%nat
    (map (fun c => if contains_star c then List.length (split_star c) else 0%nat)
         pool).

(** The order the stable sort works with. *)
Definition score_le (x y : Q * string) : Prop := fst x <= fst y.




(** A list that has grown at its end by at most [bound] names. *)
Definition grows_by (bound : nat) (before after : list string) : Prop :=
  exists suffix,
    after = before ++ suffix /\ (List.length suffix <= bound)%nat.

Section Runs.

Variable set_iter : list string -> list string.
Variable Model : Type.
Variable OLS_fit : list Q -> DataFrame -> fit_run Model.
Variable la_inv : matrix -> option matrix.

Variables (data : DataFrame) (y : vector) (n : nat) (y_mean SST : Q).
Variables (selected : loc) (maxvars : Z).

(** The states the [while] loop passes through. *)
Inductive reaches (st0 : loop_state) : loop_state -> Prop :=
| reaches_here : reaches st0 st0
| reaches_round st st' :
    reaches st0 st ->
    loop_condition selected maxvars st = true ->
    round set_iter Model OLS_fit la_inv data y n y_mean SST selected st = RoundNext st' ->
    reaches st0 st'.

(** What one candidate adds to [scores_with_candidates]. *)
Definition scored (sel : list string) (c : string) : list (Q * string) :=
  match eval_candidate set_iter la_inv data y n y_mean SST sel c with
  | CandScored r => [(r, c)]
  | _ => []
  end.

(** A round accepts [candidate]: it is the popped best and improves the
    current score. *)
Definition accepts (st : loop_state) (candidate : string) : Prop :=
  exists scores front best,
    score_candidates set_iter la_inv data y n y_mean SST (st_heap st selected)
                     (remaining st) [] = ScanDone scores /\
    list_pop (sort_by_score scores) = Some (front, (best, candidate)) /\
    Qlt_bool (current_score st) best = true.

(** The degrees-of-freedom rule in the words of the specification: any
    candidate of the round with [n - p - 1 < 1] ends the search with the
    model of the predictors selected so far. *)
Definition dof_halts_as_stated (st : loop_state) : Prop :=
  forall candidate,
    In candidate (remaining st) ->
    (Z.of_nat n
     - Z.of_nat (n_predictors data
                   (current_model_of set_iter (st_heap st selected) candidate))
     - 1 < 1)%Z ->
    forall fuel,
      option_map fst
        (forward_loop set_iter Model OLS_fit la_inv (S fuel) data y n y_mean SST
                      selected maxvars st)
      = Some (_model_warnings Model OLS_fit
                (final_design data (st_heap st selected) y)).

End Runs.

(** ** Concrete data *)

Module Examples.

Definition zs (l : list Z) : list Q := map inject_Z l.

(** A stand-in for [statsmodels]: the fitted model is known by the labels
    of its exogenous columns. *)
Definition M := list string.

Definition fit (endog : list Q) (exog : DataFrame) : fit_run M :=
  mkRun [] (inr (labels exog)).

(** A fit that issues a [RuntimeWarning] on its way to a result. *)
Definition fit_warns (endog : list Q) (exog : DataFrame) : fit_run M :=
  mkRun [UserWarning; RuntimeWarning] (inr (labels exog)).

(** A fit that raises. *)
Definition fit_raises (endog : list Q) (exog : DataFrame) : fit_run M :=
  mkRun [] (inl OtherException).

Definition h_empty : heap := fun _ => [].

(** Sets iterate in the order their elements were given, or in the
    opposite one. *)
Definition in_order (l : list string) : list string := l.

(** One candidate, constant: collinear with the intercept. *)
Definition constant_candidate : DataFrame :=
  mkDF 3 [("y", zs [1; 2; 3]%Z); ("x", zs [1; 1; 1]%Z)].

(** One forced-in predictor [f] and one candidate [x] whose adjusted score
    is exactly zero. *)
Definition zero_score : DataFrame :=
  mkDF 5 [("y", zs [1; 0; 0; -1; 0]%Z);
          ("f", zs [1; -1; 0; 0; 0]%Z);
          ("x", zs [0; 0; 1; -1; 0]%Z)].
Definition zero_score_y : vector := zs [1; 0; 0; -1; 0]%Z.
Definition f_loc : loc := 7%nat.
Definition h_forced_f : heap := h_upd h_empty f_loc ["f"].

(** Two candidates with the same score. *)
Definition tied : DataFrame :=
  mkDF 4 [("y", zs [1; 1; -1; -1]%Z);
          ("a", zs [1; 0; -1; 0]%Z);
          ("b", zs [0; 1; 0; -1]%Z)].
Definition tied_y : vector := zs [1; 1; -1; -1]%Z.

(** Three rows, two base columns and their interaction column. *)
Definition three_rows : DataFrame :=
  mkDF 3 [("y", zs [1; 0; 0]%Z);
          ("A", zs [1; 0; 0]%Z);
          ("B", zs [0; 1; 0]%Z);
          ("A*B", zs [0; 0; 0]%Z)].
Definition three_rows_y : vector := zs [1; 0; 0]%Z.

Definition product_response_y : vector := zs [1; -2; 3; -4; 10; 0]%Z.
Definition product_response_expanded : DataFrame :=
  mkDF 6 [("y", zs [1; -2; 3; -4; 10; 0]%Z);
          ("A", zs [1; 2; 3; 4; 5; 6]%Z);
          ("B", zs [1; -1; 1; -1; 2; 0]%Z);
          ("A*B", zs [1; -2; 3; -4; 10; 0]%Z)].




End Examples.

(** ** Further notions: the course of the search *)

Section Rounds.

Variable set_iter : list string -> list string.
Variable la_inv : matrix -> option matrix.
Variables (data : DataFrame) (y : vector) (n : nat) (y_mean SST : Q).
Variable selected : loc.

(** The best score of the round is exactly the current score. *)
Definition stalls (st : loop_state) : Prop :=
  exists scores front best cand,
    score_candidates set_iter la_inv data y n y_mean SST (st_heap st selected)
                     (remaining st) [] = ScanDone scores /\
    list_pop (sort_by_score scores) = Some (front, (best, cand)) /\
    best == current_score st.

(** Every candidate of the round is skipped. *)
Definition no_score (st : loop_state) : Prop :=
  forall c, In c (remaining st) ->
            eval_candidate set_iter la_inv data y n y_mean SST (st_heap st selected) c
            = CandSkipped.

(** The selected list and the candidate pool are kept apart: no name
    occurs twice in either, none in both, and the pool holds columns other
    than the response. *)
Definition kept_apart (response : string) (st : loop_state) : Prop :=
  NoDup (st_heap st selected) /\
  NoDup (remaining st) /\
  (forall x, In x (remaining st) -> ~ In x (st_heap st selected)) /\
  (forall x, In x (remaining st) -> In x (labels data) /\ x <> response).

End Rounds.

(** A selection is hierarchical when every interaction term in it comes
    with all its base features. *)
Definition hierarchical (sel : list string) : Prop :=
  forall s b,
    In s sel -> contains_star s = true -> In b (split_star s) -> In b sel.

(** What is assumed of the iteration order of a set: each element once,
    and no other. *)
Definition iterates_its_elements (set_iter : list string -> list string)
  : Prop :=
  forall l, NoDup l ->
            NoDup (set_iter l) /\ (forall x, In x (set_iter l) -> In x l).

Module MoreExamples.

Import Examples.

(** One candidate, negatively "adjusted": its score is -1/2. *)
Definition negative_score : DataFrame :=
  mkDF 3 [("y", zs [1; 0; 0]%Z); ("B", zs [0; 1; 0]%Z)].
Definition negative_score_y : vector := zs [1; 0; 0]%Z.

End MoreExamples.

(** ** Further notions: the expanded frame *)

(** The number of combinations of [r] out of [n]. *)
Fixpoint choose (n r : nat) : nat :=
  match r with
  | O => 1%nat
  | S r' =>
      match n with
      | O => 0%nat
      | S n' => (choose n' r' + choose n' r)%nat
      end
  end.

(** The labels of a frame after an assignment to [name]. *)
Definition add_label (ls : list string) (name : string) : list string :=
  if mem name ls then ls else ls ++ [name].

(** ** The plugin around the engine *)

Module Plugin.

(** A Python [dict] with string keys: its entries in insertion order. *)
Definition pydict (V : Type) := list (string * V).

Definition dict_keys {V : Type} (d : pydict V) : list string := map fst d.

(** [d.get(k)], and [d[k]] with [None] for [KeyError] *)
Fixpoint dict_get {V : Type} (k : string) (d : pydict V) : option V :=
  match d with
  | [] => None
  | (k', v) :: rest => if String.eqb k k' then Some v else dict_get k rest
  end.

(** [d[k] = v]: a key that is there keeps its place. *)
Fixpoint dict_set {V : Type} (d : pydict V) (k : string) (v : V) : pydict V :=
  match d with
  | [] => [(k, v)]
  | (k', w) :: rest =>
      if String.eqb k k' then (k', v) :: rest else (k', w) :: dict_set rest k v
  end.

(** [d.update(other)] *)
Definition dict_update {V : Type} (d other : pydict V) : pydict V :=
  fold_left (fun acc kv => dict_set acc (fst kv) (snd kv)) other d.

(** [theme_layout(theme, specific_layout)]; [None] is the [KeyError] of
    [theme["layout"]]. *)
Definition theme_layout {V : Type} (theme : pydict (pydict V))
    (specific_layout : pydict V) : option (pydict V) :=
  match dict_get "layout" theme with
  | None => None
  | Some theme_entries =>
      let layout := [] in
      let layout := dict_update layout theme_entries in
      let layout := dict_update layout specific_layout in
      Some layout
  end.

(** The errors the plugin's own code raises, or lets through. *)
Inductive plugin_error :=
| ValueError_not_in_response_file (col_name : string)
| ValueError_filter_type (col_type col_name : string)
| ValueError_different_runs
| ValueError_include_and_ignore
| ValueError_csv_and_ensembles
| ValueError_no_input
| KeyError_column (col : string)
| IndexError_out_of_range
| UnboundLocalError_df
| AttributeError_keys
| TypeError_sign
| LoaderError.

(** [self.ids(element)], for the plugin's [uid] printed as a string *)
Definition ids (uid element : string) : string :=
  String.append element (String.append "-id-" uid).

(** [check_response_filters]; [None] when no error is raised. *)
Fixpoint check_response_filters (columns : list string)
    (response_filters : pydict string) : option plugin_error :=
  match response_filters with
  | [] => None
  | (col_name, col_type) :: rest =>
      if negb (mem col_name columns)
      then Some (ValueError_not_in_response_file col_name)
      else if negb (mem col_type ["single"; "multi"; "range"])
           then Some (ValueError_filter_type col_type col_name)
           else check_response_filters columns rest
  end.

(** An entry of the list [make_response_filters] builds. *)
Record filter_option (V : Type) := mkOption {
  fo_name : string;
  fo_type : string;
  fo_values : V
}.
Arguments mkOption {V} _ _ _.
Arguments fo_name {V} _.
Arguments fo_type {V} _.
Arguments fo_values {V} _.

(** The loop over [enumerate(self.response_filters.items())]. *)
Fixpoint filteroptions_from {V : Type} (items : pydict string) (i : nat)
    (filters : list V) (filteroptions : list (filter_option V))
  : plugin_error + list (filter_option V) :=
  match items with
  | [] => inr filteroptions
  | (col_name, col_type) :: rest =>
      match nth_error filters i with
      | None => inl IndexError_out_of_range
      | Some values =>
          filteroptions_from rest (S i) filters
            (filteroptions ++ [mkOption col_name col_type values])
      end
  end.

Definition make_response_filters {V : Type} (response_filters : pydict string)
    (filters : list V) : plugin_error + list (filter_option V) :=
  match filters with
  | [] => inr []
  | _ :: _ => filteroptions_from response_filters 0 filters []
  end.

(** The [State]s of [model_input_callbacks]: component id and property. *)
Definition model_input_callbacks (uid : string) (response_filters : pydict string)
  : list (string * string) :=
  [ (ids uid "exclude_include", "value");
    (ids uid "parameter-list", "value");
    (ids uid "ensemble", "value");
    (ids uid "responses", "value");
    (ids uid "force-in", "value");
    (ids uid "interaction", "value");
    (ids uid "max-params", "value") ]
  ++ map (fun kv => (ids uid (String.append "filter-" (fst kv)), "value"))
         response_filters.

(** [series.unique()]: the values in the order of their first occurrence. *)
Fixpoint unique_from {A : Type} (dec : forall a b : A, {a = b} + {a <> b})
    (seen l : list A) : list A :=
  match l with
  | [] => []
  | x :: rest =>
      if in_dec dec x seen then unique_from dec seen rest
      else x :: unique_from dec (x :: seen) rest
  end.

Definition unique {A : Type} (dec : forall a b : A, {a = b} + {a <> b})
    (l : list A) : list A := unique_from dec [] l.

(** [sorted(l)] for a comparison [leb]. *)
Fixpoint insert_sorted {A : Type} (leb : A -> A -> bool) (x : A) (l : list A)
  : list A :=
  match l with
  | [] => [x]
  | y :: l' => if leb x y then x :: y :: l' else y :: insert_sorted leb x l'
  end.

Fixpoint sorted {A : Type} (leb : A -> A -> bool) (l : list A) : list A :=
  match l with
  | [] => []
  | x :: l' => insert_sorted leb x (sorted leb l')
  end.

(** The two columns [check_runs] reads in a frame; [None] when the frame
    has no such column. *)
Record run_columns := mkRuns {
  col_ENSEMBLE : option (list string);
  col_REAL : option (list Z)
}.

(** [check_runs]; [None] when no error is raised. *)
Definition check_runs (parameterdf responsedf : run_columns)
  : option plugin_error :=
  match col_ENSEMBLE parameterdf, col_ENSEMBLE responsedf with
  | Some pe, Some re =>
      if list_eq_dec string_dec (sorted String.leb (unique string_dec pe))
                                (sorted String.leb (unique string_dec re))
      then
        match col_REAL parameterdf, col_REAL responsedf with
        | Some pr, Some rr =>
            if list_eq_dec Z.eq_dec (sorted Z.leb (unique Z.eq_dec pr))
                                    (sorted Z.leb (unique Z.eq_dec rr))
            then None
            else Some ValueError_different_runs
        | _, _ => Some (KeyError_column "REAL")
        end
      else Some ValueError_different_runs
  | _, _ => Some (KeyError_column "ENSEMBLE")
  end.

(** [df.drop(columns=cols)] on the labelled columns of a frame; [None] is
    the [KeyError] of a label that is not there. *)
Definition drop_columns {V : Type} (df : pydict V) (cols : list string)
  : option (pydict V) :=
  if forallb (fun c => mem c (dict_keys df)) cols
  then Some (filter (fun kv => negb (mem (fst kv) cols)) df)
  else None.

(** [df[cols]]: the columns in the order asked for; [None] is [KeyError]. *)
Fixpoint select_columns {V : Type} (df : pydict V) (cols : list string)
  : option (pydict V) :=
  match cols with
  | [] => Some []
  | c :: rest =>
      match dict_get c df, select_columns df rest with
      | Some v, Some sel => Some ((c, v) :: sel)
      | _, _ => None
      end
  end.

(** The callback [update_force_in]: the options, as (label, value). *)
Definition update_force_in {V : Type} (parameterdf : pydict V)
    (parameter_list : list string) (exc_inc : string)
  : plugin_error + list (string * string) :=
  let options (fi_lst : list string) := map (fun fi => (fi, fi)) fi_lst in
  if String.eqb exc_inc "exc" then
    match drop_columns parameterdf (["ENSEMBLE"; "REAL"] ++ parameter_list) with
    | Some df => inr (options (dict_keys df))
    | None => inl (KeyError_column "columns")
    end
  else if String.eqb exc_inc "inc" then
    match parameter_list with
    | [] => inr (options [])
    | _ :: _ =>
        match select_columns parameterdf parameter_list with
        | Some df => inr (options (dict_keys df))
        | None => inl (KeyError_column "columns")
        end
    end
  else inl UnboundLocalError_df.

(** The parameter frame the callback [_update_visualizations] takes from
    [self.parameterdf], before the rows of the ensemble are selected. *)
Definition callback_parameterdf {V : Type} (parameterdf : pydict V)
    (parameter_list : list string) (exc_inc : string)
  : plugin_error + pydict V :=
  if String.eqb exc_inc "exc" then
    match drop_columns parameterdf parameter_list with
    | Some df => inr df
    | None => inl (KeyError_column "columns")
    end
  else if String.eqb exc_inc "inc" then
    match select_columns parameterdf (["ENSEMBLE"; "REAL"] ++ parameter_list) with
    | Some df => inr df
    | None => inl (KeyError_column "columns")
    end
  else inl UnboundLocalError_df.

(** The selector [filter_layout] builds for a filter column. *)
Inductive selector (V : Type) :=
| Select (id : string) (options value : list V) (size : nat)
| Dropdown (id : string) (options : list V) (value : V).
Arguments Select {V} _ _ _ _.
Arguments Dropdown {V} _ _ _.

Definition selector_id {V : Type} (s : selector V) : string :=
  match s with
  | Select id _ _ _ => id
  | Dropdown id _ _ => id
  end.

(** [filter_layout]: the labelled selectors, for the columns of
    [responsedf]. *)
Fixpoint filter_layout_from {V : Type} (dec : forall a b : V, {a = b} + {a <> b})
    (uid : string) (responsedf : pydict (list V)) (items : pydict string)
    (children : list (string * selector V))
  : plugin_error + list (string * selector V) :=
  match items with
  | [] => inr children
  | (col_name, col_type) :: rest =>
      let domid := ids uid (String.append "filter-" col_name) in
      match dict_get col_name responsedf with
      | None => inl (KeyError_column col_name)
      | Some column =>
          let values := unique dec column in
          if String.eqb col_type "multi" then
            filter_layout_from dec uid responsedf rest
              (children
               ++ [(col_name,
                    Select domid values values (Nat.min 20 (List.length values)))])
          else if String.eqb col_type "single" then
            match values with
            | [] => inl IndexError_out_of_range
            | first :: _ =>
                filter_layout_from dec uid responsedf rest
                  (children ++ [(col_name, Dropdown domid values first)])
            end
          else inr children
      end
  end.

Definition filter_layout {V : Type} (dec : forall a b : V, {a = b} + {a <> b})
    (uid : string) (responsedf : pydict (list V)) (response_filters : pydict string)
  : plugin_error + list (string * selector V) :=
  filter_layout_from dec uid responsedf response_filters [].

(** The [Input]s of [detect_changes_callbacks]: component id and
    property. *)
Definition detect_changes_callbacks (uid : string) (response_filters : pydict string)
  : list (string * string) :=
  [ (ids uid "exclude_include", "value");
    (ids uid "parameter-list", "value");
    (ids uid "ensemble", "value");
    (ids uid "responses", "value");
    (ids uid "force-out", "value");
    (ids uid "force-in", "value");
    (ids uid "interaction", "value");
    (ids uid "max-params", "value") ]
  ++ map (fun kv => (ids uid (String.append "filter-" (fst kv)), "value"))
         response_filters.

(** The ids of the components of [control_layout] and of [layout], in the
    order of the document, for the selectors [filter_layout] has
    returned. *)
Definition control_layout_ids {V : Type} (uid : string)
    (filter_layout : list (string * selector V)) : list string :=
  [ids uid "submit-btn"; ids uid "ensemble"; ids uid "responses"]
  ++ map (fun c => selector_id (snd c)) filter_layout
  ++ [ids uid "interaction"; ids uid "max-params"; ids uid "exclude_include";
      ids uid "parameter-list"; ids uid "force-in"].

Definition layout_ids {V : Type} (uid : string)
    (filter_layout : list (string * selector V)) : list string :=
  [ids uid "layout"; ids uid "table_title"; ids uid "table";
   ids uid "p-values-plot"; ids uid "coefficient-plot"]
  ++ control_layout_ids uid filter_layout.

(** *** Construction of the plugin *)

(** A frame as [__init__] uses it: its labels and the values of its two
    run columns, which it has when the labels name them. *)
Record table := mkTable {
  t_columns : list string;
  t_ENSEMBLE : list string;
  t_REAL : list Z
}.

Definition runs_of (t : table) : run_columns :=
  mkRuns (if mem "ENSEMBLE" (t_columns t) then Some (t_ENSEMBLE t) else None)
         (if mem "REAL" (t_columns t) then Some (t_REAL t) else None).

(** [df.drop(cols, errors="ignore", axis=1, inplace=True)] *)
Definition table_drop_ignore (t : table) (cols : list string) : table :=
  mkTable (filter (fun c => negb (mem c cols)) (t_columns t))
          (t_ENSEMBLE t) (t_REAL t).

(** [df.drop(cols, axis=1, inplace=True)]; [None] is [KeyError]. *)
Definition table_drop (t : table) (cols : list string) : option table :=
  if forallb (fun c => mem c (t_columns t)) cols
  then Some (table_drop_ignore t cols)
  else None.

(** [columns.difference(other)], as a set of labels (pandas sorts it). *)
Definition difference (columns other : list string) : list string :=
  filter (fun c => negb (mem c other)) columns.

(** The arguments of [__init__] the construction depends on; [None] is
    Python's [None]. *)
Record init_args := mkArgs {
  arg_parameter_csv : option string;
  arg_response_csv : option string;
  arg_ensembles : option (list string);
  arg_response_file : option string;
  arg_response_filters : option (pydict string);
  arg_response_ignore : option (list string);
  arg_response_include : option (list string);
  arg_parameter_ignore : option (list string)
}.

(** Truth values: a [Path] is true, a list, a dict or a string when it is
    not empty, [None] is false. *)
Definition truthy_path (o : option string) : bool :=
  match o with Some _ => true | None => false end.

Definition truthy_list {A : Type} (o : option (list A)) : bool :=
  match o with Some (_ :: _) => true | _ => false end.

Definition truthy_str (o : option string) : bool :=
  match o with Some s => negb (String.eqb s "") | None => false end.

Definition bind {E A B : Type} (m : E + A) (f : A -> E + B) : E + B :=
  match m with
  | inl e => inl e
  | inr a => f a
  end.

Definition raise_if {E : Type} (o : option E) : E + unit :=
  match o with
  | Some e => inl e
  | None => inr tt
  end.

Definition or_raise {E A : Type} (e : E) (o : option A) : E + A :=
  match o with
  | Some a => inr a
  | None => inl e
  end.

(** The plugin object after [__init__], as far as the frames go. *)
Record plugin (Theme : Type) := mkPlugin {
  self_parameterdf : table;
  self_responsedf : table;
  self_response_filters : pydict string;
  self_plotly_theme : Theme
}.
Arguments mkPlugin {Theme} _ _ _ _.
Arguments self_parameterdf {Theme} _.
Arguments self_responsedf {Theme} _.
Arguments self_response_filters {Theme} _.
Arguments self_plotly_theme {Theme} _.

Section Init.

(** What [__init__] reads and calls outside the file:
    [app.webviz_settings["shared_settings"]["scratch_ensembles"]] and
    [app.webviz_settings["theme"].plotly_theme], [None] when a lookup
    fails, and the three loaders. *)
Variable Theme : Type.
Variable scratch_ensembles : option (pydict string).
Variable plotly_theme : option Theme.
Variable read_parquet : string -> plugin_error + table.
Variable load_parameters : pydict string -> plugin_error + table.
Variable load_csv : pydict string -> string -> plugin_error + table.

(** [{ens: ...["scratch_ensembles"][ens] for ens in ensembles}] *)
Fixpoint ens_paths_from (ensembles : list string) (ens_paths : pydict string)
  : plugin_error + pydict string :=
  match ensembles with
  | [] => inr ens_paths
  | ens :: rest =>
      match scratch_ensembles with
      | None => inl (KeyError_column "scratch_ensembles")
      | Some scratch =>
          match dict_get ens scratch with
          | None => inl (KeyError_column ens)
          | Some path => ens_paths_from rest (dict_set ens_paths ens path)
          end
      end
  end.

(** The branch that loads [self.parameterdf] and [self.responsedf]. *)
Definition load_frames (args : init_args) : plugin_error + (table * table) :=
  if truthy_path (arg_parameter_csv args) && truthy_path (arg_response_csv args)
  then
    if truthy_list (arg_ensembles args) || truthy_str (arg_response_file args)
    then inl ValueError_csv_and_ensembles
    else
      match arg_parameter_csv args, arg_response_csv args with
      | Some parameter_csv, Some response_csv =>
          bind (read_parquet parameter_csv) (fun parameterdf =>
          bind (read_parquet response_csv) (fun responsedf =>
          inr (parameterdf, responsedf)))
      | _, _ => inl ValueError_no_input
      end
  else if truthy_list (arg_ensembles args) && truthy_str (arg_response_file args)
  then
    match arg_ensembles args, arg_response_file args with
    | Some ensembles, Some response_file =>
        bind (ens_paths_from ensembles []) (fun ens_paths =>
        bind (load_parameters ens_paths) (fun parameterdf =>
        bind (load_csv ens_paths response_file) (fun responsedf =>
        inr (parameterdf, responsedf))))
    | _, _ => inl ValueError_no_input
    end
  else inl ValueError_no_input.

Definition __init__ (args : init_args) : plugin_error + plugin Theme :=
  let response_filters :=
    if truthy_list (arg_response_filters args)
    then match arg_response_filters args with Some d => d | None => [] end
    else [] in
  if truthy_list (arg_response_ignore args)
     && truthy_list (arg_response_include args)
  then inl ValueError_include_and_ignore
  else
    bind (load_frames args) (fun frames =>
    let '(parameterdf, responsedf) := frames in
    bind (raise_if (check_runs (runs_of parameterdf) (runs_of responsedf))) (fun _ =>
    bind (raise_if (check_response_filters (t_columns responsedf) response_filters))
         (fun _ =>
    let responsedf :=
      match arg_response_ignore args with
      | Some (c :: cs) => table_drop_ignore responsedf (c :: cs)
      | _ => responsedf
      end in
    bind (match arg_response_include args with
          | Some (c :: cs) =>
              match arg_response_filters args with
              | None => inl AttributeError_keys
              | Some filters =>
                  inr (table_drop_ignore responsedf
                         (difference (t_columns responsedf)
                            (["REAL"; "ENSEMBLE"] ++ (c :: cs) ++ dict_keys filters)))
              end
          | _ => inr responsedf
          end) (fun responsedf =>
    bind (match arg_parameter_ignore args with
          | Some (c :: cs) =>
              or_raise (KeyError_column "columns") (table_drop parameterdf (c :: cs))
          | _ => inr parameterdf
          end) (fun parameterdf =>
    bind (or_raise (KeyError_column "theme") plotly_theme) (fun theme =>
    inr (mkPlugin parameterdf responsedf response_filters theme))))))).

End Init.

(** *** The plots *)

(** [param.replace("*", "*<br>")] *)
Fixpoint replace_star (s : string) : string :=
  match s with
  | EmptyString => EmptyString
  | String c s' =>
      if Ascii.eqb c star then String.append "*<br>" (replace_star s')
      else String c (replace_star s')
  end.

(** ["crimson" if val < 0.05 else "#606060"] *)
Definition significance_color (val : Q) : string :=
  if Qlt_bool val (1 # 20) then "crimson" else "#606060".

(** [np.sign] of a number, and of a list in which [None] may stand for a
    missing number ([None] as result is the [TypeError]). *)
Definition np_sign (c : Q) : Q :=
  if Qlt_bool c 0 then -(1) else if Qlt_bool 0 c then 1 else 0.

Fixpoint np_sign_list (coeff_vals : list (option Q)) : option (list Q) :=
  match coeff_vals with
  | [] => Some []
  | None :: _ => None
  | Some c :: rest =>
      match np_sign_list rest with
      | None => None
      | Some sgn => Some (np_sign c :: sgn)
      end
  end.

(** [np.linspace(start, stop, num)] *)
Definition linspace (start stop : Q) (num : nat) : list Q :=
  match num with
  | O => []
  | S O => [start]
  | _ =>
      let step := (stop - start) / inject_Z (Z.of_nat (num - 1)) in
      map (fun i => inject_Z (Z.of_nat i) * step + start) (seq 0 num)
  end.

(** The bar trace, a line and an arrow as the plots hand them to plotly. *)
Record bar_trace := mkBar {
  bar_x : list string;
  bar_y : list Q;
  bar_type : string;
  bar_marker_color : list string
}.

Record line_shape := mkLine {
  line_x0 : Q;
  line_y0 : Q;
  line_x1 : Q;
  line_y1 : Q;
  line_color : string;
  line_width : Q
}.

(** The path of an arrow: the points after [M] and the six [L]. *)
Record arrow_shape := mkArrow {
  arrow_path : list (Q * Q);
  arrow_line_color : string;
  arrow_fillcolor : string;
  arrow_line_width : Q
}.

Record p_values_plot (V : Type) := mkPValuesPlot {
  pp_trace : bar_trace;
  pp_layout : pydict V;
  pp_shape : line_shape;
  pp_font_size : Z
}.
Arguments mkPValuesPlot {V} _ _ _ _.
Arguments pp_trace {V} _.
Arguments pp_layout {V} _.
Arguments pp_shape {V} _.
Arguments pp_font_size {V} _.

Record arrow_plot (V : Type) := mkArrowPlot {
  ap_x : list Q;
  ap_y : list Q;
  ap_yaxis_range : Q * Q;
  ap_xaxis_range : Q * Q;
  ap_ticktext : list string;
  ap_tickvals : list Q;
  ap_annotations : list (Q * Q * string);
  ap_layout : pydict V;
  ap_font_size : Z;
  ap_arrows : list arrow_shape;
  ap_zero_line : line_shape
}.
Arguments mkArrowPlot {V} _ _ _ _ _ _ _ _ _ _ _.
Arguments ap_x {V} _.
Arguments ap_y {V} _.
Arguments ap_yaxis_range {V} _.
Arguments ap_xaxis_range {V} _.
Arguments ap_ticktext {V} _.
Arguments ap_tickvals {V} _.
Arguments ap_annotations {V} _.
Arguments ap_layout {V} _.
Arguments ap_font_size {V} _.
Arguments ap_arrows {V} _.
Arguments ap_zero_line {V} _.

Section Plots.

(** The values of a layout dictionary, with the strings and the integers
    among them. *)
Variable V : Type.
Variable of_str : string -> V.
Variable of_int : Z -> V.

(** A [Series] sorted by value is the list of its (label, value) pairs. *)
Definition make_p_values_plot (p_sorted : list (string * Q))
    (theme : pydict (pydict V)) : plugin_error + p_values_plot V :=
  let p_values := map snd p_sorted in
  let parameters := map fst p_sorted in
  let trace :=
    mkBar (map replace_star parameters) p_values "bar"
          (map significance_color p_values) in
  bind (or_raise (KeyError_column "layout")
          (theme_layout theme
             [("barmode", of_str "relative");
              ("height", of_int 500);
              ("title", of_str "P-values for the parameters. Value lower than 0.05 is statistically significant")]))
       (fun layout =>
  let shape :=
    mkLine (-(1 # 2)) (1 # 20)
           (inject_Z (Z.of_nat (List.length p_values)) - (1 # 2)) (1 # 20)
           "#303030" (3 # 2) in
  inr (mkPValuesPlot trace layout shape 12)).

(** The loop that adds the arrows. *)
Fixpoint add_arrows (x p_values : list Q) (num_arrows : nat) (i : nat)
    (sgn : list Q) : list arrow_shape :=
  match sgn with
  | [] => []
  | s :: rest =>
      let xx := if (1 <? num_arrows)%nat then nth i x 0 else nth 1 x 0 in
      mkArrow [ (xx - (25 # 1000), 0);
                (xx - (25 # 1000), s * (6 # 100));
                (xx - (7 # 100), s * (6 # 100));
                (xx, s * (8 # 100));
                (xx + (7 # 100), s * (6 # 100));
                (xx + (25 # 1000), s * (6 # 100));
                (xx + (25 # 1000), 0) ]
              "#222A2A" (significance_color (nth i p_values 0)) (6 # 10)
      :: add_arrows x p_values num_arrows (S i) rest
  end.

Definition make_arrow_plot (coeff_sorted p_sorted : list (string * Q))
    (theme : pydict (pydict V)) : plugin_error + arrow_plot V :=
  let params_to_coefs := dict_update [] coeff_sorted in
  let p_values := map snd p_sorted in
  let parameters := map fst p_sorted in
  let coeff_vals := map (fun k => dict_get k params_to_coefs) parameters in
  bind (or_raise TypeError_sign (np_sign_list coeff_vals)) (fun sgn =>
  let domain := 2 in
  let steps :=
    if (1 <? List.length parameters)%nat
    then domain / (inject_Z (Z.of_nat (List.length parameters)) - 1)
    else 0 in
  let num_arrows := List.length parameters in
  let x :=
    if (1 <? num_arrows)%nat then linspace 0 domain num_arrows
    else linspace 0 domain 3 in
  let y := map (fun _ => 0) x in
  let x_last := last x 0 in
  let tickvals :=
    if (1 <? num_arrows)%nat
    then map (fun i => steps * inject_Z (Z.of_nat i)) (seq 0 num_arrows)
    else [1] in
  let annotations :=
    [ (-(23 # 100), 0, "Small <br>p-value");
      (x_last + (23 # 100), 0, "Great <br>p-value") ] in
  bind (or_raise (KeyError_column "layout")
          (theme_layout theme
             [("barmode", of_str "relative");
              ("height", of_int 500);
              ("title", of_str "Parameters impact (increase or decrese) on response and their significance")]))
       (fun layout =>
  let arrows := add_arrows x p_values num_arrows 0 sgn in
  let zero_line := mkLine (-(1 # 10)) 0 (x_last + (1 # 10)) 0 "#222A2A" (75 # 100) in
  inr (mkArrowPlot x y (-(15 # 100), 15 # 100) (-(23 # 100), x_last + (23 # 100))
                   parameters tickvals annotations layout 12 arrows zero_line))).

End Plots.

End Plugin.

(** * Properties *)

(** ** The building blocks on small inputs *)

Example split_star_example :
  split_star "a*b**c" = ["a"; "b"; ""; "c"] /\ split_star "" = [""].
Proof. split; reflexivity. Qed.

Example join_star_example :
  join_star ["a"; "b"; "c"] = "a*b*c" /\ join_star ["a"] = "a".
Proof. split; reflexivity. Qed.

Example combinations_example :
  combinations ["a"; "b"; "c"] 2 = [["a"; "b"]; ["a"; "c"]; ["b"; "c"]].
Proof. reflexivity. Qed.

Example inv_example :
  let A := [[2; 1; 0]; [1; 3; 1]; [0; 1; 4]] in
  exists G, inv 3 A = Some G /\
            mat_mul 3 A G = [[1; 0; 0]; [0; 1; 0]; [0; 0; 1]] /\
            mat_mul 3 G A = [[1; 0; 0]; [0; 1; 0]; [0; 0; 1]].
Proof. eexists. repeat split; vm_compute; reflexivity. Qed.

Example inv_singular_example : inv 2 [[3; 3]; [3; 3]] = None.
Proof. reflexivity. Qed.

Lemma inv_None_iff (k : nat) (A : matrix) : inv k A = None <-> det k A == 0.
Proof.
  unfold inv. destruct (Qeq_bool (Qred (det k A)) 0) eqn:E.
  - apply Qeq_bool_iff in E. rewrite Qred_correct in E. tauto.
  - apply Qeq_bool_neq in E. rewrite Qred_correct in E.
    split; [discriminate | contradiction].
Qed.

Example sort_by_score_is_stable :
  sort_by_score [(1, "c"); (0, "b"); (1, "a"); (0, "d")]
  = [(0, "b"); (0, "d"); (1, "c"); (1, "a")].
Proof. reflexivity. Qed.

(** ** Lists, pops and the stable sort *)

Lemma list_pop_snoc {A : Type} (l : list A) (x : A) :
  list_pop (l ++ [x]) = Some (l, x).
Proof.
  induction l as [|a l IH]; simpl.
  - reflexivity.
  - rewrite IH. reflexivity.
Qed.

Lemma list_pop_some {A : Type} (l front : list A) (x : A) :
  list_pop l = Some (front, x) -> l = front ++ [x].
Proof.
  revert front x. induction l as [|a l IH]; simpl; intros front x H.
  - discriminate.
  - destruct (list_pop l) as [[f z]|] eqn:E.
    + inversion H; subst. rewrite (IH f x eq_refl). reflexivity.
    + inversion H; subst. destruct l as [|b l'].
      * reflexivity.
      * simpl in E. destruct (list_pop l') as [[? ?]|]; discriminate.
Qed.

Lemma list_pop_none {A : Type} (l : list A) :
  list_pop l = None -> l = [].
Proof.
  destruct l as [|a l]; simpl; intros H.
  - reflexivity.
  - destruct (list_pop l) as [[? ?]|]; discriminate.
Qed.

Lemma mem_In (x : string) (l : list string) : mem x l = true <-> In x l.
Proof.
  unfold mem. rewrite existsb_exists. split.
  - intros [z [Hz E]]. apply String.eqb_eq in E. subst. exact Hz.
  - intros H. exists x. split; [exact H | apply String.eqb_refl].
Qed.

Lemma mem_not_In (x : string) (l : list string) : mem x l = false <-> ~ In x l.
Proof.
  rewrite <- mem_In. destruct (mem x l); split; intros H; congruence.
Qed.

Lemma Qlt_bool_iff (a b : Q) : Qlt_bool a b = true <-> a < b.
Proof.
  unfold Qlt_bool. rewrite negb_true_iff. split.
  - intros H. apply Qnot_le_lt. intros Hle. apply Qle_bool_iff in Hle. congruence.
  - intros H. destruct (Qle_bool b a) eqn:E; [|reflexivity].
    apply Qle_bool_iff in E. exfalso. exact (Qlt_not_le _ _ H E).
Qed.

Lemma insert_by_score_In x l z :
  In z (insert_by_score x l) <-> z = x \/ In z l.
Proof.
  induction l as [|w l IH]; simpl.
  - intuition.
  - destruct (Qle_bool (fst x) (fst w)); simpl; [intuition|].
    rewrite IH. intuition.
Qed.

Lemma sort_by_score_In l z : In z (sort_by_score l) <-> In z l.
Proof.
  induction l as [|x l IH]; simpl.
  - reflexivity.
  - rewrite insert_by_score_In, IH. intuition.
Qed.

Lemma insert_by_score_sorted x l :
  StronglySorted score_le l -> StronglySorted score_le (insert_by_score x l).
Proof.
  induction 1 as [|w l Hs IH Hall]; simpl.
  - constructor; constructor.
  - destruct (Qle_bool (fst x) (fst w)) eqn:E.
    + apply Qle_bool_iff in E. constructor.
      * constructor; assumption.
      * constructor; [exact E|].
        rewrite Forall_forall in *. intros z Hz.
        unfold score_le in *. apply Qle_trans with (fst w); auto.
    + constructor; [exact IH|].
      rewrite Forall_forall in *. intros z Hz.
      apply insert_by_score_In in Hz. destruct Hz as [->|Hz]; [|auto].
      unfold score_le. apply Qlt_le_weak. apply Qnot_le_lt.
      intros Hle. apply Qle_bool_iff in Hle. congruence.
Qed.

Lemma sort_by_score_sorted l : StronglySorted score_le (sort_by_score l).
Proof.
  induction l as [|x l IH]; simpl.
  - constructor.
  - apply insert_by_score_sorted. exact IH.
Qed.

Lemma sorted_pop_is_max l front m :
  StronglySorted score_le l -> list_pop l = Some (front, m) ->
  forall z, In z l -> fst z <= fst m.
Proof.
  intros Hs. revert front m. induction Hs as [|w l Hs IH Hall]; simpl; intros front m Hp z Hz.
  - contradiction.
  - destruct (list_pop l) as [[f x]|] eqn:E.
    + inversion Hp; subst. destruct Hz as [<-|Hz].
      * rewrite Forall_forall in Hall. apply Hall.
        rewrite (list_pop_some _ _ _ E). apply in_or_app. right. left. reflexivity.
      * apply (IH f m eq_refl z Hz).
    + inversion Hp; subst. apply list_pop_none in E. subst.
      destruct Hz as [<-|[]]. apply Qle_refl.
Qed.

(** The new element goes last exactly when it is above all the others. *)
Lemma pop_insert_above x l :
  (forall z, In z l -> fst z < fst x) ->
  list_pop (insert_by_score x l) = Some (l, x).
Proof.
  induction l as [|w l IH]; simpl; intros H.
  - reflexivity.
  - destruct (Qle_bool (fst x) (fst w)) eqn:E.
    + apply Qle_bool_iff in E. exfalso.
      exact (Qlt_not_le _ _ (H w (or_introl eq_refl)) E).
    + simpl. rewrite IH; [reflexivity|]. intros z Hz. apply H. right. exact Hz.
Qed.

Lemma pop_insert_below x l front m :
  StronglySorted score_le l ->
  list_pop l = Some (front, m) ->
  (exists z, In z l /\ fst x <= fst z) ->
  (exists front', list_pop (insert_by_score x l) = Some (front', m)) /\
  fst x <= fst m.
Proof.
  intros Hs. revert front m.
  induction Hs as [|w l Hs IH Hall]; simpl; intros front m Hp [z [Hz Hle]].
  - contradiction.
  - destruct (Qle_bool (fst x) (fst w)) eqn:E.
    + apply Qle_bool_iff in E. split.
      * simpl. destruct (list_pop l) as [[f q]|] eqn:El.
        -- inversion Hp; subst. eexists. reflexivity.
        -- inversion Hp; subst. eexists. reflexivity.
      * apply Qle_trans with (fst w); [exact E|].
        apply (sorted_pop_is_max (w :: l) front m).
        -- constructor; assumption.
        -- simpl. exact Hp.
        -- left. reflexivity.
    + destruct Hz as [<-|Hz].
      { apply Qle_bool_iff in Hle. congruence. }
      destruct (list_pop l) as [[f q]|] eqn:El.
      * inversion Hp; subst.
        destruct (IH f m eq_refl (ex_intro _ z (conj Hz Hle))) as [[front' Hf] Hm].
        split; [|exact Hm]. simpl. rewrite Hf. eexists. reflexivity.
      * apply list_pop_none in El. subst. contradiction.
Qed.

(** The popped element of the sorted list is the last one, in the original
    order, among those with the greatest score. *)
Lemma pop_sorted_is_last_maximum l front x :
  list_pop (sort_by_score l) = Some (front, x) ->
  exists l1 l2,
    l = l1 ++ x :: l2 /\
    (forall z, In z l1 -> fst z <= fst x) /\
    (forall z, In z l2 -> fst z < fst x).
Proof.
  revert front x. induction l as [|a l IH]; simpl; intros front x Hp.
  - discriminate.
  - destruct (forallb (fun z => Qlt_bool (fst z) (fst a)) (sort_by_score l)) eqn:Ea.
    + rewrite forallb_forall in Ea.
      rewrite pop_insert_above in Hp.
      * inversion Hp; subst. exists [], l. split; [reflexivity|]. split.
        -- intros z [].
        -- intros z Hz. apply Qlt_bool_iff. apply Ea. apply sort_by_score_In. exact Hz.
      * intros z Hz. apply Qlt_bool_iff. apply Ea. exact Hz.
    + assert (Hex : exists z, In z (sort_by_score l) /\ fst a <= fst z).
      { apply not_true_iff_false in Ea.
        destruct (existsb (fun z => Qle_bool (fst a) (fst z)) (sort_by_score l)) eqn:Eb.
        - apply existsb_exists in Eb. destruct Eb as [z [Hz Hle]].
          exists z. split; [exact Hz | apply Qle_bool_iff; exact Hle].
        - exfalso. apply Ea. apply forallb_forall. intros z Hz.
          unfold Qlt_bool. apply negb_true_iff.
          destruct (Qle_bool (fst a) (fst z)) eqn:Ez; [|reflexivity].
          assert (existsb (fun z => Qle_bool (fst a) (fst z)) (sort_by_score l) = true)
            by (apply existsb_exists; exists z; split; assumption).
          congruence. }
      destruct (list_pop (sort_by_score l)) as [[f m]|] eqn:El.
      * destruct (pop_insert_below a (sort_by_score l) f m
                    (sort_by_score_sorted l) El Hex) as [[front' Hf] Hm].
        rewrite Hf in Hp. inversion Hp; subst.
        destruct (IH f x eq_refl) as [l1 [l2 [Hl [H1 H2]]]].
        exists (a :: l1), l2. split; [rewrite Hl; reflexivity|]. split.
        -- intros z [<-|Hz]; [exact Hm | apply H1; exact Hz].
        -- exact H2.
      * apply list_pop_none in El. destruct Hex as [z [Hz _]].
        rewrite El in Hz. contradiction.
Qed.

(** *** Names and sets *)

Lemma split_star_star_free s b :
  In b (split_star s) -> contains_star b = false.
Proof.
  revert b. induction s as [|c s IH]; simpl; intros b H.
  - destruct H as [<-|[]]. reflexivity.
  - destruct (Ascii.eqb c star) eqn:Ec.
    + destruct H as [<-|H]; [reflexivity | apply IH; exact H].
    + destruct (split_star s) as [|piece rest] eqn:Es.
      * destruct H as [<-|[]]. simpl. rewrite Ec. reflexivity.
      * destruct H as [<-|H].
        -- simpl. rewrite Ec. apply IH. left. reflexivity.
        -- apply IH. right. exact H.
Qed.

Lemma interaction_not_own_base s :
  contains_star s = true -> ~ In s (split_star s).
Proof.
  intros Hs Hin. apply split_star_star_free in Hin. congruence.
Qed.

Lemma h_upd_same h l v : h_upd h l v l = v.
Proof. unfold h_upd. rewrite Nat.eqb_refl. reflexivity. Qed.

Lemma h_upd_other h l v l' : l' <> l -> h_upd h l v l' = h l'.
Proof.
  intros H. unfold h_upd. apply Nat.eqb_neq in H. rewrite H. reflexivity.
Qed.

Lemma set_remove_filter b rem :
  match set_remove b rem with Some r => r | None => rem end
  = filter (fun e => negb (String.eqb b e)) rem.
Proof.
  unfold set_remove. destruct (mem b rem) eqn:E; [reflexivity|].
  symmetry. apply forallb_filter_id. apply forallb_forall. intros e He.
  apply negb_true_iff. apply String.eqb_neq. intros ->.
  apply mem_not_In in E. contradiction.
Qed.

Lemma set_remove_present b rem :
  In b rem -> set_remove b rem = Some (filter (fun e => negb (String.eqb b e)) rem).
Proof.
  intros H. unfold set_remove. apply mem_In in H. rewrite H. reflexivity.
Qed.

Lemma fresh_bases_length bases sel :
  (List.length (fresh_bases bases sel) <= List.length bases)%nat.
Proof.
  revert sel. induction bases as [|b rest IH]; simpl; intros sel.
  - apply Nat.le_refl.
  - destruct (mem b sel).
    + apply Nat.le_trans with (List.length rest); [apply IH | apply Nat.le_succ_diag_r].
    + simpl. apply le_n_S. apply IH.
Qed.

Lemma fresh_bases_In bases sel b :
  In b (fresh_bases bases sel) <-> In b bases /\ ~ In b sel.
Proof.
  revert sel. induction bases as [|a rest IH]; simpl; intros sel.
  - intuition.
  - destruct (mem a sel) eqn:E.
    + apply mem_In in E. rewrite IH. split.
      * intros [H1 H2]. auto.
      * intros [[->|H1] H2]; [contradiction | auto].
    + apply mem_not_In in E. simpl. rewrite IH. split.
      * intros [<-|[H1 H2]]; [auto|]. split; [auto|].
        intros Hb. apply H2. apply in_or_app. left. exact Hb.
      * intros [[->|H1] H2]; [auto|].
        destruct (string_dec a b) as [->|Hne]; [auto|].
        right. split; [exact H1|]. intros Hb. apply in_app_or in Hb.
        destruct Hb as [Hb|[Hb|[]]]; [contradiction | congruence].
Qed.

Lemma fresh_bases_NoDup bases sel : NoDup (fresh_bases bases sel).
Proof.
  revert sel. induction bases as [|a rest IH]; simpl; intros sel.
  - constructor.
  - destruct (mem a sel); [apply IH|].
    constructor; [|apply IH].
    intros H. apply fresh_bases_In in H. destruct H as [_ H].
    apply H. apply in_or_app. right. left. reflexivity.
Qed.

Lemma max_bases_ge pool c :
  In c pool ->
  ((if contains_star c then List.length (split_star c) else 0) <= max_bases pool)%nat.
Proof.
  unfold max_bases. induction pool as [|a pool IH]; simpl; intros H.
  - contradiction.
  - destruct H as [->|H].
    + apply Nat.le_max_l.
    + eapply Nat.le_trans; [apply IH; exact H | apply Nat.le_max_r].
Qed.



(** *** Splitting and joining *)

Lemma split_star_nonempty s : split_star s <> [].
Proof.
  destruct s as [|c s]; simpl; [discriminate|].
  destruct (Ascii.eqb c star); [discriminate|].
  destruct (split_star s); discriminate.
Qed.

Lemma contains_star_cons c x :
  contains_star (String c x) = false ->
  Ascii.eqb c star = false /\ contains_star x = false.
Proof.
  simpl. destruct (Ascii.eqb c star); [discriminate | auto].
Qed.

Lemma split_star_free x : contains_star x = false -> split_star x = [x].
Proof.
  induction x as [|c x IH]; intros H.
  - reflexivity.
  - apply contains_star_cons in H. destruct H as [Hc Hx]. simpl.
    rewrite Hc, (IH Hx). reflexivity.
Qed.

Lemma split_star_app x s :
  contains_star x = false ->
  split_star (String.append x (String star s)) = x :: split_star s.
Proof.
  induction x as [|c x IH]; intros H.
  - reflexivity.
  - apply contains_star_cons in H. destruct H as [Hc Hx]. simpl.
    rewrite Hc, (IH Hx). reflexivity.
Qed.

Lemma contains_star_app x s :
  contains_star (String.append x (String star s)) = true.
Proof.
  induction x as [|c x IH]; simpl.
  - reflexivity.
  - destruct (Ascii.eqb c star); [reflexivity | exact IH].
Qed.

Lemma split_join l :
  l <> [] ->
  Forall (fun x => contains_star x = false) l ->
  split_star (join_star l) = l.
Proof.
  induction l as [|x l IH]; intros Hne Hall.
  - congruence.
  - inversion Hall as [|? ? Hx Hl]; subst. destruct l as [|z l].
    + simpl. apply split_star_free. exact Hx.
    + change (join_star (x :: z :: l))
        with (String.append x (String star (join_star (z :: l)))).
      rewrite split_star_app by exact Hx. rewrite IH; [reflexivity | discriminate | exact Hl].
Qed.

Lemma join_contains_star l :
  (2 <= List.length l)%nat -> contains_star (join_star l) = true.
Proof.
  destruct l as [|x [|z l]]; simpl; intros H.
  - inversion H.
  - inversion H as [|? H1]. inversion H1.
  - apply contains_star_app.
Qed.

Lemma combinations_spec {A : Type} (l : list A) (r : nat) (c : list A) :
  In c (combinations l r) -> incl c l /\ List.length c = r.
Proof.
  revert r c. induction l as [|x l IH]; intros r c H.
  - destruct r; simpl in H.
    + destruct H as [<-|[]]. split; [apply incl_nil_l | reflexivity].
    + contradiction.
  - destruct r; simpl in H.
    + destruct H as [<-|[]]. split; [apply incl_nil_l | reflexivity].
    + apply in_app_or in H. destruct H as [H|H].
      * apply in_map_iff in H. destruct H as [c' [<- Hc']].
        destruct (IH _ _ Hc') as [Hi Hl]. split.
        -- intros z [<-|Hz]; [left; reflexivity | right; apply Hi; exact Hz].
        -- simpl. rewrite Hl. reflexivity.
      * destruct (IH _ _ H) as [Hi Hl]. split; [|exact Hl].
        intros z Hz. right. apply Hi. exact Hz.
Qed.

(** *** Frames *)

Lemma assoc_In name cols v : assoc name cols = Some v -> In (name, v) cols.
Proof.
  induction cols as [|[k w] cols IH]; simpl; intros H.
  - discriminate.
  - destruct (String.eqb name k) eqn:E.
    + apply String.eqb_eq in E. inversion H; subst. left. reflexivity.
    + right. apply IH. exact H.
Qed.

Lemma assoc_None name cols : assoc name cols = None <-> ~ In name (map fst cols).
Proof.
  induction cols as [|[k w] cols IH]; simpl.
  - tauto.
  - destruct (String.eqb name k) eqn:E.
    + apply String.eqb_eq in E. subst. split; [discriminate | intros H; exfalso; auto].
    + apply String.eqb_neq in E. rewrite IH. split.
      * intros H [Hk|Hin]; [congruence | contradiction].
      * intros H Hin. apply H. right. exact Hin.
Qed.

Lemma getitem_In_labels df name :
  In name (labels df) <-> exists v, getitem df name = Some v.
Proof.
  unfold getitem, labels. destruct (assoc name (columns df)) as [v|] eqn:E.
  - split; [intros _; exists v; reflexivity|]. intros _.
    apply assoc_In in E. apply in_map_iff. exists (name, v). auto.
  - split; [|intros [v Hv]; discriminate].
    intros H. apply assoc_None in E. contradiction.
Qed.

Lemma set_col_labels cols name v :
  map fst (set_col cols name v)
  = if mem name (map fst cols) then map fst cols else map fst cols ++ [name].
Proof.
  induction cols as [|[k w] cols IH]; simpl.
  - reflexivity.
  - rewrite (String.eqb_sym name k) at 2.
    destruct (String.eqb name k) eqn:E; simpl.
    + rewrite String.eqb_sym, E. reflexivity.
    + rewrite IH. rewrite String.eqb_sym, E. simpl.
      destruct (mem name (map fst cols)); reflexivity.
Qed.



Lemma assoc_set_col_same cols name v : assoc name (set_col cols name v) = Some v.
Proof.
  induction cols as [|[k w] cols IH]; simpl.
  - rewrite String.eqb_refl. reflexivity.
  - destruct (String.eqb name k) eqn:E; simpl; rewrite E; [reflexivity | exact IH].
Qed.

Lemma assoc_set_col_other cols name v c :
  c <> name -> assoc c (set_col cols name v) = assoc c cols.
Proof.
  intros Hne. induction cols as [|[k w] cols IH]; simpl.
  - apply String.eqb_neq in Hne. rewrite Hne. reflexivity.
  - destruct (String.eqb name k) eqn:E; simpl.
    + apply String.eqb_eq in E. subst k. apply String.eqb_neq in Hne.
      rewrite Hne. reflexivity.
    + rewrite IH. reflexivity.
Qed.

Lemma getitem_setitem_same df name v : getitem (setitem df name v) name = Some v.
Proof. apply assoc_set_col_same. Qed.

Lemma getitem_setitem_other df name v c :
  c <> name -> getitem (setitem df name v) c = getitem df c.
Proof. apply assoc_set_col_other. Qed.




Lemma drop_labels df name d :
  drop df name = Some d ->
  labels d = filter (fun c => negb (String.eqb name c)) (labels df) /\
  index_len d = index_len df.
Proof.
  unfold drop. destruct (mem name (labels df)); [|discriminate].
  intros H. inversion H; subst. clear H. unfold labels. simpl.
  split; [|reflexivity].
  induction (columns df) as [|[k w] cols IH]; simpl; [reflexivity|].
  destruct (String.eqb name k); simpl; [exact IH | rewrite IH; reflexivity].
Qed.

Lemma drop_present df name :
  In name (labels df) -> exists d, drop df name = Some d.
Proof.
  intros H. unfold drop. apply mem_In in H. rewrite H. eexists. reflexivity.
Qed.

(** *** Matrices and sums *)










Section Selection.

Variable set_iter : list string -> list string.
Variable Model : Type.
Variable OLS_fit : list Q -> DataFrame -> fit_run Model.
Variable la_inv : matrix -> option matrix.

Variables (data : DataFrame) (y : vector) (n : nat) (y_mean SST : Q).
Variables (selected : loc) (maxvars : Z).

Local Abbreviation eval := (eval_candidate set_iter la_inv data y n y_mean SST).
Local Abbreviation scan := (score_candidates set_iter la_inv data y n y_mean SST).
Local Abbreviation round1 :=
  (round set_iter Model OLS_fit la_inv data y n y_mean SST selected).
Local Abbreviation loop :=
  (fun fuel => forward_loop set_iter Model OLS_fit la_inv fuel data y n y_mean SST
                            selected maxvars).
Local Abbreviation entry := (scored set_iter la_inv data y n y_mean SST).
Local Abbreviation finish sel :=
  (_model_warnings Model OLS_fit (final_design data sel y)).

(** *** The scan of a round *)

Lemma scan_done sel cands acc scores :
  scan sel cands acc = ScanDone scores ->
  scores = acc ++ flat_map (entry sel) cands /\
  Forall (fun c => eval sel c = CandSkipped \/ exists r, eval sel c = CandScored r)
         cands.
Proof.
  revert acc scores. induction cands as [|c rest IH]; simpl; intros acc scores H.
  - inversion H; subst. rewrite app_nil_r. split; [reflexivity | constructor].
  - unfold scored at 1.
    destruct (eval sel c) as [| | |r] eqn:E; try discriminate.
    + destruct (IH _ _ H) as [Hs HF]. split; [exact Hs|].
      constructor; [left; exact E | exact HF].
    + destruct (scan sel rest acc); discriminate.
    + destruct (IH _ _ H) as [Hs HF]. rewrite <- app_assoc in Hs.
      split; [exact Hs|].
      constructor; [right; exists r; exact E | exact HF].
Qed.

Lemma scan_all_skipped sel cands acc :
  (forall c, In c cands -> eval sel c = CandSkipped) ->
  scan sel cands acc = ScanDone acc.
Proof.
  revert acc. induction cands as [|c rest IH]; simpl; intros acc H.
  - reflexivity.
  - rewrite (H c (or_introl eq_refl)). apply IH. intros c' Hc'. apply H. right. exact Hc'.
Qed.

Lemma scan_halts sel cands acc :
  (exists c, In c cands /\ eval sel c = CandHalt) ->
  scan sel cands acc = ScanHalt.
Proof.
  revert acc. induction cands as [|c rest IH]; simpl; intros acc [c0 [Hin Hhalt]].
  - contradiction.
  - destruct (eval sel c) as [| | |r] eqn:E.
    + apply IH. destruct Hin as [->|Hin]; [congruence | exists c0; split; assumption].
    + reflexivity.
    + rewrite IH; [reflexivity|].
      destruct Hin as [->|Hin]; [congruence | exists c0; split; assumption].
    + apply IH. destruct Hin as [->|Hin]; [congruence | exists c0; split; assumption].
Qed.

Lemma flat_map_entry_split sel cands l1 l2 s c :
  flat_map (entry sel) cands = l1 ++ (s, c) :: l2 ->
  exists before after,
    cands = before ++ c :: after /\
    flat_map (entry sel) before = l1 /\
    eval sel c = CandScored s /\
    flat_map (entry sel) after = l2.
Proof.
  revert l1. induction cands as [|c0 rest IH]; simpl; intros l1 H.
  - destruct l1; discriminate.
  - unfold scored in H at 1. destruct (eval sel c0) as [| | |r] eqn:E; simpl in H.
    1-3: destruct (IH l1 H) as [before [after [Hc [Hb [He Ha]]]]];
         exists (c0 :: before), after; subst rest; simpl;
         unfold scored at 1; rewrite E; simpl; auto.
    destruct l1 as [|z l1]; simpl in H.
    + inversion H; subst. exists [], rest. simpl. auto.
    + inversion H; subst.
      destruct (IH l1 H2) as [before [after [Hc [Hb [He Ha]]]]].
      exists (c0 :: before), after. subst rest. simpl.
      unfold scored at 1. rewrite E. simpl. rewrite Hb. auto.
Qed.

Lemma entry_In sel cands s c :
  In c cands -> eval sel c = CandScored s ->
  In (s, c) (flat_map (entry sel) cands).
Proof.
  intros Hin He. apply in_flat_map. exists c. split; [exact Hin|].
  unfold scored. rewrite He. left. reflexivity.
Qed.

Lemma winner_position :
  forall (sel cands : list string) scores front best best_candidate,
    scan sel cands [] = ScanDone scores ->
    list_pop (sort_by_score scores) = Some (front, (best, best_candidate)) ->
    exists before after,
      cands = before ++ best_candidate :: after /\
      eval sel best_candidate = CandScored best /\
      (forall c s, In c before -> eval sel c = CandScored s -> s <= best) /\
      (forall c s, In c after -> eval sel c = CandScored s -> s < best).
Proof.
  intros sel cands scores front best bc Hs Hp.
  destruct (scan_done _ _ _ _ Hs) as [Hscores _]. simpl in Hscores.
  destruct (pop_sorted_is_last_maximum _ _ _ Hp) as [l1 [l2 [Hl [H1 H2]]]].
  rewrite Hscores in Hl.
  destruct (flat_map_entry_split _ _ _ _ _ _ Hl) as [before [after [Hc [Hb [He Ha]]]]].
  exists before, after. repeat split; auto.
  - intros c s Hin Hev. apply (H1 (s, c)). rewrite <- Hb.
    apply entry_In; assumption.
  - intros c s Hin Hev. apply (H2 (s, c)). rewrite <- Ha.
    apply entry_In; assumption.
Qed.


(** *** Divergence *)

Lemma fixed_round_never_returns st :
  loop_condition selected maxvars st = true ->
  round1 st = RoundNext st ->
  forall fuel, loop fuel st = None.
Proof.
  intros Hc Hr fuel. induction fuel as [|fuel IH]; simpl.
  - reflexivity.
  - rewrite Hc, Hr. exact IH.
Qed.

Lemma step_then_never_returns st st' :
  loop_condition selected maxvars st = true ->
  round1 st = RoundNext st' ->
  (forall fuel, loop fuel st' = None) ->
  forall fuel, loop fuel st = None.
Proof.
  intros Hc Hr Hd fuel. destruct fuel as [|fuel]; simpl.
  - reflexivity.
  - rewrite Hc, Hr. apply Hd.
Qed.

(** C1 (the code departs from the specification here).  In a
    round of the loop in which every remaining candidate is skipped because
    its normal-equation matrix is singular, no score is recorded, the pop
    from the empty score list raises [IndexError], and the exception leaves
    [forward_selected]: the search does not end with the selected set
    handed to the final fit, and no failure value is returned. *)
Theorem C1_all_singular_round_raises_IndexError :
  forall (st : loop_state) (fuel : nat),
    loop_condition selected maxvars st = true ->
    (forall c, In c (remaining st) ->
               eval (st_heap st selected) c = CandSkipped) ->
    loop (S fuel) st = Some (Raised IndexError, st_heap st).
Proof.
  intros st fuel Hc Hall. simpl. rewrite Hc. unfold round.
  rewrite (scan_all_skipped _ _ _ Hall). simpl. reflexivity.
Qed.

(** *** The degrees-of-freedom exit *)

Lemma eval_candidate_cases sel c :
  let cm := current_model_of set_iter sel c in
  let p := n_predictors data cm in
  match la_inv (normal_matrix data cm) with
  | None => eval sel c = CandSkipped
  | Some _ =>
      if (Z.of_nat n - Z.of_nat p - 1 <? 1)%Z then eval sel c = CandHalt
      else if Qeq_bool SST 0 then eval sel c = CandNonFinite
           else exists r, eval sel c = CandScored r
  end.
Proof.
  unfold eval_candidate, normal_matrix, n_predictors, design_matrix. simpl.
  destruct (la_inv _); [|reflexivity].
  destruct (_ <? 1)%Z; [reflexivity|].
  destruct (Qeq_bool SST 0); [reflexivity|].
  eexists. reflexivity.
Qed.

Lemma eval_halt_iff sel c :
  eval sel c = CandHalt <->
  la_inv (normal_matrix data (current_model_of set_iter sel c)) <> None /\
  (Z.of_nat n - Z.of_nat (n_predictors data (current_model_of set_iter sel c)) - 1
   < 1)%Z.
Proof.
  pose proof (eval_candidate_cases sel c) as H. simpl in H.
  destruct (la_inv _) as [G|].
  - destruct (Z.ltb_spec
                (Z.of_nat n
                 - Z.of_nat (n_predictors data (current_model_of set_iter sel c)) - 1)
                1) as [Hlt|Hge].
    + split; [intros _; split; [discriminate | exact Hlt] | intros _; exact H].
    + split.
      * intros E. destruct (Qeq_bool SST 0).
        -- congruence.
        -- destruct H as [r Hr]. congruence.
      * intros [_ Hlt]. exfalso. apply (Z.lt_irrefl 1). 
        eapply Z.le_lt_trans; eassumption.
  - split; [congruence | intros [Hn _]; exfalso; apply Hn; reflexivity].
Qed.

Lemma eval_singular_skipped sel c :
  la_inv (normal_matrix data (current_model_of set_iter sel c)) = None ->
  eval sel c = CandSkipped.
Proof.
  intros E. pose proof (eval_candidate_cases sel c) as H. simpl in H.
  rewrite E in H. exact H.
Qed.

Lemma eval_finite sel c : ~ SST == 0 -> eval sel c <> CandNonFinite.
Proof.
  intros Hsst. pose proof (eval_candidate_cases sel c) as H. simpl in H.
  destruct (la_inv _); [|congruence].
  destruct (_ <? 1)%Z; [congruence|].
  destruct (Qeq_bool SST 0) eqn:E.
  - apply Qeq_bool_iff in E. contradiction.
  - destruct H as [r Hr]. congruence.
Qed.

Lemma scan_halt_has_a_cause sel cands acc :
  scan sel cands acc = ScanHalt ->
  exists c, In c cands /\ eval sel c = CandHalt.
Proof.
  revert acc. induction cands as [|c rest IH]; simpl; intros acc H.
  - discriminate.
  - destruct (eval sel c) as [| | |r] eqn:E.
    + destruct (IH _ H) as [c0 [Hin Hc0]]. exists c0. auto.
    + exists c. auto.
    + destruct (scan sel rest acc) eqn:Es; try discriminate.
      destruct (IH _ Es) as [c0 [Hin Hc0]]. exists c0. auto.
    + destruct (IH _ H) as [c0 [Hin Hc0]]. exists c0. auto.
Qed.

(** C4 (amended).  The degrees of freedom of a candidate are examined only
    after [la.inv] has returned for it.  If [la.inv] returns for some
    candidate of the round that would leave fewer than one residual degree
    of freedom, the search ends in that round, whatever the other
    candidates are, and the result is the fit on the predictors selected
    before the round.  A candidate for which [la.inv] raises [LinAlgError]
    is skipped, however few degrees of freedom it would leave: when
    [la.inv] raises for every candidate of the round with [n - p - 1 < 1],
    each of them is skipped and no candidate of the round takes the
    exit. *)
Theorem C4_dof_guard_follows_the_inversion :
  forall (st : loop_state) (fuel : nat),
    loop_condition selected maxvars st = true ->
    ((exists candidate,
         In candidate (remaining st) /\
         la_inv (normal_matrix data
                   (current_model_of set_iter (st_heap st selected) candidate))
         <> None /\
         (Z.of_nat n
          - Z.of_nat (n_predictors data
                        (current_model_of set_iter (st_heap st selected) candidate))
          - 1 < 1)%Z) ->
     loop (S fuel) st = Some (finish (st_heap st selected), st_heap st)) /\
    ((forall candidate,
         In candidate (remaining st) ->
         (Z.of_nat n
          - Z.of_nat (n_predictors data
                        (current_model_of set_iter (st_heap st selected) candidate))
          - 1 < 1)%Z ->
         la_inv (normal_matrix data
                   (current_model_of set_iter (st_heap st selected) candidate))
         = None) ->
     (forall candidate,
         In candidate (remaining st) ->
         (Z.of_nat n
          - Z.of_nat (n_predictors data
                        (current_model_of set_iter (st_heap st selected) candidate))
          - 1 < 1)%Z ->
         eval (st_heap st selected) candidate = CandSkipped) /\
     (forall candidate,
         In candidate (remaining st) ->
         eval (st_heap st selected) candidate <> CandHalt) /\
     scan (st_heap st selected) (remaining st) [] <> ScanHalt).
Proof.
  intros st fuel Hc. split.
  - intros [c [Hin [Hinv Hdof]]]. simpl. rewrite Hc.
    unfold round. rewrite scan_halts.
    + reflexivity.
    + exists c. split; [exact Hin|]. apply eval_halt_iff. split; assumption.
  - intros Hraise.
    assert (Hno : forall candidate,
               In candidate (remaining st) ->
               eval (st_heap st selected) candidate <> CandHalt).
    { intros c Hin E. apply eval_halt_iff in E. destruct E as [Hinv Hdof].
      apply Hinv. apply Hraise; assumption. }
    split; [|split].
    + intros c Hin Hdof. apply eval_singular_skipped. apply Hraise; assumption.
    + exact Hno.
    + intros E. apply scan_halt_has_a_cause in E.
      destruct E as [c [Hin Hc0]]. apply (Hno c Hin Hc0).
Qed.

(** *** The commit *)

Lemma commit_bases_spec bases h rem h' rem' :
  commit_bases bases h selected rem = (h', rem') ->
  h' selected = h selected ++ fresh_bases bases (h selected) /\
  (forall l, l <> selected -> h' l = h l) /\
  rem' = filter (fun x => negb (mem x bases)) rem.
Proof.
  revert h rem. induction bases as [|b rest IH]; simpl; intros h rem H.
  - inversion H; subst. rewrite app_nil_r. repeat split.
    symmetry. apply filter_true.
  - rewrite set_remove_filter in H. destruct (mem b (h selected)) eqn:E.
    + destruct (IH _ _ H) as [Hs [Hf Hr]]. repeat split; auto.
      rewrite Hr. clear. induction rem as [|x rem IHr]; simpl; [reflexivity|].
      rewrite (String.eqb_sym x b).
      destruct (String.eqb b x); simpl; [exact IHr|].
      destruct (mem x rest); simpl; [exact IHr | rewrite IHr; reflexivity].
    + destruct (IH _ _ H) as [Hs [Hf Hr]]. unfold list_append in *.
      rewrite h_upd_same in Hs. repeat split.
      * rewrite Hs. rewrite <- app_assoc. reflexivity.
      * intros l Hl. rewrite (Hf l Hl). apply h_upd_other. exact Hl.
      * rewrite Hr. clear. induction rem as [|x rem IHr]; simpl; [reflexivity|].
        rewrite (String.eqb_sym x b).
        destruct (String.eqb b x); simpl; [exact IHr|].
        destruct (mem x rest); simpl; [exact IHr | rewrite IHr; reflexivity].
Qed.

Lemma round_accept st scores front best bc :
  scan (st_heap st selected) (remaining st) [] = ScanDone scores ->
  list_pop (sort_by_score scores) = Some (front, (best, bc)) ->
  Qlt_bool (current_score st) best = true ->
  exists h',
    round1 st
    = RoundNext
        (mkState h'
           (filter (fun x => negb (String.eqb bc x))
              (if contains_star bc
               then filter (fun x => negb (mem x (split_star bc))) (remaining st)
               else remaining st))
           best best) /\
    h' selected
    = st_heap st selected
      ++ (if contains_star bc
          then fresh_bases (split_star bc) (st_heap st selected) else [])
      ++ [bc] /\
    (forall l, l <> selected -> h' l = st_heap st l).
Proof.
  intros Hs Hp Hlt.
  destruct (winner_position _ _ _ _ _ _ Hs Hp) as [before [after [Hrem _]]].
  assert (Hin : In bc (remaining st)).
  { rewrite Hrem. apply in_or_app. right. left. reflexivity. }
  unfold round. rewrite Hs, Hp, Hlt.
  destruct (contains_star bc) eqn:Ecs.
  - destruct (commit_bases (split_star bc) (st_heap st) selected (remaining st))
      as [h1 rem1] eqn:Ecb.
    destruct (commit_bases_spec _ _ _ _ _ Ecb) as [Hh [Hf Hr]].
    rewrite set_remove_present.
    + exists (list_append h1 selected bc). subst rem1. split; [reflexivity|].
      unfold list_append. rewrite h_upd_same. split.
      * rewrite Hh. rewrite <- app_assoc. reflexivity.
      * intros l Hl. rewrite h_upd_other by exact Hl. apply Hf. exact Hl.
    + subst rem1. apply filter_In. split; [exact Hin|].
      apply negb_true_iff. apply mem_not_In.
      apply interaction_not_own_base. exact Ecs.
  - rewrite set_remove_present by exact Hin.
    exists (list_append (st_heap st) selected bc). split; [reflexivity|].
    unfold list_append. rewrite h_upd_same. split; [reflexivity|].
    intros l Hl. apply h_upd_other. exact Hl.
Qed.

(** *** A round that does not improve *)

Lemma round_reads_three_fields h rem cur b b' :
  round1 (mkState h rem cur b) = round1 (mkState h rem cur b').
Proof. reflexivity. Qed.

Lemma round_without_improvement st scores front best cand :
  scan (st_heap st selected) (remaining st) [] = ScanDone scores ->
  list_pop (sort_by_score scores) = Some (front, (best, cand)) ->
  Qlt_bool (current_score st) best = false ->
  round1 st = RoundNext (mkState (st_heap st) (remaining st) (current_score st) best).
Proof.
  intros Hs Hp Hlt. unfold round. rewrite Hs, Hp, Hlt. reflexivity.
Qed.

Lemma Qlt_bool_false_of_eq a b : b == a -> Qlt_bool a b = false.
Proof.
  intros H. unfold Qlt_bool. apply negb_false_iff. apply Qle_bool_iff.
  rewrite H. apply Qle_refl.
Qed.

(** C3 (the code departs from the specification here).  When the best
    score of a round is exactly equal to the current score, nothing is
    committed, yet the loop condition [current_score == best_new_score]
    still holds and neither [remaining] nor [selected] has changed: the next
    round is the same round again, and the loop never returns, whatever the
    amount of fuel. *)
Theorem C3_equal_best_score_never_halts :
  forall (st : loop_state) scores front best cand,
    loop_condition selected maxvars st = true ->
    scan (st_heap st selected) (remaining st) [] = ScanDone scores ->
    list_pop (sort_by_score scores) = Some (front, (best, cand)) ->
    best == current_score st ->
    forall fuel, loop fuel st = None.
Proof.
  intros st scores front best cand Hc Hs Hp Heq.
  pose proof (Qlt_bool_false_of_eq _ _ Heq) as Hlt.
  pose proof (round_without_improvement st scores front best cand Hs Hp Hlt) as Hr.
  apply (step_then_never_returns st _ Hc Hr).
  apply fixed_round_never_returns.
  - unfold loop_condition in *. simpl.
    apply andb_true_iff in Hc. destruct Hc as [Hc Hlen].
    apply andb_true_iff in Hc. destruct Hc as [Hrem _].
    rewrite Hrem, Hlen. simpl. rewrite andb_true_r.
    apply Qeq_eq_bool. symmetry. exact Heq.
  - destruct st as [h rem cur b]. simpl in *.
    rewrite (round_reads_three_fields h rem cur best b). exact Hr.
Qed.

(** Accepted rounds raise the current score strictly; a round that does not
    accept leaves it as it was. *)
Lemma round_score_monotone st st' :
  round1 st = RoundNext st' ->
  current_score st < current_score st' \/
  (current_score st' = current_score st /\ st_heap st' = st_heap st /\
   remaining st' = remaining st).
Proof.
  unfold round. intros H.
  destruct (scan (st_heap st selected) (remaining st) []) as [scores| |];
    try discriminate.
  destruct (list_pop (sort_by_score scores)) as [[front [best cand]]|];
    try discriminate.
  destruct (Qlt_bool (current_score st) best) eqn:Hlt.
  - left.
    destruct (if contains_star cand
              then commit_bases (split_star cand) (st_heap st) selected (remaining st)
              else (st_heap st, remaining st)) as [h1 rem1].
    destruct (set_remove cand rem1); try discriminate.
    inversion H; subst. simpl.
    unfold Qlt_bool in Hlt. apply negb_true_iff in Hlt.
    apply Qnot_le_lt. intros Hle. apply Qle_bool_iff in Hle. congruence.
  - right. inversion H; subst. simpl. auto.
Qed.

(** C7.  When the best candidate of a round improves the current score and
    is an interaction term, the commit appends to [selected] first the base
    features that are not selected yet, then the interaction term itself; a
    base feature that was in [remaining] has left it and stands in
    [selected] before the interaction term; the interaction term has left
    [remaining]; nothing else leaves [remaining]; both scores become the
    best score.  When the best candidate does not improve the current
    score, [selected], [remaining] and the current score stay as they
    were. *)
Theorem C7_commit_of_the_best_candidate :
  forall (st : loop_state) scores front best best_candidate,
    scan (st_heap st selected) (remaining st) [] = ScanDone scores ->
    list_pop (sort_by_score scores) = Some (front, (best, best_candidate)) ->
    (Qlt_bool (current_score st) best = true ->
     contains_star best_candidate = true ->
     exists st' pulled,
       round1 st = RoundNext st' /\
       pulled = fresh_bases (split_star best_candidate) (st_heap st selected) /\
       st_heap st' selected = (st_heap st selected ++ pulled) ++ [best_candidate] /\
       (forall b, In b (split_star best_candidate) -> In b (remaining st) ->
                  In b (st_heap st selected ++ pulled) /\ ~ In b (remaining st')) /\
       (forall x, In x (remaining st') <->
                  In x (remaining st) /\ x <> best_candidate /\
                  ~ In x (split_star best_candidate)) /\
       current_score st' = best /\
       best_new_score st' = best /\
       (forall l, l <> selected -> st_heap st' l = st_heap st l)) /\
    (Qlt_bool (current_score st) best = false ->
     exists st',
       round1 st = RoundNext st' /\
       st_heap st' = st_heap st /\
       remaining st' = remaining st /\
       current_score st' = current_score st).
Proof.
  intros st scores front best bc Hs Hp. split.
  - intros Hlt Hstar.
    destruct (round_accept st scores front best bc Hs Hp Hlt) as [h' [Hr [Hh Hf]]].
    rewrite Hstar in Hr, Hh.
    eexists. exists (fresh_bases (split_star bc) (st_heap st selected)).
    split; [exact Hr|]. simpl. split; [reflexivity|].
    assert (Hmem : forall x,
              In x (filter (fun x => negb (String.eqb bc x))
                      (filter (fun x => negb (mem x (split_star bc))) (remaining st)))
              <-> In x (remaining st) /\ x <> bc /\ ~ In x (split_star bc)).
    { intros x. rewrite !filter_In, !negb_true_iff, String.eqb_neq, mem_not_In.
      split.
      - intros [[H1 H2] H3]. repeat split; auto.
      - intros [H1 [H2 H3]]. repeat split; auto. }
    split; [rewrite Hh; rewrite app_assoc; reflexivity|].
    split.
    { intros b Hb Hrem. split.
      - destruct (in_dec string_dec b (st_heap st selected)) as [Hsel|Hsel].
        + apply in_or_app. left. exact Hsel.
        + apply in_or_app. right. apply fresh_bases_In. split; assumption.
      - intros Hin. apply Hmem in Hin. destruct Hin as [_ [_ Hn]]. contradiction. }
    split; [exact Hmem|]. repeat split. exact Hf.
  - intros Hlt. eexists. split.
    + apply (round_without_improvement st scores front best bc Hs Hp Hlt).
    + simpl. repeat split.
Qed.

(** *** What a round does to the list object and to the pool *)

Lemma grows_by_refl bound l : grows_by bound l l.
Proof. exists []. rewrite app_nil_r. split; [reflexivity | apply Nat.le_0_l]. Qed.

Lemma round_effect st :
  match round1 st with
  | RoundNext st' =>
      grows_by (max_bases (remaining st) + 1)
               (st_heap st selected) (st_heap st' selected) /\
      (forall l, l <> selected -> st_heap st' l = st_heap st l) /\
      incl (remaining st') (remaining st)
  | RoundReturn _ h =>
      h selected = st_heap st selected /\
      (forall l, l <> selected -> h l = st_heap st l)
  end.
Proof.
  destruct (scan (st_heap st selected) (remaining st) []) as [scores| |] eqn:Hs.
  2,3: unfold round; rewrite Hs; auto.
  destruct (list_pop (sort_by_score scores)) as [[front [best bc]]|] eqn:Hp.
  2: unfold round; rewrite Hs, Hp; auto.
  destruct (Qlt_bool (current_score st) best) eqn:Hlt.
  - destruct (round_accept st scores front best bc Hs Hp Hlt) as [h' [Hr [Hh Hf]]].
    rewrite Hr. simpl. split; [|split; [exact Hf|]].
    + eexists. split; [exact Hh|]. rewrite length_app. simpl.
      apply Nat.add_le_mono_r.
      destruct (winner_position _ _ _ _ _ _ Hs Hp) as [before [after [Hrem _]]].
      assert (Hin : In bc (remaining st)).
      { rewrite Hrem. apply in_or_app. right. left. reflexivity. }
      pose proof (max_bases_ge _ _ Hin) as Hm.
      destruct (contains_star bc).
      * eapply Nat.le_trans; [apply fresh_bases_length | exact Hm].
      * apply Nat.le_0_l.
    + intros x Hx. apply filter_In in Hx. destruct Hx as [Hx _].
      destruct (contains_star bc); [apply filter_In in Hx; tauto | exact Hx].
  - rewrite (round_without_improvement st scores front best bc Hs Hp Hlt). simpl.
    split; [apply grows_by_refl|]. split; [auto | apply incl_refl].
Qed.

Lemma loop_extends_selected fuel st o h' :
  loop fuel st = Some (o, h') ->
  (exists accepted, h' selected = st_heap st selected ++ accepted) /\
  (forall l, l <> selected -> h' l = st_heap st l).
Proof.
  revert st. induction fuel as [|fuel IH]; simpl; intros st H.
  - discriminate.
  - destruct (loop_condition selected maxvars st).
    + pose proof (round_effect st) as He.
      destruct (round1 st) as [st'|o' h1].
      * destruct He as [[suffix [Hg _]] [Hf _]].
        destruct (IH st' H) as [[acc Hacc] Hfr]. split.
        -- exists (suffix ++ acc). rewrite Hacc, Hg, app_assoc. reflexivity.
        -- intros l Hl. rewrite (Hfr l Hl). apply Hf. exact Hl.
      * inversion H; subst. destruct He as [Hh Hf]. split; [|exact Hf].
        exists []. rewrite app_nil_r. exact Hh.
    + inversion H; subst. split; [|auto].
      exists []. rewrite app_nil_r. reflexivity.
Qed.

Lemma reaches_on_the_way st0 st fuel o h' :
  reaches set_iter Model OLS_fit la_inv data y n y_mean SST selected maxvars st0 st ->
  loop fuel st0 = Some (o, h') ->
  exists fuel', loop fuel' st = Some (o, h').
Proof.
  intros Hr Hl. induction Hr as [|st st' Hr IH Hc Hround].
  - exists fuel. exact Hl.
  - destruct IH as [fuel' Hf]. destruct fuel' as [|fuel']; simpl in Hf.
    + discriminate.
    + rewrite Hc, Hround in Hf. exists fuel'. exact Hf.
Qed.

Lemma accepted_is_in_final_list st0 st c fuel o h' :
  reaches set_iter Model OLS_fit la_inv data y n y_mean SST selected maxvars st0 st ->
  loop_condition selected maxvars st = true ->
  accepts set_iter la_inv data y n y_mean SST selected st c ->
  loop fuel st0 = Some (o, h') ->
  In c (h' selected).
Proof.
  intros Hr Hc [scores [front [best [Hs [Hp Hlt]]]]] Hl.
  destruct (reaches_on_the_way _ _ _ _ _ Hr Hl) as [fuel' Hf].
  destruct fuel' as [|fuel']; simpl in Hf; [discriminate|].
  rewrite Hc in Hf.
  destruct (round_accept st scores front best c Hs Hp Hlt) as [h1 [Hround [Hh _]]].
  rewrite Hround in Hf.
  destruct (loop_extends_selected _ _ _ _ Hf) as [[acc Hacc] _].
  rewrite Hacc. simpl. rewrite Hh. apply in_or_app. left.
  apply in_or_app. right. apply in_or_app. right. left. reflexivity.
Qed.

(** *** The final fit *)

(** C8.  Whatever design matrix reaches [_model_warnings]: if the fit issues
    a [RuntimeWarning], or raises an exception of a class below [Exception],
    the result is the failure value [None]; a model is returned only when
    the fit issued no [RuntimeWarning] and itself returned that model; and
    nothing below [Exception] escapes to the caller. *)
Theorem C8_model_warnings_failure_value :
  forall design : DataFrame,
    (forall endog exog,
        getitem design "response" = Some endog ->
        drop design "response" = Some exog ->
        In RuntimeWarning (issued (OLS_fit endog exog)) \/
        (exists e, ending (OLS_fit endog exog) = inl e /\ is_Exception e = true) ->
        _model_warnings Model OLS_fit design = Returned None) /\
    (forall m,
        _model_warnings Model OLS_fit design = Returned (Some m) ->
        exists endog exog,
          getitem design "response" = Some endog /\
          drop design "response" = Some exog /\
          ~ In RuntimeWarning (issued (OLS_fit endog exog)) /\
          ending (OLS_fit endog exog) = inr m) /\
    (forall e,
        _model_warnings Model OLS_fit design = Raised e ->
        is_Exception e = false) /\
    _model_warnings Model OLS_fit design <> NonFinite.
Proof.
  intros design.
  assert (Hrw : forall ws, existsb is_RuntimeWarning ws = true <-> In RuntimeWarning ws).
  { intros ws. rewrite existsb_exists. split.
    - intros [w [Hin Hw]]. destruct w; try discriminate. exact Hin.
    - intros Hin. exists RuntimeWarning. split; [exact Hin | reflexivity]. }
  split; [|split; [|split]].
  - intros endog exog He Hd Hor. unfold _model_warnings, under_filters.
    rewrite He, Hd. destruct Hor as [Hin | [e [Hend Hex]]].
    + apply Hrw in Hin. rewrite Hin. reflexivity.
    + destruct (existsb is_RuntimeWarning (issued (OLS_fit endog exog)));
        [reflexivity|].
      rewrite Hend, Hex. reflexivity.
  - intros m H. unfold _model_warnings, under_filters in H.
    destruct (getitem design "response") as [endog|]; [|discriminate].
    destruct (drop design "response") as [exog|]; [|discriminate].
    destruct (existsb is_RuntimeWarning (issued (OLS_fit endog exog))) eqn:Ew;
      [discriminate|].
    destruct (ending (OLS_fit endog exog)) as [e|m'] eqn:Ee.
    + destruct (is_Exception e); discriminate.
    + inversion H; subst. exists endog, exog. repeat split; auto.
      intros Hin. apply Hrw in Hin. congruence.
  - intros e H. unfold _model_warnings, under_filters in H.
    destruct (getitem design "response") as [endog|]; [|discriminate].
    destruct (drop design "response") as [exog|]; [|discriminate].
    destruct (existsb is_RuntimeWarning (issued (OLS_fit endog exog)));
      [discriminate|].
    destruct (ending (OLS_fit endog exog)) as [e'|m']; [|discriminate].
    destruct (is_Exception e') eqn:Ex; [discriminate|].
    inversion H; subst. exact Ex.
  - unfold _model_warnings, under_filters.
    destruct (getitem design "response") as [endog|]; [|discriminate].
    destruct (drop design "response") as [exog|]; [|discriminate].
    destruct (existsb is_RuntimeWarning (issued (OLS_fit endog exog)));
      [discriminate|].
    destruct (ending (OLS_fit endog exog)) as [e'|m']; [|discriminate].
    destruct (is_Exception e'); discriminate.
Qed.

(** *** The course of the search *)

Local Abbreviation reach :=
  (reaches set_iter Model OLS_fit la_inv data y n y_mean SST selected maxvars).
Local Abbreviation stall := (stalls set_iter la_inv data y n y_mean SST selected).

Lemma loop_more_fuel fuel st r :
  loop fuel st = Some r -> forall extra, loop (fuel + extra)%nat st = Some r.
Proof.
  revert st. induction fuel as [|fuel IH]; simpl; intros st H extra.
  - discriminate.
  - destruct (loop_condition selected maxvars st); [|exact H].
    destruct (round1 st) as [st'|o h]; [apply IH; exact H | exact H].
Qed.

Lemma reaches_prepend st st1 st2 :
  loop_condition selected maxvars st = true ->
  round1 st = RoundNext st1 ->
  reach st1 st2 ->
  reach st st2.
Proof.
  intros Hc Hr H. induction H as [|a b Hab IH Hca Hra].
  - eapply reaches_round; [apply reaches_here | exact Hc | exact Hr].
  - eapply reaches_round; [exact IH | exact Hca | exact Hra].
Qed.

(** Where a result of the loop comes from: the loop condition fails at a
    state on the way, or a round at such a state returns. *)
Lemma loop_result_cases fuel st o h' :
  loop fuel st = Some (o, h') ->
  exists st',
    reach st st' /\
    ((loop_condition selected maxvars st' = false /\
      o = finish (st_heap st' selected) /\ h' = st_heap st') \/
     (loop_condition selected maxvars st' = true /\
      round1 st' = RoundReturn o h')).
Proof.
  revert st. induction fuel as [|fuel IH]; simpl; intros st H.
  - discriminate.
  - destruct (loop_condition selected maxvars st) eqn:Hc.
    + destruct (round1 st) as [st1|o1 h1] eqn:Hr.
      * destruct (IH st1 H) as [st' [Hreach Hcases]].
        exists st'. split; [|exact Hcases].
        eapply reaches_prepend; eassumption.
      * inversion H; subst. exists st. split; [apply reaches_here|].
        right. split; [exact Hc | exact Hr].
    + inversion H; subst. exists st. split; [apply reaches_here|].
      left. auto.
Qed.

(** What a round that goes on has done. *)
Lemma round_next_inv st st' :
  round1 st = RoundNext st' ->
  exists scores front best bc,
    scan (st_heap st selected) (remaining st) [] = ScanDone scores /\
    list_pop (sort_by_score scores) = Some (front, (best, bc)) /\
    In bc (remaining st) /\
    ((Qlt_bool (current_score st) best = true /\
      st_heap st' selected
      = st_heap st selected
        ++ (if contains_star bc
            then fresh_bases (split_star bc) (st_heap st selected) else [])
        ++ [bc] /\
      (forall l, l <> selected -> st_heap st' l = st_heap st l) /\
      remaining st'
      = filter (fun x => negb (String.eqb bc x))
          (if contains_star bc
           then filter (fun x => negb (mem x (split_star bc))) (remaining st)
           else remaining st) /\
      current_score st' = best /\ best_new_score st' = best) \/
     (Qlt_bool (current_score st) best = false /\
      st' = mkState (st_heap st) (remaining st) (current_score st) best)).
Proof.
  intros H.
  destruct (scan (st_heap st selected) (remaining st) []) as [scores| |] eqn:Hs.
  2,3: unfold round in H; rewrite Hs in H; discriminate.
  destruct (list_pop (sort_by_score scores)) as [[front [best bc]]|] eqn:Hp.
  2: unfold round in H; rewrite Hs, Hp in H; discriminate.
  exists scores, front, best, bc.
  split; [first [reflexivity | exact Hs]|].
  split; [first [reflexivity | exact Hp]|].
  split.
  { destruct (winner_position _ _ _ _ _ _ Hs Hp) as [before [after [Hrem _]]].
    rewrite Hrem. apply in_or_app. right. left. reflexivity. }
  destruct (Qlt_bool (current_score st) best) eqn:Hlt.
  - left. destruct (round_accept st scores front best bc Hs Hp Hlt) as [h1 [Hr [Hh Hf]]].
    rewrite Hr in H. inversion H; subst st'. simpl. repeat split; auto.
  - right. rewrite (round_without_improvement st scores front best bc Hs Hp Hlt) in H.
    inversion H; subst. auto.
Qed.

Lemma filter_out_shorter (x : string) (l : list string) :
  In x l ->
  (List.length (filter (fun e => negb (String.eqb x e)) l) < List.length l)%nat.
Proof.
  induction l as [|a l IH]; simpl; intros H.
  - contradiction.
  - destruct (String.eqb x a) eqn:E; simpl.
    + apply Nat.lt_succ_r. apply filter_length_le.
    + apply String.eqb_neq in E. destruct H as [->|H]; [congruence|].
      apply -> Nat.succ_lt_mono. apply IH. exact H.
Qed.

Lemma accepting_round_shrinks_the_pool st st' :
  round1 st = RoundNext st' ->
  Qlt_bool (current_score st) (best_new_score st') = true ->
  (List.length (remaining st') < List.length (remaining st))%nat.
Proof.
  intros H Hlt. destruct (round_next_inv st st' H)
    as [scores [front [best [bc [Hs [Hp [Hin [[_ [_ [_ [Hrem _]]]] | [Hn Heq]]]]]]]]].
  - rewrite Hrem. destruct (contains_star bc) eqn:E.
    + assert (Hi : In bc (filter (fun x => negb (mem x (split_star bc)))
                                 (remaining st))).
      { apply filter_In. split; [exact Hin|].
        apply negb_true_iff. apply mem_not_In.
        apply interaction_not_own_base. exact E. }
      eapply Nat.lt_le_trans; [apply filter_out_shorter; exact Hi|].
      apply filter_length_le.
    + apply filter_out_shorter. exact Hin.
  - subst st'. simpl in Hlt. congruence.
Qed.

Lemma loop_step fuel st :
  loop (S fuel) st
  = if loop_condition selected maxvars st
    then match round1 st with
         | RoundNext st' => loop fuel st'
         | RoundReturn o h => Some (o, h)
         end
    else Some (finish (st_heap st selected), st_heap st).
Proof. reflexivity. Qed.

Lemma Qeq_bool_sym (a b : Q) : Qeq_bool a b = Qeq_bool b a.
Proof.
  destruct (Qeq_bool a b) eqn:E1, (Qeq_bool b a) eqn:E2; try reflexivity.
  - apply Qeq_bool_iff in E1. apply Qeq_bool_neq in E2. exfalso. apply E2.
    symmetry. exact E1.
  - apply Qeq_bool_iff in E2. apply Qeq_bool_neq in E1. exfalso. apply E1.
    symmetry. exact E2.
Qed.

Lemma condition_fails_on_unequal_scores h rem cur best :
  Qeq_bool cur best = false ->
  loop_condition selected maxvars (mkState h rem cur best) = false.
Proof.
  intros E. unfold loop_condition. simpl. rewrite E.
  rewrite andb_false_r. reflexivity.
Qed.

Lemma returns_or_stalls (k : nat) :
  forall st,
    (List.length (remaining st) <= k)%nat ->
    (exists st',
        reach st st' /\ loop_condition selected maxvars st' = true /\ stall st') \/
    (exists o h, loop (S (S k)) st = Some (o, h)).
Proof.
  induction k as [|k IH]; intros st Hk.
  - right. destruct (remaining st) as [|c rest] eqn:E.
    + rewrite loop_step. unfold loop_condition. rewrite E. simpl. eauto.
    + simpl in Hk. inversion Hk.
  - destruct (loop_condition selected maxvars st) eqn:Hc.
    2:{ right. rewrite loop_step, Hc. eauto. }
    destruct (round1 st) as [st'|o h] eqn:Hr.
    2:{ right. rewrite loop_step, Hc, Hr. eauto. }
    destruct (round_next_inv st st' Hr)
      as [scores [front [best [bc [Hs [Hp [Hin [Hacc | [Hlt Heq]]]]]]]]].
    + destruct Hacc as [Hlt [_ [_ [_ [_ Hbest]]]]].
      assert (Hlen : (List.length (remaining st') <= k)%nat).
      { apply Nat.lt_succ_r. eapply Nat.lt_le_trans; [|exact Hk].
        apply accepting_round_shrinks_the_pool; [exact Hr|].
        rewrite Hbest. exact Hlt. }
      destruct (IH st' Hlen) as [[st'' [Hre [Hc' Hst]]] | [o [h Hl]]].
      * left. exists st''. split; [|auto].
        eapply reaches_prepend; eassumption.
      * right. exists o, h. rewrite loop_step, Hc, Hr. exact Hl.
    + destruct (Qeq_bool best (current_score st)) eqn:E.
      * left. exists st. split; [apply reaches_here|]. split; [exact Hc|].
        exists scores, front, best, bc. split; [exact Hs|]. split; [exact Hp|].
        apply Qeq_bool_iff. exact E.
      * right. rewrite loop_step, Hc, Hr. subst st'. rewrite loop_step.
        rewrite condition_fails_on_unequal_scores
          by (rewrite Qeq_bool_sym; exact E).
        simpl. eauto.
Qed.

Lemma loop_returns_unless_a_round_stalls (st : loop_state) :
  (exists st',
      reach st st' /\ loop_condition selected maxvars st' = true /\ stall st') \/
  (exists o h, loop (S (S (List.length (remaining st)))) st = Some (o, h)).
Proof. apply returns_or_stalls. apply Nat.le_refl. Qed.

(** X2.  When the best score of a round is strictly below the current
    score, nothing is committed and the loop ends with that round: the
    result is the fit on the selection as it was, and no list object has
    changed. *)
Theorem X2_round_below_current_score_ends_the_search :
  forall (st : loop_state) scores front best cand fuel,
    loop_condition selected maxvars st = true ->
    scan (st_heap st selected) (remaining st) [] = ScanDone scores ->
    list_pop (sort_by_score scores) = Some (front, (best, cand)) ->
    best < current_score st ->
    loop (S (S fuel)) st = Some (finish (st_heap st selected), st_heap st).
Proof.
  intros st scores front best cand fuel Hc Hs Hp Hlt.
  assert (Hnot : Qlt_bool (current_score st) best = false).
  { destruct (Qlt_bool (current_score st) best) eqn:E; [|reflexivity].
    apply Qlt_bool_iff in E. exfalso.
    apply (Qlt_irrefl best). eapply Qlt_trans; eassumption. }
  cbv beta. rewrite loop_step, Hc.
  rewrite (round_without_improvement st scores front best cand Hs Hp Hnot).
  rewrite loop_step. rewrite condition_fails_on_unequal_scores.
  - reflexivity.
  - destruct (Qeq_bool (current_score st) best) eqn:E; [|reflexivity].
    apply Qeq_bool_iff in E. rewrite E in Hlt.
    exfalso. exact (Qlt_irrefl _ Hlt).
Qed.

Lemma round_scores st st' :
  round1 st = RoundNext st' ->
  current_score st <= current_score st' /\
  best_new_score st' <= current_score st' /\
  (st_heap st' selected = st_heap st selected \/
   current_score st < current_score st').
Proof.
  intros H. destruct (round_next_inv st st' H)
    as [scores [front [best [bc [_ [_ [_ [Hacc | [Hlt Heq]]]]]]]]].
  - destruct Hacc as [Hlt [_ [_ [_ [Hc Hb]]]]]. apply Qlt_bool_iff in Hlt.
    rewrite Hc, Hb. split; [apply Qlt_le_weak; exact Hlt|].
    split; [apply Qle_refl | right; exact Hlt].
  - subst st'. simpl. split; [apply Qle_refl|]. split; [|left; reflexivity].
    apply Qnot_lt_le. intros Hl. apply Qlt_bool_iff in Hl. congruence.
Qed.

Lemma scores_along_the_way st0 st :
  reach st0 st ->
  0 <= current_score st0 ->
  best_new_score st0 <= current_score st0 ->
  0 <= current_score st /\
  best_new_score st <= current_score st /\
  (st_heap st selected = st_heap st0 selected \/ 0 < current_score st).
Proof.
  intros Hr H0 Hb. induction Hr as [|st st' Hr IH Hc Hround].
  - split; [exact H0|]. split; [exact Hb | left; reflexivity].
  - destruct IH as [I0 [Ib Ih]].
    destruct (round_scores st st' Hround) as [Hle [Hbest Hkeep]].
    split; [eapply Qle_trans; eassumption|]. split; [exact Hbest|].
    destruct Hkeep as [Hsame|Hlt].
    + destruct Ih as [Ih|Ih].
      * left. rewrite Hsame. exact Ih.
      * right. eapply Qlt_le_trans; eassumption.
    + right. eapply Qle_lt_trans; eassumption.
Qed.

(** *** Invariants of the selection *)

Lemma kept_apart_round response st st' :
  round1 st = RoundNext st' ->
  kept_apart data selected response st ->
  kept_apart data selected response st'.
Proof.
  intros H [Hsel [Hrem [Hdis Hcols]]].
  destruct (round_next_inv st st' H)
    as [scores [front [best [bc [_ [_ [Hin [Hacc | [_ Heq]]]]]]]]].
  2:{ subst st'. unfold kept_apart. simpl. auto. }
  destruct Hacc as [_ [Hh [_ [Hr _]]]].
  assert (Hnew : forall x,
             In x (if contains_star bc
                   then fresh_bases (split_star bc) (st_heap st selected)
                   else []) ->
             contains_star bc = true /\ In x (split_star bc) /\
             ~ In x (st_heap st selected)).
  { intros x Hx. destruct (contains_star bc); [|contradiction].
    apply fresh_bases_In in Hx. tauto. }
  assert (Hleft : forall x, In x (remaining st') ->
             In x (remaining st) /\ x <> bc /\
             (contains_star bc = true -> ~ In x (split_star bc))).
  { intros x Hx. rewrite Hr in Hx. apply filter_In in Hx. destruct Hx as [Hx Hne].
    apply negb_true_iff in Hne. apply String.eqb_neq in Hne.
    destruct (contains_star bc).
    - apply filter_In in Hx. destruct Hx as [Hx Hb].
      apply negb_true_iff in Hb. apply mem_not_In in Hb.
      split; [exact Hx|]. split; [congruence | auto].
    - split; [exact Hx|]. split; [congruence | discriminate]. }
  unfold kept_apart. rewrite Hh. split; [|split; [|split]].
  - apply NoDup_app.
    + exact Hsel.
    + apply NoDup_app.
      * destruct (contains_star bc); [apply fresh_bases_NoDup | constructor].
      * constructor; [intros [] | constructor].
      * intros x Hx [Hxb|[]]. subst x. destruct (Hnew bc Hx) as [Hs [Hb _]].
        exact (interaction_not_own_base bc Hs Hb).
    + intros x Hx Hy. apply in_app_or in Hy. destruct Hy as [Hy|[Hxb|[]]].
      * destruct (Hnew x Hy) as [_ [_ Hn]]. contradiction.
      * subst x. exact (Hdis bc Hin Hx).
  - rewrite Hr. apply NoDup_filter.
    destruct (contains_star bc); [apply NoDup_filter|]; exact Hrem.
  - intros x Hx Hy. destruct (Hleft x Hx) as [Hx0 [Hne Hnb]].
    apply in_app_or in Hy. destruct Hy as [Hy|Hy].
    + exact (Hdis x Hx0 Hy).
    + apply in_app_or in Hy. destruct Hy as [Hy|[Hxb|[]]].
      * destruct (Hnew x Hy) as [Hs [Hb _]]. exact (Hnb Hs Hb).
      * congruence.
  - intros x Hx. apply Hcols. apply (Hleft x Hx).
Qed.

Lemma kept_apart_reaches response st0 st :
  reach st0 st ->
  kept_apart data selected response st0 ->
  kept_apart data selected response st.
Proof.
  intros Hr H0. induction Hr as [|st st' Hr IH Hc Hround].
  - exact H0.
  - eapply kept_apart_round; eassumption.
Qed.

Lemma hierarchical_round st st' :
  round1 st = RoundNext st' ->
  hierarchical (st_heap st selected) ->
  hierarchical (st_heap st' selected).
Proof.
  intros H Hh.
  destruct (round_next_inv st st' H)
    as [scores [front [best [bc [_ [_ [Hin [Hacc | [_ Heq]]]]]]]]].
  2:{ subst st'. exact Hh. }
  destruct Hacc as [_ [Heqh _]]. rewrite Heqh.
  intros s b Hs Hstar Hb. apply in_app_or in Hs. destruct Hs as [Hs|Hs].
  - apply in_or_app. left. apply (Hh s b Hs Hstar Hb).
  - apply in_app_or in Hs. destruct Hs as [Hs|[Hsb|[]]].
    + destruct (contains_star bc); [|contradiction].
      apply fresh_bases_In in Hs. destruct Hs as [Hs _].
      apply split_star_star_free in Hs. congruence.
    + subst s. rewrite Hstar.
      destruct (in_dec string_dec b (st_heap st selected)) as [Hi|Hi].
      * apply in_or_app. left. exact Hi.
      * apply in_or_app. right. apply in_or_app. left.
        apply fresh_bases_In. split; assumption.
Qed.

Lemma hierarchical_result fuel st o h' :
  loop fuel st = Some (o, h') ->
  hierarchical (st_heap st selected) ->
  hierarchical (h' selected).
Proof.
  intros Hl H0. destruct (loop_result_cases fuel st o h' Hl) as [st' [Hr Hcases]].
  assert (Hst : hierarchical (st_heap st' selected)).
  { clear Hcases Hl. induction Hr as [|a b Hr IH Hc Hround].
    - exact H0.
    - eapply hierarchical_round; eassumption. }
  destruct Hcases as [[_ [_ ->]] | [_ Hround]].
  - exact Hst.
  - pose proof (round_effect st') as He. rewrite Hround in He.
    destruct He as [Hh _]. rewrite Hh. exact Hst.
Qed.

(** *** The exceptions that can leave the loop *)

Lemma model_warnings_raised design e :
  _model_warnings Model OLS_fit design = Raised e -> is_Exception e = false.
Proof.
  unfold _model_warnings, under_filters. intros H.
  destruct (getitem design "response") as [endog|]; [|discriminate].
  destruct (drop design "response") as [exog|]; [|discriminate].
  destruct (existsb is_RuntimeWarning (issued (OLS_fit endog exog)));
    [discriminate|].
  destruct (ending (OLS_fit endog exog)) as [e'|m']; [|discriminate].
  destruct (is_Exception e') eqn:Ex; [discriminate|].
  inversion H; subst. exact Ex.
Qed.

Lemma sort_by_score_nil l : sort_by_score l = [] -> l = [].
Proof.
  destruct l as [|x l]; [reflexivity|]. simpl. intros H.
  assert (Hin : In x (insert_by_score x (sort_by_score l)))
    by (apply insert_by_score_In; left; reflexivity).
  rewrite H in Hin. contradiction.
Qed.

Lemma empty_scores_mean_all_skipped sel cands :
  scan sel cands [] = ScanDone [] ->
  forall c, In c cands -> eval sel c = CandSkipped.
Proof.
  intros Hs c Hin. destruct (scan_done _ _ _ _ Hs) as [Hnil Hall].
  simpl in Hnil. rewrite Forall_forall in Hall.
  destruct (Hall c Hin) as [Hc|[r Hr]]; [exact Hc|].
  exfalso. pose proof (entry_In sel cands r c Hin Hr) as Hi.
  rewrite <- Hnil in Hi. contradiction.
Qed.

Lemma round_returns_after_the_scan st e h' :
  round1 st = RoundReturn (Raised e) h' ->
  is_Exception e = true ->
  e = IndexError /\ h' = st_heap st /\
  scan (st_heap st selected) (remaining st) [] = ScanDone [].
Proof.
  intros H Hex.
  destruct (scan (st_heap st selected) (remaining st) []) as [scores| |] eqn:Hs.
  - destruct (list_pop (sort_by_score scores)) as [[front [best bc]]|] eqn:Hp.
    + exfalso. destruct (Qlt_bool (current_score st) best) eqn:Hlt.
      * destruct (round_accept st scores front best bc Hs Hp Hlt) as [h1 [Hr _]].
        congruence.
      * rewrite (round_without_improvement st scores front best bc Hs Hp Hlt) in H.
        discriminate.
    + unfold round in H. rewrite Hs, Hp in H. inversion H; subst.
      apply list_pop_none in Hp. apply sort_by_score_nil in Hp. subst scores.
      repeat split.
  - exfalso. unfold round in H. rewrite Hs in H. inversion H as [[Hm Hh]].
    apply model_warnings_raised in Hm. congruence.
  - unfold round in H. rewrite Hs in H. discriminate.
Qed.

Lemma pop_and_remove st :
  (forall h', round1 st <> RoundReturn (Raised KeyError) h') /\
  (forall h', round1 st = RoundReturn (Raised IndexError) h' <->
              h' = st_heap st /\
              no_score set_iter la_inv data y n y_mean SST selected st).
Proof.
  split.
  - intros h' H. destruct (round_returns_after_the_scan st _ h' H eq_refl) as [E _].
    discriminate.
  - intros h'. split.
    + intros H. destruct (round_returns_after_the_scan st _ h' H eq_refl)
        as [_ [Hh Hs]].
      split; [exact Hh|]. intros c Hc.
      apply (empty_scores_mean_all_skipped _ _ Hs c Hc).
    + intros [-> Hn]. unfold round. rewrite (scan_all_skipped _ _ _ Hn).
      reflexivity.
Qed.

(** *** Scores that are numbers *)

Lemma scan_finite sel cands acc :
  ~ SST == 0 -> scan sel cands acc <> ScanNonFinite.
Proof.
  intros Hsst. revert acc. induction cands as [|c rest IH]; simpl; intros acc.
  - discriminate.
  - pose proof (eval_finite sel c Hsst) as Hc.
    destruct (eval sel c) as [| | |r]; [apply IH | discriminate | congruence | apply IH].
Qed.

Lemma finish_is_a_result sel : finish sel <> NonFinite.
Proof.
  unfold _model_warnings.
  destruct (match getitem (final_design data sel y) "response" with
            | Some endog =>
                match drop (final_design data sel y) "response" with
                | Some exog => under_filters Model (OLS_fit endog exog)
                | None => inl KeyError
                end
            | None => inl KeyError
            end) as [e|m]; [destruct (is_Exception e)|]; discriminate.
Qed.

Lemma loop_finite fuel st o h' :
  ~ SST == 0 -> loop fuel st = Some (o, h') -> o <> NonFinite.
Proof.
  intros Hsst Hl. destruct (loop_result_cases fuel st o h' Hl) as [st' [_ Hcases]].
  destruct Hcases as [[_ [-> _]] | [_ Hround]].
  - apply finish_is_a_result.
  - unfold round in Hround.
    pose proof (scan_finite (st_heap st' selected) (remaining st') [] Hsst) as Hf.
    destruct (scan (st_heap st' selected) (remaining st') []) as [scores| |].
    + destruct (list_pop (sort_by_score scores)) as [[front [best bc]]|].
      * destruct (Qlt_bool (current_score st') best); [|discriminate].
        destruct (if contains_star bc
                  then commit_bases (split_star bc) (st_heap st') selected
                                    (remaining st')
                  else (st_heap st', remaining st')) as [h1 rem1].
        destruct (set_remove bc rem1); [discriminate|].
        inversion Hround; subst. discriminate.
      * inversion Hround; subst. discriminate.
    + inversion Hround; subst. apply finish_is_a_result.
    + congruence.
Qed.

(** *** The parameter limit *)

(** C5 (the code departs from the specification here).  The number of
    selected names is compared with [maxvars] only at the head of a round.
    A round that starts below the limit and accepts an interaction term
    commits the term together with those of its base features that are not
    selected yet; when these base features alone fill what was left of the
    limit, more than [maxvars] names are selected after the commit, the
    loop ends, and the final fit is made on all of them. *)
Theorem C5_interaction_commit_overshoots_maxvars :
  forall (st : loop_state) scores front best best_candidate (fuel : nat),
    loop_condition selected maxvars st = true ->
    scan (st_heap st selected) (remaining st) [] = ScanDone scores ->
    list_pop (sort_by_score scores) = Some (front, (best, best_candidate)) ->
    current_score st < best ->
    contains_star best_candidate = true ->
    (maxvars
     <= Z.of_nat (List.length (st_heap st selected)
                  + List.length (fresh_bases (split_star best_candidate)
                                             (st_heap st selected))))%Z ->
    exists h',
      h' selected
      = st_heap st selected
        ++ fresh_bases (split_star best_candidate) (st_heap st selected)
        ++ [best_candidate] /\
      (maxvars < Z.of_nat (List.length (h' selected)))%Z /\
      loop (S (S fuel)) st = Some (finish (h' selected), h').
Proof.
  intros st scores front best bc fuel Hc Hs Hp Hlt Ecs Hfill.
  apply Qlt_bool_iff in Hlt.
  destruct (round_accept st scores front best bc Hs Hp Hlt) as [h' [Hr [Hh _]]].
  rewrite Ecs in Hr, Hh. exists h'. split; [exact Hh|].
  assert (Hlen : (maxvars < Z.of_nat (List.length (h' selected)))%Z).
  { rewrite Hh, !length_app. simpl. lia. }
  split; [exact Hlen|].
  cbv beta. rewrite loop_step, Hc, Hr, loop_step.
  unfold loop_condition. simpl.
  assert (E : (Z.of_nat (List.length (h' selected)) <? maxvars)%Z = false)
    by (apply Z.ltb_ge; lia).
  rewrite E, andb_false_r. reflexivity.
Qed.

End Selection.

Lemma forward_selected_unfold set_iter Model OLS_fit la_inv fuel h data response
      force_in maxvars y :
  getitem data response = Some y ->
  forward_selected set_iter Model OLS_fit la_inv fuel h data response force_in maxvars
  = forward_loop set_iter Model OLS_fit la_inv fuel data y (List.length y) (mean y)
                 (SST_of y) force_in maxvars
                 (initial_state set_iter h data response force_in).
Proof.
  intros H. unfold forward_selected. rewrite H. reflexivity.
Qed.

(** C10.  When [forward_selected] returns, the list object that was passed
    as [force_in] holds what it held before followed by what the search
    appended, every accepted candidate among it; no other list object has
    changed; and a later call that is given the same object, as every call
    relying on the default argument is, starts from the extended list and
    from a candidate pool without its names. *)
Theorem C10_force_in_object_is_extended_in_place :
  forall set_iter Model OLS_fit la_inv fuel h data response force_in maxvars o h',
    forward_selected set_iter Model OLS_fit la_inv fuel h data response force_in maxvars
    = Some (o, h') ->
    o <> NonFinite ->
    (exists accepted,
        h' force_in = h force_in ++ accepted /\
        (forall data2 response2,
            st_heap (initial_state set_iter h' data2 response2 force_in) force_in
            = h force_in ++ accepted /\
            remaining (initial_state set_iter h' data2 response2 force_in)
            = set_iter (set_difference (labels data2)
                          ((h force_in ++ accepted) ++ [response2])))) /\
    (forall l, l <> force_in -> h' l = h l) /\
    (forall y st c,
        getitem data response = Some y ->
        reaches set_iter Model OLS_fit la_inv data y (List.length y) (mean y) (SST_of y)
                force_in maxvars
                (initial_state set_iter h data response force_in) st ->
        loop_condition force_in maxvars st = true ->
        accepts set_iter la_inv data y (List.length y) (mean y) (SST_of y) force_in st c ->
        In c (h' force_in)).
Proof.
  intros set_iter Model OLS_fit la_inv fuel h data response force_in maxvars o h' H _.
  unfold forward_selected in H.
  destruct (getitem data response) as [y|] eqn:Hy.
  - destruct (loop_extends_selected set_iter Model OLS_fit la_inv data y (List.length y)
                (mean y) (SST_of y) force_in maxvars fuel _ o h' H)
      as [[accepted Hacc] Hframe].
    simpl in Hacc, Hframe. split; [|split].
    + exists accepted. split; [exact Hacc|]. intros data2 response2.
      unfold initial_state. simpl. rewrite Hacc. split; reflexivity.
    + exact Hframe.
    + intros y' st c Hy' Hr Hc Ha. inversion Hy'; subst y'.
      eapply accepted_is_in_final_list; eassumption.
  - inversion H; subst. split; [|split].
    + exists []. rewrite app_nil_r. split; [reflexivity|].
      intros data2 response2. unfold initial_state. simpl. split; reflexivity.
    + reflexivity.
    + intros y st c Hy'. discriminate.
Qed.

(** *** Interaction expansion *)

Lemma deref_app_new (Sto : store) (x : TypedFrame) :
  deref (Sto ++ [x]) (List.length Sto) = x.
Proof.
  unfold deref. rewrite app_nth2 by apply Nat.le_refl.
  rewrite Nat.sub_diag. reflexivity.
Qed.


Lemma store_set_app_new (Sto : store) (x d : TypedFrame) :
  store_set (Sto ++ [x]) (List.length Sto) d = Sto ++ [d].
Proof.
  induction Sto as [|a Sto IH]; simpl.
  - reflexivity.
  - rewrite IH. reflexivity.
Qed.

Lemma assign_products_app (Sto : store) (cur : TypedFrame) (names : list string) :
  assign_products (Sto ++ [cur]) (List.length Sto) names
  = Sto ++ [assign_frame cur names].
Proof.
  revert cur. induction names as [|name rest IH]; intros cur; simpl.
  - reflexivity.
  - pose proof (split_star_nonempty name) as Hne.
    destruct (split_star name) as [|b bs] eqn:E; [congruence|].
    rewrite deref_app_new, store_set_app_new. apply IH.
Qed.

Lemma name_combinations_from_spec newdf response d degrees acc :
  drop newdf response = Some d ->
  name_combinations_from newdf response degrees acc
  = Some (acc ++ interaction_names (labels d) degrees).
Proof.
  intros Hd. revert acc. induction degrees as [|i rest IH]; intros acc; simpl.
  - rewrite app_nil_r. reflexivity.
  - rewrite Hd, IH. unfold interaction_names. simpl.
    rewrite <- app_assoc. reflexivity.
Qed.
























Import Examples.

(** The constant candidate: the only candidate is collinear with the
    intercept, and the call ends in [IndexError]. *)
Lemma C1_constant_candidate_raises :
  loop_condition 0%nat 5
    (initial_state in_order h_empty constant_candidate "y" 0%nat) = true /\
  (forall c,
     In c (remaining (initial_state in_order h_empty constant_candidate "y" 0%nat)) ->
     eval_candidate in_order exact_inv constant_candidate (zs [1; 2; 3]%Z) 3
       (mean (zs [1; 2; 3]%Z)) (SST_of (zs [1; 2; 3]%Z))
       (h_empty 0%nat) c = CandSkipped) /\
  forward_selected in_order M fit exact_inv 1 h_empty constant_candidate "y" 0%nat 5
  = Some (Raised IndexError, h_empty).
Proof.
  assert (Hc : loop_condition 0%nat 5
            (initial_state in_order h_empty constant_candidate "y" 0%nat) = true)
    by (vm_compute; reflexivity).
  assert (Hs : forall c,
     In c (remaining (initial_state in_order h_empty constant_candidate "y" 0%nat)) ->
     eval_candidate in_order exact_inv constant_candidate (zs [1; 2; 3]%Z) 3
       (mean (zs [1; 2; 3]%Z)) (SST_of (zs [1; 2; 3]%Z))
       (h_empty 0%nat) c = CandSkipped).
  { intros c [<-|[]]. vm_compute. reflexivity. }
  split; [exact Hc | split; [exact Hs|]].
  rewrite (forward_selected_unfold in_order M fit exact_inv 1 h_empty constant_candidate
             "y" 0%nat 5 (zs [1; 2; 3]%Z) eq_refl).
  exact (C1_all_singular_round_raises_IndexError in_order M fit exact_inv constant_candidate
           (zs [1; 2; 3]%Z) 3 (mean (zs [1; 2; 3]%Z)) (SST_of (zs [1; 2; 3]%Z))
           0%nat 5 _ 0%nat Hc Hs).
Defined.

(** The forced-in predictor [f] and the candidate [x] of [zero_score]: the
    only score is exactly the current score, and a thousand rounds of fuel
    do not bring the call to an end. *)
Lemma C3_zero_score_out_of_fuel :
  forward_selected in_order M fit exact_inv 1000 h_forced_f zero_score "y" f_loc 5 = None.
Proof.
  rewrite (forward_selected_unfold in_order M fit exact_inv 1000 h_forced_f zero_score
             "y" f_loc 5 zero_score_y eq_refl).
  eapply (C3_equal_best_score_never_halts in_order M fit exact_inv zero_score
            zero_score_y (List.length zero_score_y) (mean zero_score_y)
            (SST_of zero_score_y) f_loc 5).
  - vm_compute. reflexivity.
  - vm_compute. reflexivity.
  - vm_compute. reflexivity.
  - vm_compute. reflexivity.
Defined.

(** A fit that warns with a [RuntimeWarning] on its way to a result gives
    the failure value, not that result. *)
Lemma C8_warning_gives_failure_value :
  _model_warnings M fit_warns
    (final_design tied ["a"] tied_y) = Returned None.
Proof.
  refine (proj1 (C8_model_warnings_failure_value M fit_warns
                   (final_design tied ["a"] tied_y)) tied_y _ eq_refl eq_refl _).
  left. vm_compute. right. left. reflexivity.
Defined.



(** On [three_rows] the candidate [A*B] of the first round would leave
    [3 - 3 - 1] degrees of freedom, but its matrix has a zero row and the
    inversion raises: it is skipped, [A] is accepted, and the model returned is the fit on [A], not
    the fit on the empty selection the round started with. *)
Lemma C4_singular_candidate_does_not_halt :
  ~ dof_halts_as_stated in_order M fit exact_inv three_rows three_rows_y 3
      (mean three_rows_y) (SST_of three_rows_y) 0%nat 5
      (initial_state in_order h_empty three_rows "y" 0%nat).
Proof.
  intros H.
  assert (Hin : In "A*B"
            (remaining (initial_state in_order h_empty three_rows "y" 0%nat)))
    by (vm_compute; auto).
  specialize (H "A*B" Hin). 
  assert (Hdof : (Z.of_nat 3
     - Z.of_nat (n_predictors three_rows
          (current_model_of in_order
             (st_heap (initial_state in_order h_empty three_rows "y" 0%nat) 0%nat)
             "A*B")) - 1 < 1)%Z) by (vm_compute; reflexivity).
  specialize (H Hdof 5%nat). vm_compute in H. discriminate H.
Qed.

(** [three_rows] with [A] forced in: the inversion succeeds for the
    candidate [B], which leaves no degree of freedom, and the call returns
    the fit on [A]; without [A] forced in, the inversion fails for [A*B],
    the only candidate of the first round without a degree of freedom, and
    the round does not take the exit. *)
Lemma C4_three_rows_halts :
  forward_selected in_order M fit exact_inv 1 (h_upd h_empty 0%nat ["A"]) three_rows "y"
    0%nat 5
  = Some (_model_warnings M fit (final_design three_rows ["A"] three_rows_y),
          h_upd h_empty 0%nat ["A"])
  /\ eval_candidate in_order exact_inv three_rows three_rows_y 3 (mean three_rows_y)
       (SST_of three_rows_y) [] "A*B" = CandSkipped
  /\ score_candidates in_order exact_inv three_rows three_rows_y 3 (mean three_rows_y)
       (SST_of three_rows_y) [] ["A"; "B"; "A*B"] [] <> ScanHalt.
Proof.
  split.
  - rewrite (forward_selected_unfold in_order M fit exact_inv 1
               (h_upd h_empty 0%nat ["A"]) three_rows "y" 0%nat 5 three_rows_y eq_refl).
    apply (proj1 (C4_dof_guard_follows_the_inversion in_order M fit exact_inv three_rows
             three_rows_y (List.length three_rows_y) (mean three_rows_y)
             (SST_of three_rows_y) 0%nat 5
             (initial_state in_order (h_upd h_empty 0%nat ["A"]) three_rows "y" 0%nat)
             0%nat eq_refl)).
    exists "B". split; [vm_compute; auto|]. split.
    + vm_compute. discriminate.
    + vm_compute. reflexivity.
  - destruct (proj2 (C4_dof_guard_follows_the_inversion in_order M fit exact_inv
                three_rows three_rows_y 3 (mean three_rows_y)
                (SST_of three_rows_y) 0%nat 5
                (initial_state in_order h_empty three_rows "y" 0%nat)
                0%nat eq_refl)) as [Hskip [_ Hscan]].
    + intros c [<-|[<-|[<-|[]]]] Hdof.
      * vm_compute in Hdof. discriminate Hdof.
      * vm_compute in Hdof. discriminate Hdof.
      * vm_compute. reflexivity.
    + split; [|exact Hscan].
      apply (Hskip "A*B"); [vm_compute; auto | vm_compute; reflexivity].
Defined.

(** On the expanded [product_response] data the interaction term [A*B] wins
    the first round: [A] and [B] enter [selected] before it, in one commit. *)
Lemma C7_interaction_commit :
  exists st',
    round in_order M fit exact_inv product_response_expanded product_response_y 6
      (mean product_response_y) (SST_of product_response_y) 0%nat
      (initial_state in_order h_empty product_response_expanded "y" 0%nat)
    = RoundNext st' /\
    st_heap st' 0%nat = ["A"; "B"; "A*B"] /\
    ~ In "A" (remaining st') /\ ~ In "B" (remaining st').
Proof.
  epose proof (C7_commit_of_the_best_candidate in_order M fit exact_inv
                 product_response_expanded product_response_y 6
                 (mean product_response_y) (SST_of product_response_y) 0%nat
                 (initial_state in_order h_empty product_response_expanded "y" 0%nat)
                 _ _ _ "A*B") as Hw.
  edestruct Hw as [Hacc _].
  - vm_compute. reflexivity.
  - vm_compute. reflexivity.
  - destruct Hacc as [st' [pulled [Hr [Hp [Hh [Hb _]]]]]].
    + vm_compute. reflexivity.
    + reflexivity.
    + exists st'. split; [exact Hr|]. split.
      * rewrite Hh, Hp. reflexivity.
      * split.
        -- apply (Hb "A"); vm_compute; auto.
        -- apply (Hb "B"); vm_compute; auto.
Defined.

(** With [maxvars = 2] the interaction term [A*B] wins the first round on
    the expanded [product_response] data, [A] and [B] come along, and the
    model returned is fitted on three names. *)
Lemma C5_three_names_with_maxvars_two :
  exists h',
    h' 0%nat = ["A"; "B"; "A*B"] /\
    (2 < Z.of_nat (List.length (h' 0%nat)))%Z /\
    forward_selected in_order M fit exact_inv 2 h_empty product_response_expanded "y"
                     0%nat 2
    = Some (_model_warnings M fit
              (final_design product_response_expanded (h' 0%nat) product_response_y),
            h').
Proof.
  epose proof (C5_interaction_commit_overshoots_maxvars in_order M fit exact_inv
                 product_response_expanded product_response_y
                 (List.length product_response_y)
                 (mean product_response_y) (SST_of product_response_y) 0%nat 2
                 (initial_state in_order h_empty product_response_expanded "y" 0%nat)
                 _ _ _ "A*B" 0%nat) as Hw.
  edestruct Hw as [h' [Hh [Hlt Hl]]].
  - vm_compute. reflexivity.
  - vm_compute. reflexivity.
  - vm_compute. reflexivity.
  - vm_compute. reflexivity.
  - reflexivity.
  - vm_compute. discriminate.
  - exists h'. split; [rewrite Hh; reflexivity|]. split; [exact Hlt|].
    rewrite (forward_selected_unfold in_order M fit exact_inv 2 h_empty
               product_response_expanded "y" 0%nat 2 product_response_y eq_refl).
    exact Hl.
Defined.

(** Two calls that rely on the default argument, one after the other, on
    [tied]: the first leaves [b] and [a] in the default list object, and the
    second, asked for one variable, starts from them and returns the fit on
    both, where a call on a fresh empty list returns the fit on [b] alone. *)
Lemma C10_default_argument_persists :
  exists o h',
    forward_selected in_order M fit exact_inv 5 h_empty tied "y"
                     forward_selected_default_force_in 5 = Some (o, h') /\
    h' forward_selected_default_force_in = ["b"; "a"] /\
    option_map fst
      (forward_selected in_order M fit exact_inv 5 h' tied "y"
                        forward_selected_default_force_in 1)
    = Some (Returned (Some ["b"; "a"; "Intercept"])) /\
    option_map fst
      (forward_selected in_order M fit exact_inv 5 h_empty tied "y"
                        forward_selected_default_force_in 1)
    = Some (Returned (Some ["b"; "Intercept"])).
Proof.
  assert (E : exists o h',
             forward_selected in_order M fit exact_inv 5 h_empty tied "y"
               forward_selected_default_force_in 5 = Some (o, h') /\
             o <> NonFinite /\
             (forall accepted,
                 h' forward_selected_default_force_in
                 = h_empty forward_selected_default_force_in ++ accepted ->
                 accepted = ["b"; "a"]) /\
             option_map fst
               (forward_selected in_order M fit exact_inv 5 h' tied "y"
                  forward_selected_default_force_in 1)
             = Some (Returned (Some ["b"; "a"; "Intercept"]))).
  { eexists. eexists. split; [vm_compute; reflexivity|].
    split; [discriminate|]. split.
    - intros accepted Ha. symmetry. exact Ha.
    - vm_compute. reflexivity. }
  destruct E as [o [h' [E [Ho [Hb E2]]]]].
  exists o, h'. split; [exact E|].
  destruct (C10_force_in_object_is_extended_in_place in_order M fit exact_inv 5 h_empty
              tied "y" forward_selected_default_force_in 5 o h' E Ho)
    as [[accepted [Hacc _]] _].
  split; [rewrite Hacc; rewrite (Hb accepted Hacc); reflexivity|].
  split; [exact E2 | vm_compute; reflexivity].
Defined.






(** * Further properties of the search *)

Import MoreExamples.

(** X1.  For a response that is not constant, so that the total sum of
    squares is not zero and every score is a number, [forward_selected]
    returns a result or raises within as many rounds as there are
    candidates, plus two, unless the search reaches a round whose best
    score is exactly the current score. *)
Theorem X1_search_returns_unless_a_round_stalls :
  forall set_iter Model OLS_fit la_inv h data response force_in maxvars y,
    let st0 := initial_state set_iter h data response force_in in
    getitem data response = Some y ->
    ~ SST_of y == 0 ->
    (exists st,
        reaches set_iter Model OLS_fit la_inv data y (List.length y) (mean y)
                (SST_of y) force_in maxvars st0 st /\
        loop_condition force_in maxvars st = true /\
        stalls set_iter la_inv data y (List.length y) (mean y) (SST_of y)
               force_in st) \/
    (exists o h',
        forward_selected set_iter Model OLS_fit la_inv
          (S (S (List.length (remaining st0)))) h data response force_in maxvars
        = Some (o, h') /\
        ((exists model, o = Returned model) \/ (exists e, o = Raised e))).
Proof.
  intros set_iter Model OLS_fit la_inv h data response force_in maxvars y st0 Hy
         Hsst.
  destruct (loop_returns_unless_a_round_stalls set_iter Model OLS_fit la_inv data y
              (List.length y) (mean y) (SST_of y) force_in maxvars st0)
    as [[st [Hr [Hc Hs]]] | [o [h' Hl]]].
  - left. exists st. auto.
  - right. exists o, h'.
    rewrite (forward_selected_unfold _ _ _ _ _ _ _ _ _ _ y Hy).
    split; [exact Hl|].
    pose proof (loop_finite set_iter Model OLS_fit la_inv data y (List.length y)
                  (mean y) (SST_of y) force_in maxvars _ _ o h' Hsst Hl) as Hfin.
    destruct o as [model|e|]; [left; eauto | right; eauto | congruence].
Qed.

(** On [tied] the call returns after its second round. *)
Lemma X1_tied_returns :
  (exists st,
      reaches in_order M fit exact_inv tied tied_y (List.length tied_y) (mean tied_y)
              (SST_of tied_y) 0%nat 5
              (initial_state in_order h_empty tied "y" 0%nat) st /\
      loop_condition 0%nat 5 st = true /\
      stalls in_order exact_inv tied tied_y (List.length tied_y) (mean tied_y)
             (SST_of tied_y) 0%nat st) \/
  (exists o h',
      forward_selected in_order M fit exact_inv
        (S (S (List.length (remaining (initial_state in_order h_empty tied "y" 0%nat)))))
        h_empty tied "y" 0%nat 5
      = Some (o, h') /\
      ((exists model, o = Returned model) \/ (exists e, o = Raised e))).
Proof.
  apply (X1_search_returns_unless_a_round_stalls in_order M fit exact_inv h_empty tied
           "y" 0%nat 5 tied_y).
  - reflexivity.
  - apply Qeq_bool_neq. vm_compute. reflexivity.
Defined.

(** On [negative_score] the only candidate scores -1/2: the call returns
    the fit on the empty selection after that round. *)
Lemma X2_negative_score_selects_nothing :
  forward_selected in_order M fit exact_inv 2 h_empty negative_score "y" 0%nat 5
  = Some (_model_warnings M fit (final_design negative_score [] negative_score_y),
          h_empty).
Proof.
  rewrite (forward_selected_unfold in_order M fit exact_inv 2 h_empty negative_score "y"
             0%nat 5 negative_score_y eq_refl).
  eapply (X2_round_below_current_score_ends_the_search in_order M fit exact_inv
            negative_score negative_score_y (List.length negative_score_y)
            (mean negative_score_y) (SST_of negative_score_y) 0%nat 5).
  - vm_compute. reflexivity.
  - vm_compute. reflexivity.
  - vm_compute. reflexivity.
  - vm_compute. reflexivity.
Defined.

(** The state of the search on [tied] after its first round. *)
Lemma tied_after_one_round :
  exists st,
    reaches in_order M fit exact_inv tied tied_y (List.length tied_y) (mean tied_y)
            (SST_of tied_y) 0%nat 5
            (initial_state in_order h_empty tied "y" 0%nat) st /\
    st_heap st 0%nat = ["b"] /\ remaining st = ["a"] /\
    current_score st == 1 # 4.
Proof.
  eexists. split.
  - eapply reaches_round.
    + apply reaches_here.
    + vm_compute. reflexivity.
    + vm_compute. reflexivity.
  - repeat split; vm_compute; reflexivity.
Qed.

(** X3.  For a response that is not constant, so that every score is a
    number: from the start of [forward_selected] on, the current score is
    never negative and never below the best score of the last round, and
    as soon as the selection differs from the forced-in list the current
    score is strictly positive: only candidates that raise the adjusted
    score above zero are ever added. *)
Theorem X3_current_score_from_the_start :
  forall set_iter Model OLS_fit la_inv h data response force_in maxvars y st,
    getitem data response = Some y ->
    ~ SST_of y == 0 ->
    reaches set_iter Model OLS_fit la_inv data y (List.length y) (mean y) (SST_of y)
            force_in maxvars
            (initial_state set_iter h data response force_in) st ->
    0 <= current_score st /\
    best_new_score st <= current_score st /\
    (st_heap st force_in = h force_in \/ 0 < current_score st).
Proof.
  intros set_iter Model OLS_fit la_inv h data response force_in maxvars y st _ _ Hr.
  apply (scores_along_the_way set_iter Model OLS_fit la_inv data y (List.length y)
           (mean y) (SST_of y) force_in maxvars _ st Hr); simpl; apply Qle_refl.
Qed.

Lemma X3_tied_after_one_round :
  exists st,
    reaches in_order M fit exact_inv tied tied_y (List.length tied_y) (mean tied_y)
            (SST_of tied_y) 0%nat 5
            (initial_state in_order h_empty tied "y" 0%nat) st /\
    st_heap st 0%nat = ["b"] /\
    0 <= current_score st /\
    best_new_score st <= current_score st /\
    (st_heap st 0%nat = h_empty 0%nat \/ 0 < current_score st).
Proof.
  destruct tied_after_one_round as [st [Hr [Hh _]]].
  exists st. split; [exact Hr|]. split; [exact Hh|].
  apply (X3_current_score_from_the_start in_order M fit exact_inv h_empty tied "y"
           0%nat 5 tied_y st).
  - reflexivity.
  - apply Qeq_bool_neq. vm_compute. reflexivity.
  - exact Hr.
Defined.

Lemma initial_state_kept_apart set_iter h data response force_in :
  iterates_its_elements set_iter ->
  NoDup (h force_in) ->
  kept_apart data force_in response
             (initial_state set_iter h data response force_in).
Proof.
  intros Hit Hnd. unfold kept_apart, initial_state. simpl.
  assert (Hd : NoDup (set_difference (labels data) (h force_in ++ [response]))).
  { unfold set_difference. apply NoDup_filter. apply NoDup_nodup. }
  destruct (Hit _ Hd) as [Hn Hin].
  assert (Hx : forall x,
             In x (set_iter (set_difference (labels data)
                               (h force_in ++ [response]))) ->
             In x (labels data) /\ ~ In x (h force_in ++ [response])).
  { intros x Hx. apply Hin in Hx. unfold set_difference in Hx.
    apply filter_In in Hx. destruct Hx as [Hx Hm].
    apply nodup_In in Hx. apply negb_true_iff in Hm. apply mem_not_In in Hm.
    auto. }
  split; [exact Hnd|]. split; [exact Hn|]. split.
  - intros x Hxi Hs. destruct (Hx x Hxi) as [_ Hno]. apply Hno.
    apply in_or_app. left. exact Hs.
  - intros x Hxi. destruct (Hx x Hxi) as [Hl Hno]. split; [exact Hl|].
    intros ->. apply Hno. apply in_or_app. right. left. reflexivity.
Qed.

(** X4.  If the forced-in list has no duplicates (and a set is iterated
    element by element), then at every point of the search no name is
    selected twice, no name is both selected and still a candidate, and
    every candidate is a column of the data other than the response. *)
Theorem X4_selected_and_candidates_stay_apart :
  forall set_iter Model OLS_fit la_inv h data response force_in maxvars y n y_mean
         SST st,
    iterates_its_elements set_iter ->
    NoDup (h force_in) ->
    reaches set_iter Model OLS_fit la_inv data y n y_mean SST force_in maxvars
            (initial_state set_iter h data response force_in) st ->
    kept_apart data force_in response st.
Proof.
  intros set_iter Model OLS_fit la_inv h data response force_in maxvars y n y_mean SST
         st Hit Hnd Hr.
  eapply kept_apart_reaches; [exact Hr|].
  apply initial_state_kept_apart; assumption.
Qed.

Lemma in_order_iterates_its_elements : iterates_its_elements in_order.
Proof. intros l Hl. split; [exact Hl | auto]. Qed.

Lemma X4_tied_after_one_round :
  exists st,
    reaches in_order M fit exact_inv tied tied_y (List.length tied_y) (mean tied_y)
            (SST_of tied_y) 0%nat 5
            (initial_state in_order h_empty tied "y" 0%nat) st /\
    st_heap st 0%nat = ["b"] /\ remaining st = ["a"] /\
    kept_apart tied 0%nat "y" st.
Proof.
  destruct tied_after_one_round as [st [Hr [Hh [Hrem _]]]].
  exists st. split; [exact Hr|]. split; [exact Hh|]. split; [exact Hrem|].
  apply (X4_selected_and_candidates_stay_apart in_order M fit exact_inv h_empty tied "y"
           0%nat 5 tied_y (List.length tied_y) (mean tied_y) (SST_of tied_y) st
           in_order_iterates_its_elements).
  - constructor.
  - exact Hr.
Defined.

(** X5.  In a round of the loop [remaining.remove(best_candidate)] never
    raises: the candidate popped from the scores is in [remaining] when it
    is removed, also after its base features have been taken out.  And
    [scores_with_candidates.pop()] raises [IndexError] in exactly the
    rounds in which every candidate was skipped because [la.inv] raised;
    no list object has changed by then. *)
Theorem X5_pop_and_remove_in_a_round :
  forall set_iter Model OLS_fit la_inv data y n y_mean SST selected st,
    (forall h',
        round set_iter Model OLS_fit la_inv data y n y_mean SST selected st
        <> RoundReturn (Raised KeyError) h') /\
    (forall h',
        round set_iter Model OLS_fit la_inv data y n y_mean SST selected st
        = RoundReturn (Raised IndexError) h'
        <-> h' = st_heap st /\
            no_score set_iter la_inv data y n y_mean SST selected st).
Proof.
  intros set_iter Model OLS_fit la_inv data y n y_mean SST selected st.
  apply pop_and_remove.
Qed.

Lemma X5_constant_candidate :
  round in_order M fit exact_inv constant_candidate (zs [1; 2; 3]%Z) 3
        (mean (zs [1; 2; 3]%Z)) (SST_of (zs [1; 2; 3]%Z)) 0%nat
        (initial_state in_order h_empty constant_candidate "y" 0%nat)
  = RoundReturn (Raised IndexError) h_empty.
Proof.
  apply (proj2 (X5_pop_and_remove_in_a_round in_order M fit exact_inv
                  constant_candidate (zs [1; 2; 3]%Z) 3 (mean (zs [1; 2; 3]%Z))
                  (SST_of (zs [1; 2; 3]%Z)) 0%nat
                  (initial_state in_order h_empty constant_candidate "y" 0%nat))
               h_empty).
  split; [reflexivity|].
  intros c [<-|[]]. vm_compute. reflexivity.
Defined.

(** X8.  If every interaction term of the forced-in list comes with all
    its base features, so does every interaction term of the list that
    [forward_selected] leaves behind: a selected interaction term is never
    without one of its base features. *)
Theorem X8_selection_stays_hierarchical :
  forall set_iter Model OLS_fit la_inv fuel h data response force_in maxvars o h',
    forward_selected set_iter Model OLS_fit la_inv fuel h data response force_in maxvars
    = Some (o, h') ->
    hierarchical (h force_in) ->
    hierarchical (h' force_in).
Proof.
  intros set_iter Model OLS_fit la_inv fuel h data response force_in maxvars o h' H Hh.
  unfold forward_selected in H. destruct (getitem data response) as [y|].
  - apply (hierarchical_result set_iter Model OLS_fit la_inv data y (List.length y)
             (mean y) (SST_of y) force_in maxvars fuel _ o h' H).
    exact Hh.
  - inversion H; subst. exact Hh.
Qed.

Lemma X8_product_response :
  exists o h',
    forward_selected in_order M fit exact_inv 5 h_empty product_response_expanded "y"
                     0%nat 5 = Some (o, h') /\
    h' 0%nat = ["A"; "B"; "A*B"] /\
    hierarchical (h' 0%nat).
Proof.
  assert (E : exists o h',
             forward_selected in_order M fit exact_inv 5 h_empty product_response_expanded
                              "y" 0%nat 5 = Some (o, h') /\
             h' 0%nat = ["A"; "B"; "A*B"]).
  { eexists. eexists. split; vm_compute; reflexivity. }
  destruct E as [o [h' [E Hh]]]. exists o, h'. split; [exact E|].
  split; [exact Hh|].
  apply (X8_selection_stays_hierarchical in_order M fit exact_inv 5 h_empty
           product_response_expanded "y" 0%nat 5 o h' E).
  intros s b [].
Defined.

(** ** What the final fit is given *)

Lemma assoc_filter_cols cols items c :
  assoc c (filter_cols cols items) = if mem c items then assoc c cols else None.
Proof.
  induction items as [|r rest IH]; simpl.
  - reflexivity.
  - destruct (assoc r cols) as [v|] eqn:Er; simpl.
    + destruct (String.eqb c r) eqn:E.
      * apply String.eqb_eq in E. subst r. simpl. symmetry. exact Er.
      * simpl. exact IH.
    + destruct (String.eqb c r) eqn:E.
      * apply String.eqb_eq in E. subst r. simpl. rewrite IH, Er.
        destruct (mem c rest); reflexivity.
      * simpl. exact IH.
Qed.

Lemma getitem_df_filter data items c :
  getitem (df_filter data items) c
  = if mem c items then getitem data c else None.
Proof. apply assoc_filter_cols. Qed.

Lemma getitem_drop d name d' c :
  drop d name = Some d' ->
  getitem d' c = if String.eqb name c then None else getitem d c.
Proof.
  unfold drop. destruct (mem name (labels d)); [|discriminate].
  intros H. inversion H; subst. clear H. unfold getitem. simpl.
  induction (columns d) as [|[k w] cols IH]; simpl.
  - destruct (String.eqb name c); reflexivity.
  - destruct (String.eqb name k) eqn:Ek; simpl.
    + apply String.eqb_eq in Ek. subst k.
      destruct (String.eqb c name) eqn:Ec.
      * apply String.eqb_eq in Ec. subst c. rewrite String.eqb_refl in IH.
        rewrite String.eqb_refl. exact IH.
      * rewrite String.eqb_sym, Ec. rewrite String.eqb_sym, Ec in IH. exact IH.
    + destruct (String.eqb c k) eqn:Ec.
      * apply String.eqb_eq in Ec. subst c. rewrite Ek. reflexivity.
      * exact IH.
Qed.

(** X6.  The final fit always receives the response values as the
    dependent variable, and as regressors a frame without a column
    [response], with the constant column under [Intercept], and otherwise
    exactly the selected names that are columns of the data, with their
    values: a selected column labelled [Intercept] or [response] does not
    reach the fit with its own values. *)
Theorem X6_what_the_final_fit_is_given :
  forall Model (OLS_fit : list Q -> DataFrame -> fit_run Model)
         (data : DataFrame) (selected : list string) (y : vector),
    exists exog,
      getitem (final_design data selected y) "response" = Some y /\
      drop (final_design data selected y) "response" = Some exog /\
      _model_warnings Model OLS_fit (final_design data selected y)
      = match under_filters Model (OLS_fit y exog) with
        | inr model => Returned (Some model)
        | inl e => if is_Exception e then Returned None else Raised e
        end /\
      getitem exog "Intercept" = Some (ones (List.length y)) /\
      getitem exog "response" = None /\
      (forall c, c <> "Intercept" -> c <> "response" ->
                 getitem exog c
                 = if mem c selected then getitem data c else None) /\
      index_len exog = index_len data.
Proof.
  intros Model OLS_fit data selected y.
  assert (Hresp : getitem (final_design data selected y) "response" = Some y).
  { unfold final_design. apply getitem_setitem_same. }
  assert (Hin : In "response" (labels (final_design data selected y))).
  { apply getitem_In_labels. exists y. exact Hresp. }
  destruct (drop_present _ _ Hin) as [exog Hd].
  destruct (drop_labels _ _ _ Hd) as [_ Hlen].
  exists exog. split; [exact Hresp|]. split; [exact Hd|]. split.
  { unfold _model_warnings. rewrite Hresp, Hd. reflexivity. }
  split.
  { rewrite (getitem_drop _ _ _ "Intercept" Hd). simpl.
    unfold final_design. rewrite getitem_setitem_other by discriminate.
    apply getitem_setitem_same. }
  split.
  { rewrite (getitem_drop _ _ _ "response" Hd). reflexivity. }
  split; [|exact Hlen].
  intros c Hi Hr. rewrite (getitem_drop _ _ _ c Hd).
  destruct (String.eqb "response" c) eqn:E.
  - apply String.eqb_eq in E. congruence.
  - unfold final_design. rewrite !getitem_setitem_other by assumption.
    apply getitem_df_filter.
Qed.

(** ** The columns of the expanded frame *)

Lemma combinations_length {A : Type} (l : list A) (r : nat) :
  List.length (combinations l r) = choose (List.length l) r.
Proof.
  revert r. induction l as [|x l IH]; intros [|r]; simpl; try reflexivity.
  rewrite length_app, length_map, !IH. reflexivity.
Qed.

Lemma combinations_NoDup (l : list string) (r : nat) :
  NoDup l -> NoDup (combinations l r).
Proof.
  revert r. induction l as [|x l IH]; intros [|r] Hnd; simpl.
  - constructor; [intros [] | constructor].
  - constructor.
  - constructor; [intros [] | constructor].
  - inversion Hnd as [|? ? Hx Hl]; subst. apply NoDup_app.
    + apply NoDup_map_NoDup_ForallPairs; [|apply IH; exact Hl].
      intros a b _ _ Hab. inversion Hab. reflexivity.
    + apply IH. exact Hl.
    + intros c Hc1 Hc2. apply in_map_iff in Hc1. destruct Hc1 as [c' [<- _]].
      destruct (combinations_spec _ _ _ Hc2) as [Hincl _].
      apply Hx. apply Hincl. left. reflexivity.
Qed.

Lemma flat_map_map {A B C : Type} (f : B -> C) (g : A -> list B) (l : list A) :
  flat_map (fun i => map f (g i)) l = map f (flat_map g l).
Proof.
  induction l as [|a l IH]; simpl; [reflexivity|].
  rewrite map_app, IH. reflexivity.
Qed.

Lemma combinations_of_all_sizes_NoDup (l : list string) (sizes : list nat) :
  NoDup l -> NoDup sizes -> NoDup (flat_map (combinations l) sizes).
Proof.
  intros Hl. induction sizes as [|i sizes IH]; intros Hs; simpl.
  - constructor.
  - inversion Hs as [|? ? Hi Hrest]; subst. apply NoDup_app.
    + apply combinations_NoDup. exact Hl.
    + apply IH. exact Hrest.
    + intros c Hc1 Hc2. apply in_flat_map in Hc2. destruct Hc2 as [j [Hj Hc2]].
      destruct (combinations_spec _ _ _ Hc1) as [_ L1].
      destruct (combinations_spec _ _ _ Hc2) as [_ L2].
      apply Hi. rewrite <- L1, L2. exact Hj.
Qed.

Lemma singletons_join (l : list string) :
  map join_star (combinations l 1) = l.
Proof.
  induction l as [|x l IH]; simpl; [reflexivity|].
  destruct l as [|z l]; [reflexivity|].
  simpl in *. rewrite IH. reflexivity.
Qed.

Lemma assign_frame_app cur a b :
  assign_frame cur (a ++ b) = assign_frame (assign_frame cur a) b.
Proof.
  revert cur. induction a as [|x a IH]; intros cur; simpl; [reflexivity|].
  apply IH.
Qed.

Lemma labels_assign_frame cur names :
  labels (assign_frame cur names) = fold_left add_label names (labels cur).
Proof.
  revert cur. induction names as [|name rest IH]; intros cur; simpl.
  - reflexivity.
  - rewrite IH. f_equal. unfold labels, typed_setitem, setitem. simpl.
    apply set_col_labels.
Qed.

Lemma add_labels_present ls names :
  (forall x, In x names -> In x ls) -> fold_left add_label names ls = ls.
Proof.
  induction names as [|x names IH]; simpl; intros H; [reflexivity|].
  unfold add_label at 2.
  rewrite (proj2 (mem_In x ls) (H x (or_introl eq_refl))).
  apply IH. intros z Hz. apply H. right. exact Hz.
Qed.

Lemma add_labels_fresh ls names :
  NoDup names -> (forall x, In x names -> ~ In x ls) ->
  fold_left add_label names ls = ls ++ names.
Proof.
  revert ls. induction names as [|x names IH]; simpl; intros ls Hnd H.
  - rewrite app_nil_r. reflexivity.
  - inversion Hnd as [|? ? Hx Hrest]; subst. unfold add_label at 2.
    rewrite (proj2 (mem_not_In x ls) (H x (or_introl eq_refl))).
    rewrite IH; [rewrite <- app_assoc; reflexivity | exact Hrest |].
    intros z Hz Hin. apply in_app_or in Hin. destruct Hin as [Hin|[Hin|[]]].
    + exact (H z (or_intror Hz) Hin).
    + subst z. contradiction.
Qed.

Lemma interaction_names_NoDup (base : list string) (start len : nat) :
  NoDup base ->
  (1 <= start)%nat ->
  (forall c, In c base -> contains_star c = false) ->
  NoDup (interaction_names base (seq start len)).
Proof.
  intros Hnd Hstart Hfree. unfold interaction_names. rewrite flat_map_map.
  apply NoDup_map_NoDup_ForallPairs.
  - intros a b Ha Hb Hab.
    assert (Hsplit : forall c, In c (flat_map (combinations base) (seq start len)) ->
                               split_star (join_star c) = c).
    { intros c Hc. apply in_flat_map in Hc. destruct Hc as [i [Hi Hc]].
      apply in_seq in Hi. destruct (combinations_spec _ _ _ Hc) as [Hincl Hlen].
      apply split_join.
      - intros ->. simpl in Hlen. subst i. destruct Hi as [Hi _].
        exact (Nat.nle_succ_0 _ (Nat.le_trans _ _ _ Hstart Hi)).
      - apply Forall_forall. intros z Hz. apply Hfree. apply Hincl. exact Hz. }
    rewrite <- (Hsplit a Ha), <- (Hsplit b Hb), Hab. reflexivity.
  - apply combinations_of_all_sizes_NoDup; [exact Hnd | apply seq_NoDup].
Qed.

(** X7.  For a frame with unique labels that contain no ["*"], the frame
    that [_gen_interaction_df] returns for a degree of at least one has the
    original columns, in their order, followed by one column for each
    combination of two up to [degree] columns other than the response,
    ordered by size and within a size as [combinations] yields them; their
    number is the sum of the binomial coefficients. *)
Theorem X7_columns_of_the_expanded_frame :
  forall (Sto : store) (df : ref) (response : string) (degree : nat),
    well_formed (deref Sto df) ->
    In response (labels (deref Sto df)) ->
    (forall c, In c (labels (deref Sto df)) -> contains_star c = false) ->
    exists Sto',
      _gen_interaction_df Sto df response (S degree)
      = (Sto', inr (List.length Sto)) /\
      labels (deref Sto' (List.length Sto))
      = labels (deref Sto df)
        ++ interaction_names
             (filter (fun c => negb (String.eqb response c))
                     (labels (deref Sto df)))
             (seq 2 degree) /\
      List.length (labels (deref Sto' (List.length Sto)))
      = (List.length (labels (deref Sto df))
         + list_sum
             (map (choose (List.length
                             (filter (fun c => negb (String.eqb response c))
                                     (labels (deref Sto df)))))
                  (seq 2 degree)))%nat.
Proof.
  intros Sto df response degree Hwf Hresp Hfree.
  set (d := deref Sto df) in *.
  set (base := filter (fun c => negb (String.eqb response c)) (labels d)).
  destruct (drop_present d response Hresp) as [dd Hdrop].
  destruct (drop_labels d response dd Hdrop) as [Hbase _]. fold base in Hbase.
  assert (Hgen : _gen_interaction_df Sto df response (S degree)
                 = (Sto ++ [assign_frame d
                              (interaction_names base (seq 1 (S degree)))],
                    inr (List.length Sto))).
  { unfold _gen_interaction_df, df_copy. rewrite deref_app_new. fold d.
    rewrite (name_combinations_from_spec d response dd _ [] Hdrop). simpl app.
    rewrite Hbase. rewrite assign_products_app. reflexivity. }
  assert (Hlab : labels (assign_frame d (interaction_names base (seq 1 (S degree))))
                 = labels d ++ interaction_names base (seq 2 degree)).
  { change (interaction_names base (seq 1 (S degree)))
      with (map join_star (combinations base 1)
            ++ interaction_names base (seq 2 degree)).
    rewrite singletons_join, assign_frame_app, !labels_assign_frame.
    rewrite (add_labels_present (labels d) base).
    - apply add_labels_fresh.
      + apply interaction_names_NoDup.
        * apply NoDup_filter. apply Hwf.
        * apply Nat.le_succ_diag_r.
        * intros c Hc. apply Hfree. apply filter_In in Hc. tauto.
      + intros x Hx Hin. apply Hfree in Hin.
        unfold interaction_names in Hx. apply in_flat_map in Hx.
        destruct Hx as [i [Hi Hx]]. apply in_map_iff in Hx.
        destruct Hx as [c [<- Hc]]. apply in_seq in Hi.
        destruct (combinations_spec _ _ _ Hc) as [_ Hlen].
        rewrite join_contains_star in Hin; [discriminate|].
        rewrite Hlen. apply Hi.
    - intros x Hx. apply filter_In in Hx. tauto. }
  exists (Sto ++ [assign_frame d (interaction_names base (seq 1 (S degree)))]).
  split; [exact Hgen|]. rewrite deref_app_new. split; [exact Hlab|].
  rewrite Hlab, length_app. f_equal.
  unfold interaction_names. rewrite length_flat_map. f_equal.
  apply map_ext. intros i. rewrite length_map. apply combinations_length.
Qed.

(** Three columns besides the response, degree three: the three pairs and
    the one triple are added, in this order. *)
Lemma X7_three_columns :
  exists Sto',
    _gen_interaction_df
      [mkTyped (mkDF 1 [("y", [1]); ("a", [2]); ("b", [3]); ("c", [5])]) []]
      0%nat "y" 3
    = (Sto', inr 1%nat) /\
    labels (deref Sto' 1%nat)
    = ["y"; "a"; "b"; "c"; "a*b"; "a*c"; "b*c"; "a*b*c"] /\
    List.length (labels (deref Sto' 1%nat)) = 8%nat.
Proof.
  destruct (X7_columns_of_the_expanded_frame
              [mkTyped (mkDF 1 [("y", [1]); ("a", [2]); ("b", [3]); ("c", [5])]) []]
              0%nat "y" 2) as [Sto' [Hgen [Hlab Hlen]]].
  - split.
    + repeat constructor; simpl; intuition discriminate.
    + repeat constructor.
  - simpl. auto.
  - intros c [<-|[<-|[<-|[<-|[]]]]]; reflexivity.
  - exists Sto'. split; [exact Hgen|]. split; [exact Hlab | exact Hlen].
Defined.

(** * The plugin around the engine *)

Import Plugin.

(** ** Dictionaries *)

Lemma dict_get_In_keys {V : Type} (k : string) (d : pydict V) :
  dict_get k d <> None <-> In k (dict_keys d).
Proof.
  induction d as [|[k' v] d IH]; simpl.
  - split; [congruence | intros []].
  - destruct (String.eqb_spec k k') as [->|Hne].
    + split; [intros _; left; reflexivity | congruence].
    + rewrite IH. split; [intros H; right; exact H|].
      intros [H|H]; [congruence | exact H].
Qed.

Lemma dict_get_not_In {V : Type} (k : string) (d : pydict V) :
  dict_get k d = None <-> ~ In k (dict_keys d).
Proof.
  rewrite <- dict_get_In_keys. destruct (dict_get k d); split; intros H; try congruence.
  exfalso. apply H. congruence.
Qed.

Lemma dict_get_In {V : Type} (k : string) (v : V) (d : pydict V) :
  dict_get k d = Some v -> In (k, v) d.
Proof.
  induction d as [|[k' w] d IH]; simpl; [congruence|].
  destruct (String.eqb_spec k k') as [->|Hne].
  - intros H. inversion H. left. reflexivity.
  - intros H. right. apply IH. exact H.
Qed.

Lemma In_dict_get {V : Type} (k : string) (v : V) (d : pydict V) :
  NoDup (dict_keys d) -> In (k, v) d -> dict_get k d = Some v.
Proof.
  induction d as [|[k' w] d IH]; simpl; intros Hnd H; [destruct H|].
  inversion Hnd as [|? ? Hk Hrest]; subst.
  destruct H as [H|H].
  - inversion H; subst. rewrite String.eqb_refl. reflexivity.
  - destruct (String.eqb_spec k k') as [->|Hne].
    + exfalso. apply Hk. apply (in_map fst) in H. exact H.
    + apply IH; assumption.
Qed.

Lemma dict_get_set_same {V : Type} (k : string) (v : V) (d : pydict V) :
  dict_get k (dict_set d k v) = Some v.
Proof.
  induction d as [|[k' w] d IH]; simpl.
  - rewrite String.eqb_refl. reflexivity.
  - destruct (String.eqb_spec k k') as [->|Hne]; simpl.
    + rewrite String.eqb_refl. reflexivity.
    + destruct (String.eqb_spec k k'); [contradiction | exact IH].
Qed.

Lemma dict_get_set_other {V : Type} (k k0 : string) (v : V) (d : pydict V) :
  k <> k0 -> dict_get k (dict_set d k0 v) = dict_get k d.
Proof.
  intros Hne. induction d as [|[k' w] d IH]; simpl.
  - destruct (String.eqb_spec k k0); [contradiction | reflexivity].
  - destruct (String.eqb_spec k0 k') as [->|Hne']; simpl.
    + destruct (String.eqb_spec k k'); [contradiction | reflexivity].
    + destruct (String.eqb_spec k k'); [reflexivity | exact IH].
Qed.

Lemma dict_keys_set {V : Type} (k : string) (v : V) (d : pydict V) :
  dict_keys (dict_set d k v) = add_label (dict_keys d) k.
Proof.
  unfold add_label, mem, dict_keys.
  induction d as [|[k' w] d IH]; simpl; [reflexivity|].
  destruct (String.eqb_spec k k') as [->|Hne]; simpl; [reflexivity|].
  rewrite IH.
  destruct (existsb (String.eqb k) (map fst d)); reflexivity.
Qed.

Lemma dict_set_fresh {V : Type} (k : string) (v : V) (d : pydict V) :
  ~ In k (dict_keys d) -> dict_set d k v = d ++ [(k, v)].
Proof.
  induction d as [|[k' w] d IH]; simpl; intros H; [reflexivity|].
  destruct (String.eqb_spec k k') as [->|Hne].
  - exfalso. apply H. left. reflexivity.
  - rewrite IH; [reflexivity|]. intros Hin. apply H. right. exact Hin.
Qed.

Lemma dict_get_update {V : Type} (k : string) (d other : pydict V) :
  NoDup (dict_keys other) ->
  dict_get k (dict_update d other)
  = match dict_get k other with Some v => Some v | None => dict_get k d end.
Proof.
  unfold dict_update. revert d.
  induction other as [|[k0 v0] other IH]; simpl; intros d Hnd; [reflexivity|].
  inversion Hnd as [|? ? Hk Hrest]; subst. rewrite (IH _ Hrest).
  destruct (String.eqb_spec k k0) as [->|Hne].
  - rewrite (proj2 (dict_get_not_In k0 other) Hk). apply dict_get_set_same.
  - rewrite (dict_get_set_other k k0 v0 d Hne). reflexivity.
Qed.

Lemma dict_keys_update {V : Type} (d other : pydict V) :
  dict_keys (dict_update d other) = fold_left add_label (dict_keys other) (dict_keys d).
Proof.
  unfold dict_update. revert d.
  induction other as [|[k0 v0] other IH]; simpl; intros d; [reflexivity|].
  rewrite IH, dict_keys_set. reflexivity.
Qed.

Lemma dict_update_fresh {V : Type} (d other : pydict V) :
  NoDup (dict_keys other) ->
  (forall k, In k (dict_keys other) -> ~ In k (dict_keys d)) ->
  dict_update d other = d ++ other.
Proof.
  unfold dict_update. revert d.
  induction other as [|[k0 v0] other IH]; simpl; intros d Hnd H.
  - rewrite app_nil_r. reflexivity.
  - inversion Hnd as [|? ? Hk Hrest]; subst.
    rewrite dict_set_fresh by (apply H; left; reflexivity).
    rewrite IH; [rewrite <- app_assoc; reflexivity | exact Hrest |].
    intros k Hin. unfold dict_keys. rewrite map_app, in_app_iff. simpl.
    intros [Hd | [<- | []]].
    + apply (H k); [right; exact Hin | exact Hd].
    + apply Hk. exact Hin.
Qed.

Lemma add_labels_filter (ls names : list string) :
  NoDup names ->
  fold_left add_label names ls = ls ++ filter (fun k => negb (mem k ls)) names.
Proof.
  revert ls. induction names as [|x names IH]; simpl; intros ls Hnd.
  - rewrite app_nil_r. reflexivity.
  - inversion Hnd as [|? ? Hx Hrest]; subst. rewrite (IH _ Hrest).
    unfold add_label. destruct (mem x ls) eqn:E; simpl; [reflexivity|].
    rewrite <- app_assoc. simpl. f_equal. f_equal.
    apply filter_ext_in. intros k Hk. f_equal.
    unfold mem. rewrite existsb_app. simpl.
    destruct (String.eqb_spec k x) as [->|Hne]; [contradiction|].
    rewrite !orb_false_r. reflexivity.
Qed.

(** X9. [theme_layout] raises [KeyError] when the theme has no "layout"
    entry; otherwise every key of the result has the value of
    [specific_layout] if it is set there and the theme's value if not, and
    the keys are the theme's, in their order, followed by the new ones of
    [specific_layout]. *)
Theorem X9_specific_layout_overrides_the_theme (V : Type)
    (theme : pydict (pydict V)) (specific_layout : pydict V) :
  (dict_get "layout" theme = None -> theme_layout theme specific_layout = None) /\
  (forall entries,
     dict_get "layout" theme = Some entries ->
     NoDup (dict_keys entries) -> NoDup (dict_keys specific_layout) ->
     exists layout,
       theme_layout theme specific_layout = Some layout /\
       (forall k, dict_get k layout
                  = match dict_get k specific_layout with
                    | Some v => Some v
                    | None => dict_get k entries
                    end) /\
       dict_keys layout
       = dict_keys entries
         ++ filter (fun k => negb (mem k (dict_keys entries)))
                   (dict_keys specific_layout)).
Proof.
  unfold theme_layout. split.
  - intros ->. reflexivity.
  - intros entries -> Hne Hns. eexists. split; [reflexivity|].
    rewrite (dict_update_fresh [] entries Hne) by (intros k _ []). simpl. split.
    + intros k. apply dict_get_update. exact Hns.
    + rewrite dict_keys_update. apply add_labels_filter. exact Hns.
Qed.

Lemma X9_height_overridden :
  exists layout,
    theme_layout [("layout", [("height", 300%Z); ("width", 700%Z)])]
                 [("barmode", 1%Z); ("height", 500%Z)] = Some layout /\
    dict_get "height" layout = Some 500%Z /\
    dict_get "width" layout = Some 700%Z /\
    dict_keys layout = ["height"; "width"; "barmode"].
Proof.
  destruct (proj2 (X9_specific_layout_overrides_the_theme Z
              [("layout", [("height", 300%Z); ("width", 700%Z)])]
              [("barmode", 1%Z); ("height", 500%Z)])
              [("height", 300%Z); ("width", 700%Z)])
    as [layout [E [Hget Hkeys]]].
  - reflexivity.
  - repeat constructor; simpl; intuition congruence.
  - repeat constructor; simpl; intuition congruence.
  - exists layout. split; [exact E|]. rewrite !Hget, Hkeys.
    repeat split; reflexivity.
Defined.

(** ** Response filters *)

Lemma filteroptions_from_spec {V : Type} (items : pydict string)
    (pre suf : list V) (acc : list (filter_option V)) :
  filteroptions_from items (List.length pre) (pre ++ suf) acc
  = if (List.length items <=? List.length suf)%nat
    then inr (acc ++ map (fun p => mkOption (fst (fst p)) (snd (fst p)) (snd p))
                         (combine items suf))
    else inl IndexError_out_of_range.
Proof.
  revert pre suf acc.
  induction items as [|[col_name col_type] items IH]; intros pre suf acc; simpl.
  - rewrite app_nil_r. reflexivity.
  - rewrite nth_error_app2 by apply Nat.le_refl. rewrite Nat.sub_diag.
    destruct suf as [|v suf]; simpl; [reflexivity|].
    replace (S (List.length pre)) with (List.length (pre ++ [v]))
      by (rewrite length_app; simpl; apply Nat.add_1_r).
    replace (pre ++ v :: suf) with ((pre ++ [v]) ++ suf)
      by (rewrite <- app_assoc; reflexivity).
    rewrite IH. destruct (List.length items <=? List.length suf)%nat; [|reflexivity].
    rewrite <- app_assoc. reflexivity.
Qed.

Lemma filteroptions_from_start {V : Type} (items : pydict string) (filters : list V) :
  filteroptions_from items 0 filters []
  = if (List.length items <=? List.length filters)%nat
    then inr (map (fun p => mkOption (fst (fst p)) (snd (fst p)) (snd p))
                  (combine items filters))
    else inl IndexError_out_of_range.
Proof. exact (filteroptions_from_spec items [] filters []). Qed.

(** X10. [make_response_filters] returns the empty list when the callback
    passes no filter value, whatever [response_filters] holds; with filter
    values, it pairs the filters with the values by position when there is
    a value for every filter (values beyond the last filter are ignored),
    and raises [IndexError] when there are fewer values than filters. *)
Theorem X10_filter_values_are_paired_by_position (V : Type)
    (response_filters : pydict string) (filters : list V) :
  (filters = [] -> make_response_filters response_filters filters = inr []) /\
  (filters <> [] ->
   (List.length response_filters <= List.length filters)%nat ->
   make_response_filters response_filters filters
   = inr (map (fun p => mkOption (fst (fst p)) (snd (fst p)) (snd p))
              (combine response_filters filters))) /\
  (filters <> [] ->
   (List.length filters < List.length response_filters)%nat ->
   make_response_filters response_filters filters = inl IndexError_out_of_range).
Proof.
  unfold make_response_filters. split; [|split].
  - intros ->. reflexivity.
  - intros Hne Hle. destruct filters as [|v filters]; [congruence|].
    rewrite filteroptions_from_start.
    apply Nat.leb_le in Hle. rewrite Hle. reflexivity.
  - intros Hne Hlt. destruct filters as [|v filters]; [congruence|].
    rewrite filteroptions_from_start.
    apply Nat.leb_gt in Hlt. rewrite Hlt. reflexivity.
Qed.

Lemma X10_two_filters :
  make_response_filters [("ZONE", "multi"); ("REGION", "single")] [[1%Z; 2%Z]; [3%Z]; [4%Z]]
  = inr [mkOption "ZONE" "multi" [1%Z; 2%Z]; mkOption "REGION" "single" [3%Z]]
  /\ make_response_filters [("ZONE", "multi"); ("REGION", "single")] [[1%Z; 2%Z]]
     = inl IndexError_out_of_range.
Proof.
  split.
  - apply (proj1 (proj2 (X10_filter_values_are_paired_by_position (list Z)
              [("ZONE", "multi"); ("REGION", "single")] [[1%Z; 2%Z]; [3%Z]; [4%Z]]))).
    + discriminate.
    + simpl. lia.
  - apply (proj2 (proj2 (X10_filter_values_are_paired_by_position (list Z)
              [("ZONE", "multi"); ("REGION", "single")] [[1%Z; 2%Z]]))).
    + discriminate.
    + simpl. lia.
Defined.

Lemma make_response_filters_inr {V : Type} (response_filters : pydict string)
    (filters : list V) (opts : list (filter_option V)) :
  make_response_filters response_filters filters = inr opts ->
  opts = [] \/
  opts = map (fun p => mkOption (fst (fst p)) (snd (fst p)) (snd p))
             (combine response_filters filters)
  /\ (List.length response_filters <= List.length filters)%nat.
Proof.
  unfold make_response_filters. destruct filters as [|v filters].
  - intros H. inversion H. left. reflexivity.
  - rewrite filteroptions_from_start.
    destruct (List.length response_filters <=? List.length (v :: filters))%nat eqn:E;
      [|discriminate].
    intros H. inversion H. right. split; [reflexivity|].
    apply Nat.leb_le. exact E.
Qed.

Lemma nth_error_combine {A B : Type} (l : list A) (l' : list B) (i : nat) (a : A) (b : B) :
  nth_error (combine l l') i = Some (a, b) ->
  nth_error l i = Some a /\ nth_error l' i = Some b.
Proof.
  revert l' i. induction l as [|x l IH]; intros l' i; simpl.
  - destruct i; discriminate.
  - destruct l' as [|y l']; [destruct i; discriminate|].
    destruct i as [|i]; simpl.
    + intros H. inversion H. split; reflexivity.
    + apply IH.
Qed.

(** X11. The filter [State]s of [model_input_callbacks] follow its seven
    fixed ones in the order of [response_filters], which is the order
    [make_response_filters] reads the values in: entry [i] of its result
    has the value at position [i] of [filters], and [State] [7 + i] is the
    "value" of the component of that entry's column. *)
Theorem X11_filter_values_meet_their_columns (V : Type) (uid : string)
    (response_filters : pydict string) (filters : list V)
    (opts : list (filter_option V)) (i : nat) (o : filter_option V) :
  make_response_filters response_filters filters = inr opts ->
  nth_error opts i = Some o ->
  nth_error filters i = Some (fo_values o) /\
  nth_error (model_input_callbacks uid response_filters) (7 + i)
  = Some (ids uid (String.append "filter-" (fo_name o)), "value").
Proof.
  intros H Hi. apply make_response_filters_inr in H.
  destruct H as [-> | [-> Hle]]; [destruct i; discriminate|].
  rewrite nth_error_map in Hi.
  destruct (nth_error (combine response_filters filters) i) as [[[n t] v]|] eqn:E;
    [|discriminate].
  simpl in Hi. inversion Hi; subst o. simpl.
  apply nth_error_combine in E. destruct E as [E1 E2]. split; [exact E2|].
  rewrite nth_error_map, E1. reflexivity.
Qed.

Lemma X11_second_filter :
  nth_error [[1%Z; 2%Z]; [3%Z]] 1 = Some [3%Z] /\
  nth_error (model_input_callbacks "u" [("ZONE", "multi"); ("REGION", "single")]) 8
  = Some (ids "u" "filter-REGION", "value").
Proof.
  apply (X11_filter_values_meet_their_columns (list Z) "u"
           [("ZONE", "multi"); ("REGION", "single")] [[1%Z; 2%Z]; [3%Z]]
           [mkOption "ZONE" "multi" [1%Z; 2%Z]; mkOption "REGION" "single" [3%Z]]
           1 (mkOption "REGION" "single" [3%Z])); reflexivity.
Defined.

Lemma check_response_filters_cases (columns : list string) (response_filters : pydict string) :
  match check_response_filters columns response_filters with
  | None =>
      forall col_name col_type, In (col_name, col_type) response_filters ->
        In col_name columns /\ In col_type ["single"; "multi"; "range"]
  | Some e =>
      exists before col_name col_type rest,
        response_filters = before ++ (col_name, col_type) :: rest /\
        check_response_filters columns before = None /\
        (~ In col_name columns /\ e = ValueError_not_in_response_file col_name
         \/ In col_name columns /\ ~ In col_type ["single"; "multi"; "range"]
            /\ e = ValueError_filter_type col_type col_name)
  end.
Proof.
  induction response_filters as [|[n t] rf IH].
  - simpl. intros ? ? [].
  - cbn [check_response_filters].
    destruct (mem n columns) eqn:En; cbn [negb].
    + destruct (mem t ["single"; "multi"; "range"]) eqn:Et; cbn [negb].
      * destruct (check_response_filters columns rf) as [e|].
        -- destruct IH as [before [cn [ct [rest [-> [Hb Hc]]]]]].
           exists ((n, t) :: before), cn, ct, rest. split; [reflexivity|].
           split; [|exact Hc]. cbn [check_response_filters].
           rewrite En, Et. exact Hb.
        -- intros cn ct [H|H].
           ++ inversion H; subst. split; apply mem_In; assumption.
           ++ apply IH. exact H.
      * exists [], n, t, rf. split; [reflexivity|]. split; [reflexivity|].
        right. split; [apply mem_In; exact En|]. split; [|reflexivity].
        apply mem_not_In. exact Et.
    + exists [], n, t, rf. split; [reflexivity|]. split; [reflexivity|].
      left. split; [apply mem_not_In; exact En | reflexivity].
Qed.

(** X12. [check_response_filters] raises nothing exactly when every filter
    names a column of the response frame and has one of the types
    "single", "multi" and "range"; when it raises, the error is about the
    first filter that fails, the missing column being reported before the
    type. *)
Theorem X12_response_filters_accepted (columns : list string)
    (response_filters : pydict string) :
  (check_response_filters columns response_filters = None <->
   forall col_name col_type, In (col_name, col_type) response_filters ->
     In col_name columns /\ In col_type ["single"; "multi"; "range"]) /\
  (forall e, check_response_filters columns response_filters = Some e ->
     exists before col_name col_type rest,
       response_filters = before ++ (col_name, col_type) :: rest /\
       check_response_filters columns before = None /\
       (~ In col_name columns /\ e = ValueError_not_in_response_file col_name
        \/ In col_name columns /\ ~ In col_type ["single"; "multi"; "range"]
           /\ e = ValueError_filter_type col_type col_name)).
Proof.
  pose proof (check_response_filters_cases columns response_filters) as H.
  destruct (check_response_filters columns response_filters) as [e|].
  - split; [|intros e' E; inversion E; subst; exact H].
    split; [discriminate|]. intros Hall. exfalso.
    destruct H as [before [cn [ct [rest [-> [_ Hc]]]]]].
    destruct (Hall cn ct) as [Hn Ht]; [apply in_app_iff; right; left; reflexivity|].
    destruct Hc as [[Hc _] | [_ [Hc _]]]; contradiction.
  - split; [|discriminate]. split; [intros _; exact H | reflexivity].
Qed.

Lemma X12_filters_checked :
  check_response_filters ["REAL"; "ZONE"; "FOPT"] [("ZONE", "multi")] = None /\
  exists before col_name col_type rest,
    [("ZONE", "multi"); ("REGION", "list"); ("FOPT", "range")]
    = before ++ (col_name, col_type) :: rest /\
    check_response_filters ["REAL"; "ZONE"; "FOPT"] before = None /\
    (~ In col_name ["REAL"; "ZONE"; "FOPT"]
     /\ ValueError_not_in_response_file "REGION" = ValueError_not_in_response_file col_name
     \/ In col_name ["REAL"; "ZONE"; "FOPT"]
        /\ ~ In col_type ["single"; "multi"; "range"]
        /\ ValueError_not_in_response_file "REGION" = ValueError_filter_type col_type col_name).
Proof.
  split.
  - apply (proj1 (X12_response_filters_accepted ["REAL"; "ZONE"; "FOPT"] [("ZONE", "multi")])).
    intros cn ct [H|[]]. inversion H; subst. simpl. auto.
  - apply (proj2 (X12_response_filters_accepted ["REAL"; "ZONE"; "FOPT"]
                    [("ZONE", "multi"); ("REGION", "list"); ("FOPT", "range")])).
    reflexivity.
Defined.

(** ** Runs *)

Section Sorting.

Context {A : Type}.
Variable dec : forall a b : A, {a = b} + {a <> b}.
Variable leb : A -> A -> bool.
Hypothesis leb_total : forall a b, leb a b = true \/ leb b a = true.
Hypothesis leb_antisym : forall a b, leb a b = true -> leb b a = true -> a = b.
Hypothesis leb_trans : forall a b c, leb a b = true -> leb b c = true -> leb a c = true.

Lemma unique_from_In (seen l : list A) (x : A) :
  In x (unique_from dec seen l) <-> In x l /\ ~ In x seen.
Proof.
  revert seen. induction l as [|y l IH]; intros seen; simpl.
  - tauto.
  - destruct (in_dec dec y seen) as [Hy|Hy].
    + rewrite IH. split.
      * intros [H1 H2]. tauto.
      * intros [[->|H1] H2]; [contradiction | tauto].
    + simpl. rewrite IH. simpl. split.
      * intros [->|[H1 H2]]; [tauto|]. split; [tauto|]. intros H. apply H2. right. exact H.
      * intros [[->|H1] H2]; [left; reflexivity|].
        destruct (dec y x) as [->|Hne]; [left; reflexivity|].
        right. split; [exact H1|]. intros [H|H]; [contradiction | contradiction].
Qed.

Lemma unique_from_NoDup (seen l : list A) : NoDup (unique_from dec seen l).
Proof.
  revert seen. induction l as [|y l IH]; intros seen; simpl; [constructor|].
  destruct (in_dec dec y seen); [apply IH|].
  constructor; [|apply IH]. rewrite unique_from_In. intros [_ H]. apply H. left. reflexivity.
Qed.

Lemma unique_In (l : list A) (x : A) : In x (unique dec l) <-> In x l.
Proof. unfold unique. rewrite unique_from_In. simpl. tauto. Qed.

Lemma unique_NoDup (l : list A) : NoDup (unique dec l).
Proof. apply unique_from_NoDup. Qed.

Lemma insert_sorted_In (x y : A) (l : list A) :
  In y (insert_sorted leb x l) <-> y = x \/ In y l.
Proof.
  induction l as [|z l IH]; simpl.
  - split; [intros [H|[]]; left; auto | intros [H|[]]; left; auto].
  - destruct (leb x z); simpl; [split; intros [H|H]; auto|].
    rewrite IH. split.
    + intros [H|[H|H]]; auto.
    + intros [H|[H|H]]; auto.
Qed.

Lemma sorted_In (x : A) (l : list A) : In x (sorted leb l) <-> In x l.
Proof.
  induction l as [|y l IH]; simpl; [tauto|].
  rewrite insert_sorted_In, IH. split; intros [H|H]; auto.
Qed.

Lemma insert_sorted_NoDup (x : A) (l : list A) :
  ~ In x l -> NoDup l -> NoDup (insert_sorted leb x l).
Proof.
  induction l as [|z l IH]; simpl; intros Hx Hnd.
  - constructor; [intros [] | constructor].
  - destruct (leb x z); [constructor; assumption|].
    inversion Hnd as [|? ? Hz Hrest]; subst. constructor.
    + rewrite insert_sorted_In. intros [->|H]; [apply Hx; left; reflexivity | contradiction].
    + apply IH; [intros H; apply Hx; right; exact H | exact Hrest].
Qed.

Lemma sorted_NoDup (l : list A) : NoDup l -> NoDup (sorted leb l).
Proof.
  induction l as [|y l IH]; simpl; intros Hnd; [constructor|].
  inversion Hnd as [|? ? Hy Hrest]; subst.
  apply insert_sorted_NoDup; [rewrite sorted_In; exact Hy | apply IH; exact Hrest].
Qed.

Lemma insert_sorted_ordered (x : A) (l : list A) :
  StronglySorted (fun a b => leb a b = true) l ->
  StronglySorted (fun a b => leb a b = true) (insert_sorted leb x l).
Proof.
  induction l as [|z l IH]; simpl; intros Hs.
  - constructor; constructor.
  - inversion Hs as [|? ? Hrest Hall]; subst.
    destruct (leb x z) eqn:E.
    + constructor; [exact Hs|]. constructor; [exact E|].
      rewrite Forall_forall in *. intros w Hw. apply (leb_trans x z w E (Hall w Hw)).
    + constructor; [apply IH; exact Hrest|].
      rewrite Forall_forall in *. intros w Hw. apply insert_sorted_In in Hw.
      destruct Hw as [->|Hw]; [|apply Hall; exact Hw].
      destruct (leb_total z x) as [H|H]; [exact H | congruence].
Qed.

Lemma sorted_ordered (l : list A) :
  StronglySorted (fun a b => leb a b = true) (sorted leb l).
Proof.
  induction l as [|y l IH]; simpl; [constructor|].
  apply insert_sorted_ordered. exact IH.
Qed.

Lemma ordered_lists_with_the_same_elements (l1 l2 : list A) :
  StronglySorted (fun a b => leb a b = true) l1 ->
  StronglySorted (fun a b => leb a b = true) l2 ->
  NoDup l1 -> NoDup l2 ->
  (forall x, In x l1 <-> In x l2) -> l1 = l2.
Proof.
  revert l2. induction l1 as [|x l1 IH]; intros l2 Hs1 Hs2 Hn1 Hn2 Hsame.
  - destruct l2 as [|y l2]; [reflexivity|].
    exfalso. apply (proj2 (Hsame y)). left. reflexivity.
  - destruct l2 as [|y l2]; [exfalso; apply (proj1 (Hsame x)); left; reflexivity|].
    inversion Hs1 as [|? ? Hs1' Hall1]; subst.
    inversion Hs2 as [|? ? Hs2' Hall2]; subst.
    inversion Hn1 as [|? ? Hx1 Hn1']; subst.
    inversion Hn2 as [|? ? Hy2 Hn2']; subst.
    rewrite Forall_forall in Hall1, Hall2.
    assert (Exy : x = y).
    { destruct (proj1 (Hsame x) (or_introl eq_refl)) as [H|H]; [symmetry; exact H|].
      destruct (proj2 (Hsame y) (or_introl eq_refl)) as [H'|H']; [exact H'|].
      apply leb_antisym; [apply Hall1; exact H' | apply Hall2; exact H]. }
    subst y. f_equal. apply IH; try assumption.
    intros z. split; intros Hz.
    + destruct (proj1 (Hsame z) (or_intror Hz)) as [H|H]; [subst; contradiction | exact H].
    + destruct (proj2 (Hsame z) (or_intror Hz)) as [H|H]; [subst; contradiction | exact H].
Qed.

Lemma sorted_unique_eq_iff (l1 l2 : list A) :
  sorted leb (unique dec l1) = sorted leb (unique dec l2)
  <-> (forall x, In x l1 <-> In x l2).
Proof.
  split.
  - intros E x. rewrite <- (unique_In l1), <- (unique_In l2).
    rewrite <- (sorted_In x (unique dec l1)), <- (sorted_In x (unique dec l2)), E.
    tauto.
  - intros Hsame. apply ordered_lists_with_the_same_elements.
    + apply sorted_ordered.
    + apply sorted_ordered.
    + apply sorted_NoDup, unique_NoDup.
    + apply sorted_NoDup, unique_NoDup.
    + intros x. rewrite !sorted_In, !unique_In. apply Hsame.
Qed.

End Sorting.

Lemma ascii_compare_cases (a b : ascii) :
  match Ascii.compare a b with
  | Eq => a = b
  | Lt => (N_of_ascii a < N_of_ascii b)%N
  | Gt => (N_of_ascii b < N_of_ascii a)%N
  end.
Proof.
  destruct (Ascii.compare a b) eqn:E.
  - apply Ascii.compare_eq_iff. exact E.
  - unfold Ascii.compare in E. apply N.compare_lt_iff. exact E.
  - unfold Ascii.compare in E. apply N.compare_gt_iff. exact E.
Qed.

Lemma string_leb_trans (a b c : string) :
  String.leb a b = true -> String.leb b c = true -> String.leb a c = true.
Proof.
  unfold String.leb. revert b c.
  induction a as [|x a IH]; intros [|y b] [|z c]; simpl; try congruence.
  pose proof (ascii_compare_cases x y) as Hxy.
  pose proof (ascii_compare_cases y z) as Hyz.
  pose proof (ascii_compare_cases x z) as Hxz.
  destruct (Ascii.compare x y); try congruence;
    destruct (Ascii.compare y z); try congruence;
    destruct (Ascii.compare x z); subst; try congruence; try lia.
  apply IH.
Qed.

Lemma Z_leb_total (a b : Z) : (a <=? b)%Z = true \/ (b <=? a)%Z = true.
Proof. rewrite !Z.leb_le. lia. Qed.

Lemma Z_leb_antisym (a b : Z) : (a <=? b)%Z = true -> (b <=? a)%Z = true -> a = b.
Proof. rewrite !Z.leb_le. lia. Qed.

Lemma Z_leb_trans (a b c : Z) :
  (a <=? b)%Z = true -> (b <=? c)%Z = true -> (a <=? c)%Z = true.
Proof. rewrite !Z.leb_le. lia. Qed.

(** X13. For frames that both have the columns "ENSEMBLE" and "REAL",
    [check_runs] raises nothing exactly when the two frames hold the same
    ensemble names and the same realization numbers, whatever the order and
    the number of rows they occur in; otherwise it raises the [ValueError]
    on different runs. *)
Theorem X13_same_runs (parameterdf responsedf : run_columns)
    (pe re : list string) (pr rr : list Z) :
  col_ENSEMBLE parameterdf = Some pe -> col_ENSEMBLE responsedf = Some re ->
  col_REAL parameterdf = Some pr -> col_REAL responsedf = Some rr ->
  (check_runs parameterdf responsedf = None <->
   (forall e, In e pe <-> In e re) /\ (forall r, In r pr <-> In r rr)) /\
  (check_runs parameterdf responsedf <> None ->
   check_runs parameterdf responsedf = Some ValueError_different_runs).
Proof.
  intros Hpe Hre Hpr Hrr. unfold check_runs. rewrite Hpe, Hre, Hpr, Hrr.
  pose proof (sorted_unique_eq_iff string_dec String.leb String.leb_total
                String.leb_antisym string_leb_trans pe re) as He.
  pose proof (sorted_unique_eq_iff Z.eq_dec Z.leb Z_leb_total
                Z_leb_antisym Z_leb_trans pr rr) as Hr.
  destruct (list_eq_dec string_dec (sorted String.leb (unique string_dec pe))
                                   (sorted String.leb (unique string_dec re))) as [E1|E1].
  - destruct (list_eq_dec Z.eq_dec (sorted Z.leb (unique Z.eq_dec pr))
                                   (sorted Z.leb (unique Z.eq_dec rr))) as [E2|E2].
    + split; [|congruence]. split; [|reflexivity].
      intros _. split; [apply He; exact E1 | apply Hr; exact E2].
    + split; [|reflexivity]. split; [discriminate|].
      intros [_ H]. exfalso. apply E2, Hr, H.
  - split; [|reflexivity]. split; [discriminate|].
    intros [H _]. exfalso. apply E1, He, H.
Qed.

Lemma X13_rows_in_another_order :
  check_runs (mkRuns (Some ["iter-0"; "iter-0"; "iter-1"]) (Some [0; 1; 0]%Z))
             (mkRuns (Some ["iter-1"; "iter-0"]) (Some [1; 0; 1; 0]%Z)) = None.
Proof.
  apply (proj1 (X13_same_runs
                  (mkRuns (Some ["iter-0"; "iter-0"; "iter-1"]) (Some [0; 1; 0]%Z))
                  (mkRuns (Some ["iter-1"; "iter-0"]) (Some [1; 0; 1; 0]%Z))
                  ["iter-0"; "iter-0"; "iter-1"] ["iter-1"; "iter-0"]
                  [0; 1; 0]%Z [1; 0; 1; 0]%Z eq_refl eq_refl eq_refl eq_refl)).
  split; intros x; simpl; tauto.
Defined.

(** ** The options of the force-in selector *)

Lemma select_columns_keys {V : Type} (df sel : pydict V) (cols : list string) :
  select_columns df cols = Some sel -> dict_keys sel = cols.
Proof.
  revert sel. induction cols as [|c cols IH]; simpl; intros sel H.
  - inversion H. reflexivity.
  - destruct (dict_get c df) as [v|]; [|discriminate].
    destruct (select_columns df cols) as [sel'|]; [|discriminate].
    inversion H; subst. simpl. f_equal. apply IH. reflexivity.
Qed.

Lemma select_columns_present {V : Type} (df sel : pydict V) (cols : list string) :
  select_columns df cols = Some sel -> forall c, In c cols -> In c (dict_keys df).
Proof.
  revert sel. induction cols as [|c cols IH]; simpl; intros sel H x Hx; [destruct Hx|].
  destruct (dict_get c df) as [v|] eqn:E; [|discriminate].
  destruct (select_columns df cols) as [sel'|]; [|discriminate].
  destruct Hx as [<-|Hx]; [|apply (IH sel' eq_refl); exact Hx].
  apply dict_get_In_keys. congruence.
Qed.

Lemma dict_keys_filter {V : Type} (f : string -> bool) (d : pydict V) :
  dict_keys (filter (fun kv => f (fst kv)) d) = filter f (dict_keys d).
Proof.
  unfold dict_keys. induction d as [|[k v] d IH]; simpl; [reflexivity|].
  destruct (f k); simpl; rewrite IH; reflexivity.
Qed.

Lemma drop_columns_keys {V : Type} (df df' : pydict V) (cols : list string) :
  drop_columns df cols = Some df' ->
  dict_keys df' = filter (fun c => negb (mem c cols)) (dict_keys df).
Proof.
  unfold drop_columns. destruct (forallb _ cols); [|discriminate].
  intros H. inversion H. apply (dict_keys_filter (fun c => negb (mem c cols))).
Qed.

Lemma filter_filter {A : Type} (f g : A -> bool) (l : list A) :
  filter f (filter g l) = filter (fun x => g x && f x) l.
Proof.
  induction l as [|x l IH]; simpl; [reflexivity|].
  destruct (g x); simpl; [destruct (f x); rewrite IH; reflexivity | exact IH].
Qed.

Lemma filter_all {A : Type} (f : A -> bool) (l : list A) :
  (forall x, In x l -> f x = true) -> filter f l = l.
Proof.
  induction l as [|x l IH]; simpl; intros H; [reflexivity|].
  rewrite (H x (or_introl eq_refl)). f_equal. apply IH. intros y Hy. apply H. right. exact Hy.
Qed.

(** X14. When neither callback raises, the options [update_force_in]
    offers are, in their order, the parameter columns of the frame
    [_update_visualizations] selects for the regression (its columns other
    than "ENSEMBLE" and "REAL"), each with its label as value; in the
    inclusive mode this needs a parameter list without the two run
    columns. *)
Theorem X14_force_in_options_are_the_selected_parameters (V : Type)
    (parameterdf : pydict V) (parameter_list : list string) (exc_inc : string)
    (options : list (string * string)) (df : pydict V) :
  update_force_in parameterdf parameter_list exc_inc = inr options ->
  callback_parameterdf parameterdf parameter_list exc_inc = inr df ->
  (exc_inc = "inc" -> ~ In "ENSEMBLE" parameter_list /\ ~ In "REAL" parameter_list) ->
  map fst options
  = filter (fun c => negb (mem c ["ENSEMBLE"; "REAL"])) (dict_keys df)
  /\ map snd options = map fst options.
Proof.
  unfold update_force_in, callback_parameterdf. intros Ho Hd Hinc.
  assert (Hfst : forall l : list string, map fst (map (fun fi => (fi, fi)) l) = l)
    by (intros l; rewrite map_map; apply map_id).
  assert (Hsnd : forall l : list string, map snd (map (fun fi => (fi, fi)) l) = l)
    by (intros l; rewrite map_map; apply map_id).
  destruct (String.eqb_spec exc_inc "exc") as [->|Hexc].
  - destruct (drop_columns parameterdf (["ENSEMBLE"; "REAL"] ++ parameter_list))
      as [df1|] eqn:E1; [|discriminate].
    destruct (drop_columns parameterdf parameter_list) as [df2|] eqn:E2; [|discriminate].
    inversion Ho; subst options. inversion Hd; subst df2.
    rewrite Hfst, Hsnd. split; [|reflexivity].
    rewrite (drop_columns_keys _ _ _ E1), (drop_columns_keys _ _ _ E2).
    rewrite filter_filter. apply filter_ext. intros c.
    unfold mem. rewrite existsb_app, negb_orb. apply andb_comm.
  - destruct (String.eqb_spec exc_inc "inc") as [->|Hni]; [|discriminate].
    destruct (Hinc eq_refl) as [HE HR].
    destruct (select_columns parameterdf (["ENSEMBLE"; "REAL"] ++ parameter_list))
      as [sel|] eqn:Es; [|discriminate].
    inversion Hd; subst df. rewrite (select_columns_keys _ _ _ Es).
    assert (Hf : filter (fun c => negb (mem c ["ENSEMBLE"; "REAL"]))
                        (["ENSEMBLE"; "REAL"] ++ parameter_list) = parameter_list).
    { simpl. apply filter_all. intros c Hc.
      destruct (String.eqb_spec c "ENSEMBLE") as [->|?]; [contradiction|].
      destruct (String.eqb_spec c "REAL") as [->|?]; [contradiction|]. reflexivity. }
    rewrite Hf. destruct parameter_list as [|p pl].
    + inversion Ho. split; reflexivity.
    + destruct (select_columns parameterdf (p :: pl)) as [sel'|] eqn:Es'; [|discriminate].
      inversion Ho; subst options. rewrite (select_columns_keys _ _ _ Es').
      rewrite Hfst, Hsnd. split; reflexivity.
Qed.

Lemma X14_two_of_three_parameters :
  map fst [("PORO", "PORO"); ("MULTZ", "MULTZ")]
  = filter (fun c => negb (mem c ["ENSEMBLE"; "REAL"]))
           (dict_keys [("ENSEMBLE", 0%Z); ("REAL", 1%Z); ("PORO", 3%Z); ("MULTZ", 4%Z)])
  /\ map snd [("PORO", "PORO"); ("MULTZ", "MULTZ")]
     = map fst [("PORO", "PORO"); ("MULTZ", "MULTZ")].
Proof.
  apply (X14_force_in_options_are_the_selected_parameters Z
           [("ENSEMBLE", 0%Z); ("REAL", 1%Z); ("PERM", 2%Z); ("PORO", 3%Z); ("MULTZ", 4%Z)]
           ["PERM"] "exc").
  - reflexivity.
  - reflexivity.
  - discriminate.
Defined.

(** ** The selectors of the response filters *)

Lemma filter_layout_from_shown {V : Type} (dec : forall a b : V, {a = b} + {a <> b})
    (uid : string) (responsedf : pydict (list V)) (items : pydict string)
    (acc children : list (string * selector V)) :
  filter_layout_from dec uid responsedf items acc = inr children ->
  exists shown rest new,
    items = shown ++ rest /\ children = acc ++ new /\
    map fst new = dict_keys shown /\
    map (fun c => selector_id (snd c)) new
    = map (fun k => ids uid (String.append "filter-" k)) (dict_keys shown) /\
    (forall col_name col_type, In (col_name, col_type) shown ->
       col_type = "multi" \/ col_type = "single") /\
    match rest with
    | [] => True
    | (_, col_type) :: _ => col_type <> "multi" /\ col_type <> "single"
    end.
Proof.
  revert acc. induction items as [|[n t] items IH]; intros acc; cbn [filter_layout_from].
  - intros H. inversion H; subst. exists [], [], []. simpl. rewrite app_nil_r.
    repeat split; try reflexivity. intros ? ? [].
  - destruct (dict_get n responsedf) as [column|]; [|discriminate].
    destruct (String.eqb_spec t "multi") as [->|Hm].
    + intros H. apply IH in H.
      destruct H as [shown [rest [new [-> [-> [Hl [Hi [Ht Hr]]]]]]]].
      exists ((n, "multi") :: shown), rest,
        ((n, Select (ids uid (String.append "filter-" n)) (unique dec column)
                    (unique dec column)
                    (Nat.min 20 (List.length (unique dec column)))) :: new).
      split; [reflexivity|]. split; [rewrite <- app_assoc; reflexivity|].
      split; [simpl; f_equal; exact Hl|].
      split; [simpl; f_equal; exact Hi|].
      split; [|exact Hr].
      intros cn ct [E|Hin]; [inversion E; left; reflexivity | apply (Ht cn ct Hin)].
    + destruct (String.eqb_spec t "single") as [->|Hs].
      * destruct (unique dec column) as [|first values]; [discriminate|].
        intros H. apply IH in H.
        destruct H as [shown [rest [new [-> [-> [Hl [Hi [Ht Hr]]]]]]]].
        exists ((n, "single") :: shown), rest,
          ((n, Dropdown (ids uid (String.append "filter-" n)) (first :: values) first)
           :: new).
        split; [reflexivity|]. split; [rewrite <- app_assoc; reflexivity|].
        split; [simpl; f_equal; exact Hl|].
        split; [simpl; f_equal; exact Hi|].
        split; [|exact Hr].
        intros cn ct [E|Hin]; [inversion E; right; reflexivity | apply (Ht cn ct Hin)].
      * intros H. inversion H; subst. exists [], ((n, t) :: items), [].
        simpl. rewrite app_nil_r. repeat split; try reflexivity; try assumption.
        intros ? ? [].
Qed.

(** X15. The layout [filter_layout] returns has a selector, labelled with
    the column and carrying the id of the column's filter, for the
    response filters up to the first one whose type is neither "multi" nor
    "single", and for no filter after it: a "range" filter, and every
    filter behind it, gets no selector. *)
Theorem X15_selectors_stop_at_the_first_other_type (V : Type)
    (dec : forall a b : V, {a = b} + {a <> b}) (uid : string)
    (responsedf : pydict (list V)) (response_filters : pydict string)
    (children : list (string * selector V)) :
  filter_layout dec uid responsedf response_filters = inr children ->
  exists shown rest,
    response_filters = shown ++ rest /\
    map fst children = dict_keys shown /\
    map (fun c => selector_id (snd c)) children
    = map (fun k => ids uid (String.append "filter-" k)) (dict_keys shown) /\
    (forall col_name col_type, In (col_name, col_type) shown ->
       col_type = "multi" \/ col_type = "single") /\
    match rest with
    | [] => True
    | (_, col_type) :: _ => col_type <> "multi" /\ col_type <> "single"
    end.
Proof.
  unfold filter_layout. intros H. apply filter_layout_from_shown in H.
  destruct H as [shown [rest [new [E [-> H]]]]].
  exists shown, rest. split; [exact E | exact H].
Qed.

Lemma X15_range_filter_hides_the_next :
  exists shown rest,
    [("ZONE", "multi"); ("DATE", "range"); ("REGION", "single")] = shown ++ rest /\
    map fst [("ZONE", Select (ids "u" "filter-ZONE") [1%Z; 2%Z] [1%Z; 2%Z] 2)]
    = dict_keys shown /\
    map (fun c => selector_id (snd c))
        [("ZONE", Select (ids "u" "filter-ZONE") [1%Z; 2%Z] [1%Z; 2%Z] 2)]
    = map (fun k => ids "u" (String.append "filter-" k)) (dict_keys shown) /\
    (forall col_name col_type, In (col_name, col_type) shown ->
       col_type = "multi" \/ col_type = "single") /\
    match rest with
    | [] => True
    | (_, col_type) :: _ => col_type <> "multi" /\ col_type <> "single"
    end.
Proof.
  apply (X15_selectors_stop_at_the_first_other_type Z Z.eq_dec "u"
           [("ZONE", [1%Z; 2%Z; 1%Z]); ("DATE", [5%Z]); ("REGION", [7%Z])]
           [("ZONE", "multi"); ("DATE", "range"); ("REGION", "single")]).
  reflexivity.
Defined.

Lemma filter_layout_from_returns {V : Type} (dec : forall a b : V, {a = b} + {a <> b})
    (uid : string) (responsedf : pydict (list V)) (items : pydict string)
    (acc : list (string * selector V)) :
  (forall col_name col_type, In (col_name, col_type) items ->
     (col_type = "multi" \/ col_type = "single") /\
     exists column, dict_get col_name responsedf = Some column /\ column <> []) ->
  exists children, filter_layout_from dec uid responsedf items acc = inr children.
Proof.
  revert acc. induction items as [|[n t] items IH]; intros acc H; cbn [filter_layout_from].
  - eexists. reflexivity.
  - destruct (H n t (or_introl eq_refl)) as [Ht [column [-> Hne]]].
    assert (Hrest : forall col_name col_type, In (col_name, col_type) items ->
              (col_type = "multi" \/ col_type = "single") /\
              exists column, dict_get col_name responsedf = Some column /\ column <> []).
    { intros cn ct Hin. apply H. right. exact Hin. }
    destruct (String.eqb_spec t "multi") as [->|Hm]; [apply IH; exact Hrest|].
    destruct (String.eqb_spec t "single") as [->|Hs]; [|destruct Ht; contradiction].
    destruct (unique dec column) as [|first values] eqn:E; [|apply IH; exact Hrest].
    exfalso. destruct column as [|c column]; [congruence|].
    assert (Hin : In c (unique dec (c :: column)))
      by (apply unique_In; left; reflexivity).
    rewrite E in Hin. destruct Hin.
Qed.

Lemma filter_layout_ids {V : Type} (dec : forall a b : V, {a = b} + {a <> b})
    (uid : string) (responsedf : pydict (list V)) (response_filters : pydict string)
    (children : list (string * selector V)) :
  filter_layout dec uid responsedf response_filters = inr children ->
  exists shown : list string,
    map (fun c => selector_id (snd c)) children
    = map (fun k => ids uid (String.append "filter-" k)) shown.
Proof.
  unfold filter_layout. intros H. apply filter_layout_from_shown in H.
  destruct H as [shown [rest [new [_ [-> [_ [Hi _]]]]]]].
  exists (dict_keys shown). exact Hi.
Qed.

Lemma filter_layout_ids_all {V : Type} (dec : forall a b : V, {a = b} + {a <> b})
    (uid : string) (responsedf : pydict (list V)) (response_filters : pydict string) :
  (forall col_name col_type, In (col_name, col_type) response_filters ->
     (col_type = "multi" \/ col_type = "single") /\
     exists column, dict_get col_name responsedf = Some column /\ column <> []) ->
  exists children,
    filter_layout dec uid responsedf response_filters = inr children /\
    map (fun c => selector_id (snd c)) children
    = map (fun k => ids uid (String.append "filter-" k)) (dict_keys response_filters).
Proof.
  intros H. unfold filter_layout.
  destruct (filter_layout_from_returns dec uid responsedf response_filters [] H)
    as [children E].
  exists children. split; [exact E|].
  apply filter_layout_from_shown in E.
  destruct E as [shown [rest [new [Hrf [-> [_ [Hi [_ Hr]]]]]]]].
  destruct rest as [|[n t] rest].
  - rewrite app_nil_r in Hrf. subst shown. exact Hi.
  - exfalso. destruct (H n t) as [[Ht|Ht] _].
    + rewrite Hrf. apply in_app_iff. right. left. reflexivity.
    + apply (proj1 Hr Ht).
    + apply (proj2 Hr Ht).
Qed.

(** X16. When every response filter has the type "multi" or "single" and
    names a column of the response frame that has a row,
    [filter_layout] raises nothing and its selectors carry, in the same
    order, the ids the filter [State]s of [model_input_callbacks] refer
    to. *)
Theorem X16_every_filter_state_has_its_selector (V : Type)
    (dec : forall a b : V, {a = b} + {a <> b}) (uid : string)
    (responsedf : pydict (list V)) (response_filters : pydict string) :
  (forall col_name col_type, In (col_name, col_type) response_filters ->
     (col_type = "multi" \/ col_type = "single") /\
     exists column, dict_get col_name responsedf = Some column /\ column <> []) ->
  exists children,
    filter_layout dec uid responsedf response_filters = inr children /\
    map fst children = dict_keys response_filters /\
    map (fun c => (selector_id (snd c), "value")) children
    = skipn 7 (model_input_callbacks uid response_filters).
Proof.
  intros H. unfold filter_layout.
  destruct (filter_layout_from_returns dec uid responsedf response_filters [] H)
    as [children E].
  exists children. split; [exact E|].
  apply filter_layout_from_shown in E.
  destruct E as [shown [rest [new [Hrf [-> [Hl [Hi [_ Hr]]]]]]]].
  destruct rest as [|[n t] rest].
  - rewrite app_nil_r in Hrf. subst shown. simpl. split; [exact Hl|].
    transitivity (map (fun i => (i, "value")) (map (fun c => selector_id (snd c)) new)).
    + rewrite map_map. reflexivity.
    + rewrite Hi. unfold dict_keys. rewrite !map_map. reflexivity.
  - exfalso. destruct (H n t) as [[Ht|Ht] _].
    + rewrite Hrf. apply in_app_iff. right. left. reflexivity.
    + apply (proj1 Hr Ht).
    + apply (proj2 Hr Ht).
Qed.

Lemma X16_two_selectors :
  exists children,
    filter_layout Z.eq_dec "u"
      [("ZONE", [1%Z; 2%Z; 1%Z]); ("REGION", [7%Z])]
      [("ZONE", "multi"); ("REGION", "single")] = inr children /\
    map fst children = dict_keys [("ZONE", "multi"); ("REGION", "single")] /\
    map (fun c => (selector_id (snd c), "value")) children
    = skipn 7 (model_input_callbacks "u" [("ZONE", "multi"); ("REGION", "single")]).
Proof.
  apply (X16_every_filter_state_has_its_selector Z Z.eq_dec "u"
           [("ZONE", [1%Z; 2%Z; 1%Z]); ("REGION", [7%Z])]
           [("ZONE", "multi"); ("REGION", "single")]).
  intros cn ct [E|[E|[]]]; inversion E; subst.
  - split; [left; reflexivity|]. eexists. split; [reflexivity | discriminate].
  - split; [right; reflexivity|]. eexists. split; [reflexivity | discriminate].
Defined.

(** ** The components the callbacks refer to *)

Lemma string_length_append (a b : string) :
  String.length (String.append a b) = (String.length a + String.length b)%nat.
Proof. induction a as [|c a IH]; simpl; [reflexivity | rewrite IH; reflexivity]. Qed.

Lemma string_append_cancel_r (a b s : string) :
  String.append a s = String.append b s -> a = b.
Proof.
  revert b. induction a as [|c a IH]; intros [|d b] H; simpl in H.
  - reflexivity.
  - exfalso. apply (f_equal String.length) in H. simpl in H.
    rewrite string_length_append in H. lia.
  - exfalso. apply (f_equal String.length) in H. simpl in H.
    rewrite string_length_append in H. lia.
  - inversion H as [[Hcd H']]. f_equal. apply IH. exact H'.
Qed.

Lemma ids_inj (uid a b : string) : ids uid a = ids uid b -> a = b.
Proof. unfold ids. apply string_append_cancel_r. Qed.

(** X21. [detect_changes_callbacks] has an [Input] for the component
    "force-out", and no layout of the plugin has a component with that id,
    whatever the response filters are. *)
Theorem X21_force_out_is_in_no_layout (V : Type)
    (dec : forall a b : V, {a = b} + {a <> b}) (uid : string)
    (responsedf : pydict (list V)) (response_filters : pydict string)
    (children : list (string * selector V)) :
  filter_layout dec uid responsedf response_filters = inr children ->
  In (ids uid "force-out", "value") (detect_changes_callbacks uid response_filters) /\
  ~ In (ids uid "force-out") (layout_ids uid children).
Proof.
  intros H. split.
  - unfold detect_changes_callbacks. apply in_app_iff. left. simpl. tauto.
  - apply filter_layout_ids in H. destruct H as [shown Hids].
    unfold layout_ids, control_layout_ids. rewrite !in_app_iff, Hids.
    intros [Hin | [Hin | [Hin | Hin]]].
    + simpl in Hin.
      repeat (destruct Hin as [Hin|Hin]; [apply ids_inj in Hin; discriminate|]).
      exact Hin.
    + simpl in Hin.
      repeat (destruct Hin as [Hin|Hin]; [apply ids_inj in Hin; discriminate|]).
      exact Hin.
    + apply in_map_iff in Hin. destruct Hin as [k [Hk _]].
      apply ids_inj in Hk. discriminate.
    + simpl in Hin.
      repeat (destruct Hin as [Hin|Hin]; [apply ids_inj in Hin; discriminate|]).
      exact Hin.
Qed.

Lemma X21_no_filters :
  In (ids "u" "force-out", "value") (detect_changes_callbacks "u" []) /\
  ~ In (ids "u" "force-out") (layout_ids (V := Z) "u" []).
Proof.
  apply (X21_force_out_is_in_no_layout Z Z.eq_dec "u" [] [] []). reflexivity.
Defined.

(** X22. When every response filter has the type "multi" or "single" and
    names a column of the response frame that has a row, every [State] of
    [model_input_callbacks], and every [Input] of
    [detect_changes_callbacks] but the one for "force-out", is the "value"
    of a component of the layout. *)
Theorem X22_callbacks_refer_to_the_layout (V : Type)
    (dec : forall a b : V, {a = b} + {a <> b}) (uid : string)
    (responsedf : pydict (list V)) (response_filters : pydict string) :
  (forall col_name col_type, In (col_name, col_type) response_filters ->
     (col_type = "multi" \/ col_type = "single") /\
     exists column, dict_get col_name responsedf = Some column /\ column <> []) ->
  exists children,
    filter_layout dec uid responsedf response_filters = inr children /\
    (forall id property, In (id, property) (model_input_callbacks uid response_filters) ->
       property = "value" /\ In id (layout_ids uid children)) /\
    (forall id property, In (id, property) (detect_changes_callbacks uid response_filters) ->
       property = "value" /\ (In id (layout_ids uid children) \/ id = ids uid "force-out")).
Proof.
  intros H.
  destruct (filter_layout_ids_all dec uid responsedf response_filters H)
    as [children [E Hids]].
  exists children. split; [exact E|].
  assert (Hfilter : forall id property,
            In (id, property)
               (map (fun kv : string * string =>
                       (ids uid (String.append "filter-" (fst kv)), "value"))
                    response_filters) ->
            property = "value" /\ In id (layout_ids uid children)).
  { intros id property Hin. apply in_map_iff in Hin.
    destruct Hin as [[n t] [Hnt Hin]]. inversion Hnt; subst. split; [reflexivity|].
    unfold layout_ids, control_layout_ids. rewrite !in_app_iff, Hids.
    right. right. left. apply in_map_iff. exists n. split; [reflexivity|].
    unfold dict_keys. apply in_map_iff. exists (n, t). split; [reflexivity | exact Hin]. }
  split.
  - intros id property Hin. unfold model_input_callbacks in Hin.
    apply in_app_iff in Hin. destruct Hin as [Hin | Hin]; [|apply Hfilter; exact Hin].
    simpl in Hin.
    repeat (destruct Hin as [Hin|Hin];
            [inversion Hin; subst; split; [reflexivity|];
             unfold layout_ids, control_layout_ids; rewrite !in_app_iff; simpl; tauto|]).
    destruct Hin.
  - intros id property Hin. unfold detect_changes_callbacks in Hin.
    apply in_app_iff in Hin. destruct Hin as [Hin | Hin].
    + simpl in Hin.
      repeat (destruct Hin as [Hin|Hin];
              [inversion Hin; subst; split; [reflexivity|];
               unfold layout_ids, control_layout_ids; rewrite !in_app_iff; simpl; tauto|]).
      destruct Hin.
    + destruct (Hfilter id property Hin) as [Hp Hl]. split; [exact Hp | left; exact Hl].
Qed.

Lemma X22_two_filters_wired :
  exists children,
    filter_layout Z.eq_dec "u"
      [("ZONE", [1%Z; 2%Z; 1%Z]); ("REGION", [7%Z])]
      [("ZONE", "multi"); ("REGION", "single")] = inr children /\
    In (ids "u" "filter-REGION") (layout_ids "u" children).
Proof.
  destruct (X22_callbacks_refer_to_the_layout Z Z.eq_dec "u"
              [("ZONE", [1%Z; 2%Z; 1%Z]); ("REGION", [7%Z])]
              [("ZONE", "multi"); ("REGION", "single")])
    as [children [E [Hs _]]].
  - intros cn ct [E|[E|[]]]; inversion E; subst.
    + split; [left; reflexivity|]. eexists. split; [reflexivity | discriminate].
    + split; [right; reflexivity|]. eexists. split; [reflexivity | discriminate].
  - exists children. split; [exact E|].
    apply (Hs (ids "u" "filter-REGION") "value").
    unfold model_input_callbacks. apply in_app_iff. right. simpl. tauto.
Defined.

(** ** Construction of the plugin *)

Section InitProperties.

Variable Theme : Type.
Variable scratch_ensembles : option (pydict string).
Variable plotly_theme : option Theme.
Variable read_parquet : string -> plugin_error + table.
Variable load_parameters : pydict string -> plugin_error + table.
Variable load_csv : pydict string -> string -> plugin_error + table.

Local Abbreviation init :=
  (__init__ Theme scratch_ensembles plotly_theme read_parquet load_parameters load_csv).
Local Abbreviation load :=
  (load_frames scratch_ensembles read_parquet load_parameters load_csv).

Lemma bind_inr {E A B : Type} (m : E + A) (f : A -> E + B) (b : B) :
  bind m f = inr b -> exists a, m = inr a /\ f a = inr b.
Proof.
  destruct m as [e|a]; simpl; [discriminate|]. intros H. exists a. split; [reflexivity | exact H].
Qed.

Lemma table_drop_ignore_columns (t : table) (cols : list string) (c : string) :
  In c (t_columns (table_drop_ignore t cols)) <-> In c (t_columns t) /\ ~ In c cols.
Proof.
  unfold table_drop_ignore. simpl. rewrite filter_In.
  rewrite negb_true_iff, mem_not_In. reflexivity.
Qed.

Lemma difference_In (columns other : list string) (c : string) :
  In c (difference columns other) <-> In c columns /\ ~ In c other.
Proof.
  unfold difference. rewrite filter_In, negb_true_iff, mem_not_In. reflexivity.
Qed.

Lemma self_filters_keys (args : init_args) (filters : pydict string) :
  arg_response_filters args = Some filters ->
  (if truthy_list (arg_response_filters args)
   then match arg_response_filters args with Some d => d | None => [] end
   else []) = filters.
Proof. intros ->. destruct filters; reflexivity. Qed.

(** X17. With a non-empty [response_include] and [response_filters] left
    at its default [None], [__init__] never returns: once the frames are
    loaded and their runs agree, the column list it builds for
    [response_include] asks [None] for its keys, which is an
    [AttributeError]. *)
Theorem X17_response_include_needs_response_filters (args : init_args)
    (c : string) (cs : list string) :
  arg_response_include args = Some (c :: cs) ->
  arg_response_filters args = None ->
  (forall p, init args <> inr p) /\
  (forall parameterdf responsedf,
     truthy_list (arg_response_ignore args) = false ->
     load args = inr (parameterdf, responsedf) ->
     check_runs (runs_of parameterdf) (runs_of responsedf) = None ->
     init args = inl AttributeError_keys).
Proof.
  intros Hinc Hfil. unfold __init__. rewrite Hinc, Hfil. cbn [truthy_list].
  split.
  - intros p. destruct (truthy_list (arg_response_ignore args) && true); [discriminate|].
    destruct (load args) as [e|[parameterdf responsedf]]; cbn [bind]; [discriminate|].
    destruct (raise_if (check_runs (runs_of parameterdf) (runs_of responsedf)));
      cbn [bind]; [discriminate|].
    destruct (raise_if (check_response_filters (t_columns responsedf) []));
      cbn [bind]; discriminate.
  - intros parameterdf responsedf Hign Hload Hruns. rewrite Hign, Hload.
    cbn [andb bind]. rewrite Hruns. reflexivity.
Qed.

(** X18. When [__init__] returns, the runs and the response filters were
    checked on the frames as loaded; the response frame it keeps has only
    columns of the loaded one; a filter column is missing from it only if
    [response_ignore] names it; and with a non-empty [response_include]
    its columns are those of the loaded frame that are "REAL", "ENSEMBLE",
    included or a filter column. *)
Theorem X18_columns_the_plugin_keeps (args : init_args) (p : plugin Theme) :
  init args = inr p ->
  exists parameterdf responsedf,
    load args = inr (parameterdf, responsedf) /\
    check_runs (runs_of parameterdf) (runs_of responsedf) = None /\
    check_response_filters (t_columns responsedf) (self_response_filters p) = None /\
    (forall c, In c (t_columns (self_responsedf p)) -> In c (t_columns responsedf)) /\
    (forall c, In c (dict_keys (self_response_filters p)) ->
       In c (t_columns (self_responsedf p))
       \/ exists ignored, arg_response_ignore args = Some ignored /\ In c ignored) /\
    (forall included, arg_response_include args = Some included -> included <> [] ->
       forall c, In c (t_columns (self_responsedf p))
                 <-> In c (t_columns responsedf)
                     /\ In c (["REAL"; "ENSEMBLE"] ++ included
                              ++ dict_keys (self_response_filters p))).
Proof.
  unfold __init__.
  set (filters := if truthy_list (arg_response_filters args)
                  then match arg_response_filters args with Some d => d | None => [] end
                  else []).
  destruct (truthy_list (arg_response_ignore args)
            && truthy_list (arg_response_include args)) eqn:Eboth; [discriminate|].
  intros H. apply bind_inr in H. destruct H as [[parameterdf responsedf] [Hload H]].
  apply bind_inr in H. destruct H as [[] [Hruns H]].
  apply bind_inr in H. destruct H as [[] [Hcheck H]].
  apply bind_inr in H. destruct H as [responsedf' [Hinc H]].
  apply bind_inr in H. destruct H as [parameterdf' [Hpar H]].
  apply bind_inr in H. destruct H as [theme [_ H]].
  inversion H; subst p; clear H. cbn [self_responsedf self_response_filters].
  exists parameterdf, responsedf. split; [exact Hload|].
  assert (Hr : check_runs (runs_of parameterdf) (runs_of responsedf) = None)
    by (destruct (check_runs (runs_of parameterdf) (runs_of responsedf));
        [discriminate | reflexivity]).
  assert (Hc : check_response_filters (t_columns responsedf) filters = None)
    by (destruct (check_response_filters (t_columns responsedf) filters);
        [discriminate | reflexivity]).
  split; [exact Hr|]. split; [exact Hc|].
  assert (Hcols : forall c, In c (dict_keys filters) -> In c (t_columns responsedf)).
  { intros c Hin. unfold dict_keys in Hin. apply in_map_iff in Hin.
    destruct Hin as [[n t] [<- Hin]].
    pose proof (check_response_filters_cases (t_columns responsedf) filters) as Hall.
    rewrite Hc in Hall. apply (Hall n t Hin). }
  destruct (arg_response_include args) as [[|i included]|] eqn:Ei.
  - (* an empty include list *)
    inversion Hinc; subst responsedf'; clear Hinc.
    split; [|split].
    + intros c. destruct (arg_response_ignore args) as [[|g gs]|]; try tauto.
      rewrite table_drop_ignore_columns. tauto.
    + intros c Hin. destruct (arg_response_ignore args) as [[|g gs]|] eqn:Eg;
        try (left; apply Hcols; exact Hin).
      destruct (in_dec string_dec c (g :: gs)) as [Hg|Hg].
      * right. exists (g :: gs). split; [reflexivity | exact Hg].
      * left. apply table_drop_ignore_columns. split; [apply Hcols; exact Hin | exact Hg].
    + intros inc E. inversion E; subst inc. congruence.
  - (* a non-empty include list: nothing is ignored *)
    assert (Hign : truthy_list (arg_response_ignore args) = false)
      by (cbn [truthy_list] in Eboth; rewrite andb_true_r in Eboth; exact Eboth).
    assert (Hsame : match arg_response_ignore args with
                    | Some (c :: cs) => table_drop_ignore responsedf (c :: cs)
                    | _ => responsedf
                    end = responsedf)
      by (destruct (arg_response_ignore args) as [[|g gs]|]; try reflexivity;
          discriminate).
    rewrite Hsame in Hinc.
    destruct (arg_response_filters args) as [given|] eqn:Ef; [|discriminate].
    inversion Hinc; subst responsedf'; clear Hinc.
    assert (Hkeys : filters = given)
      by (unfold filters; destruct given; reflexivity).
    assert (Hkept : forall c,
               In c (t_columns (table_drop_ignore responsedf
                       (difference (t_columns responsedf)
                          (["REAL"; "ENSEMBLE"] ++ (i :: included) ++ dict_keys given))))
               <-> In c (t_columns responsedf)
                   /\ In c (["REAL"; "ENSEMBLE"] ++ (i :: included) ++ dict_keys given)).
    { intros c. rewrite table_drop_ignore_columns, difference_In. split.
      - intros [H1 H2]. split; [exact H1|].
        destruct (in_dec string_dec c
                    (["REAL"; "ENSEMBLE"] ++ (i :: included) ++ dict_keys given));
          [assumption | exfalso; apply H2; split; assumption].
      - intros [H1 H2]. split; [exact H1|]. intros [_ H3]. contradiction. }
    split; [|split].
    + intros c Hin. apply Hkept in Hin. tauto.
    + intros c Hin. left. apply Hkept. split; [apply Hcols; exact Hin|].
      rewrite Hkeys in Hin. rewrite !in_app_iff. right. right. exact Hin.
    + intros inc E _. inversion E; subst inc. rewrite Hkeys. apply Hkept.
  - (* no include list *)
    inversion Hinc; subst responsedf'; clear Hinc.
    split; [|split].
    + intros c. destruct (arg_response_ignore args) as [[|g gs]|]; try tauto.
      rewrite table_drop_ignore_columns. tauto.
    + intros c Hin. destruct (arg_response_ignore args) as [[|g gs]|] eqn:Eg;
        try (left; apply Hcols; exact Hin).
      destruct (in_dec string_dec c (g :: gs)) as [Hg|Hg].
      * right. exists (g :: gs). split; [reflexivity | exact Hg].
      * left. apply table_drop_ignore_columns. split; [apply Hcols; exact Hin | exact Hg].
    + intros inc E. discriminate.
Qed.

End InitProperties.

Lemma X17_include_without_filters :
  __init__ unit None (Some tt)
    (fun _ => inr (mkTable ["ENSEMBLE"; "REAL"; "FOPT"; "FGPT"] ["iter-0"] [0%Z]))
    (fun _ => inl LoaderError) (fun _ _ => inl LoaderError)
    (mkArgs (Some "parameters.parquet") (Some "responses.parquet") None None
            None None (Some ["FOPT"]) None)
  = inl AttributeError_keys.
Proof.
  apply (proj2 (X17_response_include_needs_response_filters unit None (Some tt)
                  (fun _ => inr (mkTable ["ENSEMBLE"; "REAL"; "FOPT"; "FGPT"]
                                         ["iter-0"] [0%Z]))
                  (fun _ => inl LoaderError) (fun _ _ => inl LoaderError)
                  (mkArgs (Some "parameters.parquet") (Some "responses.parquet")
                          None None None None (Some ["FOPT"]) None)
                  "FOPT" [] eq_refl eq_refl)
           (mkTable ["ENSEMBLE"; "REAL"; "FOPT"; "FGPT"] ["iter-0"] [0%Z])
           (mkTable ["ENSEMBLE"; "REAL"; "FOPT"; "FGPT"] ["iter-0"] [0%Z])).
  - reflexivity.
  - reflexivity.
  - reflexivity.
Defined.

Lemma X18_included_response_and_filter :
  exists parameterdf responsedf,
    load_frames None
      (fun _ => inr (mkTable ["ENSEMBLE"; "REAL"; "ZONE"; "FOPT"; "FGPT"] ["iter-0"] [0%Z]))
      (fun _ => inl LoaderError) (fun _ _ => inl LoaderError)
      (mkArgs (Some "parameters.parquet") (Some "responses.parquet") None None
              (Some [("ZONE", "multi")]) None (Some ["FOPT"]) None)
    = inr (parameterdf, responsedf) /\
    check_runs (runs_of parameterdf) (runs_of responsedf) = None /\
    check_response_filters (t_columns responsedf) [("ZONE", "multi")] = None.
Proof.
  destruct (X18_columns_the_plugin_keeps unit None (Some tt)
              (fun _ => inr (mkTable ["ENSEMBLE"; "REAL"; "ZONE"; "FOPT"; "FGPT"]
                                     ["iter-0"] [0%Z]))
              (fun _ => inl LoaderError) (fun _ _ => inl LoaderError)
              (mkArgs (Some "parameters.parquet") (Some "responses.parquet") None None
                      (Some [("ZONE", "multi")]) None (Some ["FOPT"]) None)
              (mkPlugin
                 (mkTable ["ENSEMBLE"; "REAL"; "ZONE"; "FOPT"; "FGPT"] ["iter-0"] [0%Z])
                 (mkTable ["ENSEMBLE"; "REAL"; "ZONE"; "FOPT"] ["iter-0"] [0%Z])
                 [("ZONE", "multi")] tt))
    as [parameterdf [responsedf [Hload [Hruns [Hcheck _]]]]].
  - reflexivity.
  - exists parameterdf, responsedf. split; [exact Hload|]. split; [exact Hruns | exact Hcheck].
Defined.

(** ** The plots *)

Lemma replace_star_inj (a b : string) : replace_star a = replace_star b -> a = b.
Proof.
  revert b. induction a as [|c a IH]; intros [|d b]; simpl.
  - reflexivity.
  - destruct (Ascii.eqb d star); discriminate.
  - destruct (Ascii.eqb c star); discriminate.
  - destruct (Ascii.eqb_spec c star) as [->|Hc];
      destruct (Ascii.eqb_spec d star) as [->|Hd]; simpl; intros H.
    + inversion H as [H']. f_equal. apply IH. exact H'.
    + unfold star in *. inversion H. congruence.
    + unfold star in *. inversion H. congruence.
    + inversion H as [[Hcd H']]. f_equal. apply IH. exact H'.
Qed.

Lemma NoDup_map_injective {A B : Type} (f : A -> B) (l : list A) :
  (forall a b, f a = f b -> a = b) -> NoDup l -> NoDup (map f l).
Proof.
  intros Hinj. induction 1 as [|x l Hx Hnd IH]; simpl; constructor; [|exact IH].
  intros Hin. apply in_map_iff in Hin. destruct Hin as [y [E Hy]].
  apply Hinj in E. subst y. contradiction.
Qed.

Lemma or_raise_inr {E A : Type} (e : E) (o : option A) (a : A) :
  or_raise e o = inr a -> o = Some a.
Proof. destruct o; simpl; congruence. Qed.


Lemma add_arrows_fillcolor (x p_values : list Q) (num_arrows : nat) (sgn : list Q)
    (done : list Q) :
  List.length sgn = List.length p_values ->
  map arrow_fillcolor (add_arrows x (done ++ p_values) num_arrows (List.length done) sgn)
  = map significance_color p_values.
Proof.
  revert done p_values. induction sgn as [|s sgn IH]; intros done [|p p_values] Hlen;
    simpl in Hlen; try discriminate; [reflexivity|].
  cbn [add_arrows map arrow_fillcolor]. f_equal.
  - rewrite app_nth2 by apply Nat.le_refl. rewrite Nat.sub_diag. reflexivity.
  - replace (S (List.length done)) with (List.length (done ++ [p]))
      by (rewrite length_app; simpl; apply Nat.add_1_r).
    replace (done ++ p :: p_values) with ((done ++ [p]) ++ p_values)
      by (rewrite <- app_assoc; reflexivity).
    apply IH. injection Hlen. auto.
Qed.

Lemma np_sign_list_length (coeff_vals : list (option Q)) (sgn : list Q) :
  np_sign_list coeff_vals = Some sgn -> List.length sgn = List.length coeff_vals.
Proof.
  revert sgn. induction coeff_vals as [|[c|] rest IH]; intros sgn; simpl.
  - intros H. inversion H. reflexivity.
  - destruct (np_sign_list rest) as [sgn'|]; [|discriminate].
    intros H. inversion H. simpl. f_equal. apply IH. reflexivity.
  - discriminate.
Qed.









Section PlotProperties.

Variable V : Type.
Variable of_str : string -> V.
Variable of_int : Z -> V.

(** X19. The bars of the p-values plot and the arrows of the coefficient
    plot made from the same p-values are in the same order, that of
    [p_sorted], and have the same colours; the labels of the bars are
    pairwise different when the parameters are, although every ["*"] in
    them has become ["*<br>"]; and the line over the bars ends half a bar
    after the last one. *)
Theorem X19_bars_and_arrows_agree (coeff_sorted p_sorted : list (string * Q))
    (theme : pydict (pydict V)) (bars : p_values_plot V) (arrows : arrow_plot V) :
  make_p_values_plot V of_str of_int p_sorted theme = inr bars ->
  make_arrow_plot V of_str of_int coeff_sorted p_sorted theme = inr arrows ->
  bar_x (pp_trace bars) = map replace_star (ap_ticktext arrows) /\
  bar_marker_color (pp_trace bars) = map arrow_fillcolor (ap_arrows arrows) /\
  (NoDup (ap_ticktext arrows) -> NoDup (bar_x (pp_trace bars))) /\
  line_x1 (pp_shape bars)
  = inject_Z (Z.of_nat (List.length (bar_x (pp_trace bars)))) - (1 # 2).
Proof.
  unfold make_p_values_plot, make_arrow_plot. intros Hb Ha.
  apply bind_inr in Hb. destruct Hb as [layout [_ Hb]].
  apply bind_inr in Ha. destruct Ha as [sgn [Hs Ha]].
  apply bind_inr in Ha. destruct Ha as [layout' [_ Ha]].
  inversion Hb; subst bars; clear Hb. inversion Ha; subst arrows; clear Ha.
  cbn [pp_trace bar_x bar_marker_color ap_ticktext ap_arrows pp_shape line_x1].
  apply or_raise_inr in Hs. apply np_sign_list_length in Hs.
  rewrite length_map in Hs.
  split; [reflexivity|]. split; [|split].
  - symmetry. apply (add_arrows_fillcolor _ (map snd p_sorted) _ sgn []).
    rewrite Hs, !length_map. reflexivity.
  - apply NoDup_map_injective. exact replace_star_inj.
  - rewrite !length_map. reflexivity.
Qed.


End PlotProperties.

(** Two parameters, the second an interaction; the coefficients come in
    another order than the p-values. *)
Lemma X19_two_bars_two_arrows :
  exists bars arrows,
    make_p_values_plot (string + Z) inl inr
      [("PORO", 1 # 100); ("PORO*PERM", 1 # 2)] [("layout", [])] = inr bars /\
    make_arrow_plot (string + Z) inl inr
      [("PORO*PERM", 3); ("PORO", -(2))]
      [("PORO", 1 # 100); ("PORO*PERM", 1 # 2)] [("layout", [])] = inr arrows /\
    bar_x (pp_trace bars) = map replace_star (ap_ticktext arrows) /\
    bar_marker_color (pp_trace bars) = map arrow_fillcolor (ap_arrows arrows).
Proof.
  assert (Eb : exists bars,
             make_p_values_plot (string + Z) inl inr
               [("PORO", 1 # 100); ("PORO*PERM", 1 # 2)] [("layout", [])] = inr bars)
    by (eexists; vm_compute; reflexivity).
  assert (Ea : exists arrows,
             make_arrow_plot (string + Z) inl inr
               [("PORO*PERM", 3); ("PORO", -(2))]
               [("PORO", 1 # 100); ("PORO*PERM", 1 # 2)] [("layout", [])] = inr arrows)
    by (eexists; vm_compute; reflexivity).
  destruct Eb as [bars Eb]. destruct Ea as [arrows Ea].
  exists bars, arrows. split; [exact Eb|]. split; [exact Ea|].
  destruct (X19_bars_and_arrows_agree (string + Z) inl inr
              [("PORO*PERM", 3); ("PORO", -(2))]
              [("PORO", 1 # 100); ("PORO*PERM", 1 # 2)] [("layout", [])]
              bars arrows Eb Ea) as [Hx [Hc _]].
  split; [exact Hx | exact Hc].
Defined.

